(** * minian.preprocessing: bright-spot detection and correction

    A shallow embedding of [src/minian/preprocessing.py] and the
    verification of its specification.

    Conventions of the embedding.
    - Samples are exact rationals ([Q]): floating-point rounding is
      outside the model.  A video has one of the two sample types of a
      Video Volume, floating or 8-bit unsigned, and a store into it
      converts the value to that type.
    - A numpy buffer is a function from positional index tuples to
      samples; its shape is carried by the coordinate lists of the
      labelled array that owns it.
    - The video handed to [correct_brightspot] is a Python object that the
      function may mutate: it is a [DataArray] handle pointing into a heap
      of buffers, and the function runs in a state-and-exception monad
      over that heap and the printed diagnostics. *)

From Stdlib Require Import QArith Qround Qreduction Psatz Sorting.Sorted.
From Stdlib Require Import Reals Qreals.
From stdpp Require Import base option list sorting gmap sets strings.

Open Scope Z_scope.

(** ** Labelled arrays *)

Definition ndarray (A : Type) : Type := list nat → A.

(** A labelled array read as a value: what xarray calls a DataArray, with
    one coordinate list per dimension. *)
Record xarray (A : Type) : Type := XArray {
  xname : option string;
  xdims : list string;
  xcoords : list (list Z);
  xvalues : ndarray A
}.
Arguments XArray {A} _ _ _ _.
Arguments xname {A} _.
Arguments xdims {A} _.
Arguments xcoords {A} _.
Arguments xvalues {A} _.

Definition shape (coords : list (list Z)) : list nat := length <$> coords.

(** All positional indices of a shape, in row-major (C) order. *)
Fixpoint indices (shp : list nat) : list (list nat) :=
  match shp with
  | [] => [[]]
  | n :: shp => i ← seq 0 n; (λ idx, i :: idx) <$> indices shp
  end.

(** [a.sum()] *)
Definition sum (a : xarray Z) : Z :=
  foldr Z.add 0 (xvalues a <$> indices (shape (xcoords a))).

(** [np.nonzero(cond)]: the index tuples where [cond] holds, row-major. *)
Definition nonzero (cond : ndarray bool) (shp : list nat) : list (list nat) :=
  filter (λ idx, cond idx = true) (indices shp).

(** ** Coordinate tuples

    [HashableDict] is a dict from dimension name to coordinate, hashed by
    its items.  The embedding keeps the insertion order of the items; every
    dict built by [correct_brightspot] has the mask's dimensions as keys, in
    the mask's order, so equality of the item lists is equality of the
    dicts. *)
Abbreviation HashableDict := (list (string * Z)).

Fixpoint dict_get (k : string) (d : HashableDict) : option Z :=
  match d with
  | [] => None
  | (k', v) :: d => if decide (k' = k) then Some v else dict_get k d
  end.

(** ** Label-based indexing

    [index.get_loc(label)]: the position of a label in a coordinate list. *)
Fixpoint get_loc (label : Z) (index : list Z) : option nat :=
  match index with
  | [] => None
  | x :: index =>
      if decide (x = label) then Some 0%nat else S <$> get_loc label index
  end.

(** A positional indexer: per axis an integer position, or [None] for the
    full slice. *)
Abbreviation indexer := (list (option nat)).

(** [remap_label_indexers]: the positional indexer of [arr.loc[key]].
    [None] is the KeyError / ValueError of a label or a dimension that the
    array does not have. *)
Definition loc_indexer (dims : list string) (coords : list (list Z))
    (key : HashableDict) : option indexer :=
  if forallb (λ kv : string * Z, bool_decide (kv.1 ∈ dims)) key then
    mapM (λ dc : string * list Z,
            match dict_get dc.1 key with
            | Some label => Some <$> get_loc label dc.2
            | None => Some None
            end) (zip dims coords)
  else None.

(** The full index addressed by an indexer and an index over the free axes. *)
Fixpoint fill (ix : indexer) (ridx : list nat) : list nat :=
  match ix with
  | [] => []
  | Some i :: ix => i :: fill ix ridx
  | None :: ix =>
      match ridx with
      | [] => 0%nat :: fill ix []
      | j :: ridx => j :: fill ix ridx
      end
  end.

Fixpoint matches (ix : indexer) (idx : list nat) : bool :=
  match ix, idx with
  | [], [] => true
  | Some i :: ix, j :: idx => bool_decide (i = j) && matches ix idx
  | None :: ix, _ :: idx => matches ix idx
  | _, _ => false
  end.

(** The part of a full index that lies on the free axes. *)
Fixpoint free (ix : indexer) (idx : list nat) : list nat :=
  match ix, idx with
  | Some _ :: ix, _ :: idx => free ix idx
  | None :: ix, j :: idx => j :: free ix idx
  | _, _ => []
  end.

(** [a[ix]] and [a[ix] = v] *)
Definition getitem {A} (ix : indexer) (a : ndarray A) : ndarray A :=
  λ ridx, a (fill ix ridx).

Definition setitem {A} (ix : indexer) (v : ndarray A) (a : ndarray A) : ndarray A :=
  λ idx, if matches ix idx then v (free ix idx) else a idx.

(** ** Arithmetic on samples *)

Definition Qsum (l : list Q) : Q := foldr Qplus 0%Q l.

(** [np.mean]: the sum over the count, kept in lowest terms. *)
Definition Qmean (l : list Q) : Q := Qred (Qsum l / inject_Z (Z.of_nat (length l))).

(** The sample types of a Video Volume. *)
Inductive sample_type : Type := floating | uint8.

(** [value.astype(t)], the conversion numpy applies when a floating value
    is assigned into an array of type [t]: none for a floating array;
    for an 8-bit unsigned array the fraction is dropped (truncation toward
    zero), and a value outside 0..255 is reduced modulo 256. *)
Definition astype (t : sample_type) (x : Q) : Q :=
  match t with
  | floating => x
  | uint8 => inject_Z ((Qnum x ÷ Z.pos (Qden x)) `mod` 256)
  end.

(** [stack.mean(dim='sample')] *)
Definition mean_sample (stack : list (ndarray Q)) : ndarray Q :=
  λ ridx, Qmean ((λ s : ndarray Q, s ridx) <$> stack).

(** ** The interpreter state: heap, output, exceptions *)

Inductive msg : Type :=
  | correcting_brightspot
  | no_bright_spots_returning_input
  | processing_spot (ibrt n : nat)
  | unable_to_correct (ibrt : nat) (coordinates : HashableDict)
  | brightspot_correction_done.

Inductive exn : Type := KeyError | TypeError | ValueError.

Record state : Type := State {
  heap : list (ndarray Q);
  stdout : list msg
}.

Definition M (A : Type) : Type := state → state * (exn + A).

#[global] Instance M_ret : MRet M := λ A x s, (s, inr x).
#[global] Instance M_bind : MBind M := λ A B f m s,
  match m s with
  | (s', inl e) => (s', inl e)
  | (s', inr x) => f x s'
  end.

Definition raise {A} (e : exn) : M A := λ s, (s, inl e).

Definition print (m : msg) : M unit :=
  λ s, (State (heap s) (stdout s ++ [m]), inr ()).

Definition lift_KeyError {A} (o : option A) : M A :=
  match o with Some x => mret x | None => raise KeyError end.

(** Python's [for x in l: body]. *)
Fixpoint for_ {A} (l : list A) (body : A → M unit) : M unit :=
  match l with
  | [] => mret ()
  | x :: l => body x ;; for_ l body
  end.

(** The video object: labels, and the address of its buffer. *)
Record DataArray : Type := MkDataArray {
  name : option string;
  dims : list string;
  coords : list (list Z);
  dtype : sample_type;
  data : nat
}.

Definition values (a : DataArray) : M (ndarray Q) :=
  λ s, match heap s !! data a with
       | Some buf => (s, inr buf)
       | None => (s, inl KeyError)
       end.

Definition store (a : DataArray) (buf : ndarray Q) : M unit :=
  λ s, (State (<[data a := buf]> (heap s)) (stdout s), inr ()).

(** [varray.copy()]: a new object over a fresh buffer with the same
    contents. *)
Definition alloc (buf : ndarray Q) : M nat :=
  λ s, (State (heap s ++ [buf]) (stdout s), inr (length (heap s))).

Definition copy (a : DataArray) : M DataArray :=
  buf ← values a;
  p ← alloc buf;
  mret (MkDataArray (name a) (dims a) (coords a) (dtype a) p).

(** [varray.coords[dim].values.tolist()] *)
Fixpoint coords_of (dims : list string) (coords : list (list Z))
    (dim : string) : option (list Z) :=
  match dims, coords with
  | d :: dims, c :: coords =>
      if decide (d = dim) then Some c else coords_of dims coords dim
  | _, _ => None
  end.

(** [varr.loc[key]] *)
Definition loc_get (a : DataArray) (key : HashableDict) : M (ndarray Q) :=
  ix ← lift_KeyError (loc_indexer (dims a) (coords a) key);
  buf ← values a;
  mret (getitem ix buf).

(** [varr.loc[key] = v]: the value is converted to the sample type of
    [varr] as it is stored. *)
Definition loc_set (a : DataArray) (key : HashableDict) (v : ndarray Q) : M unit :=
  ix ← lift_KeyError (loc_indexer (dims a) (coords a) key);
  buf ← values a;
  store a (setitem ix (λ ridx, astype (dtype a) (v ridx)) buf).

(** [varr.rename(varray.name + suffix)]: a new object over the same
    buffer.  With no name the concatenation is a TypeError. *)
Definition rename_suffix (a : DataArray) (nm : option string) (suffix : string) : M DataArray :=
  match nm with
  | Some s => mret (MkDataArray (Some (s +:+ suffix)) (dims a) (coords a) (dtype a) (data a))
  | None => raise TypeError
  end.

(** ** correct_brightspot *)

(** [itertools.product] of a list of lists *)
Fixpoint product {A} (ls : list (list A)) : list (list A) :=
  match ls with
  | [] => [[]]
  | l :: ls => x ← l; (λ cord, x :: cord) <$> product ls
  end.

(** [range(a, b)] *)
Definition range (a b : Z) : list Z := seqZ a (b - a).

(** The coordinate tuple of the mask entry at a positional index. *)
Definition cord_at (spots : xarray Z) (idx : list nat) : HashableDict :=
  zip (xdims spots) (zip_with (λ (cs : list Z) (i : nat), nth i cs 0) (xcoords spots) idx).

(** Lines 140-149: the surrounding coordinates of one flagged point.  The
    order in which Python lists a set is unspecified; the embedding lists it
    with [elements]. *)
Definition surround (varr_ds : DataArray) (window : Z)
    (brt_list : list HashableDict) (brt_cord : HashableDict)
    : option (list HashableDict) :=
  cur_sur ← mapM (λ dc : string * Z,
                    cs ← coords_of (dims varr_ds) (coords varr_ds) dc.1;
                    Some (dc.1,
                          elements (list_to_set (range (dc.2 - window) (dc.2 + window + 1))
                                    ∩ list_to_set cs : gset Z))) brt_cord;
  let cur_sur_list := (λ cord, zip (cur_sur.*1) cord) <$> product (cur_sur.*2) in
  Some (elements (list_to_set cur_sur_list ∖ list_to_set brt_list : gset HashableDict)).

(** The effective threshold of line 130-131. *)
Definition effective_thres (spots : xarray Z) (spot_thres : Z) : Z :=
  if bool_decide (2 < length (xdims spots))%nat then 0 else spot_thres.

(** Lines 132-137: the flagged points. *)
Definition brt_list (spots : xarray Z) (spot_thres : Z) : list HashableDict :=
  let brt := nonzero (λ idx, bool_decide (effective_thres spots spot_thres < xvalues spots idx))
                     (shape (xcoords spots)) in
  cord_at spots <$> brt.

(** Lines 151-169: the body of the correction loop for one flagged point. *)
Definition correct_point (varr_ds : DataArray) (n : nat)
    (it : nat * (HashableDict * list HashableDict)) : M unit :=
  let '(ibrt, (cur_brt, sur)) := it in
  print (processing_spot ibrt n);;
  if bool_decide (0 < length sur)%nat then
    cur_sur ← mapM (λ cord_samp, loc_get varr_ds cord_samp) sur;
    loc_set varr_ds cur_brt (mean_sample cur_sur)
  else
    print (unable_to_correct ibrt cur_brt).

Definition correct_brightspot (varray : DataArray) (spots : xarray Z)
    (window spot_thres : Z) (inplace : bool) : M DataArray :=
  print correcting_brightspot;;
  if negb (bool_decide (0 < sum spots)) then
    print no_bright_spots_returning_input;;
    mret varray
  else
    varr_ds ← (if negb inplace then copy varray else mret varray);
    let brt_list := brt_list spots spot_thres in
    sur_list ← lift_KeyError (mapM (surround varr_ds window brt_list) brt_list);
    for_ (zip (seq 0 (length brt_list)) (zip brt_list sur_list))
         (correct_point varr_ds (length brt_list));;
    print brightspot_correction_done;;
    rename_suffix varr_ds (name varray) "_DeSpotted".

(** Line 129: the axes of the video that the mask does not span. *)
Definition red_dim (varray : DataArray) (spots : xarray Z) : list string :=
  filter (λ d, d ∉ xdims spots) (dims varray).

(** *** Vocabulary of the statements on [correct_brightspot] *)

(** The pure reading of [arr.loc[key]] on a given buffer. *)
Definition loc_read (a : DataArray) (buf : ndarray Q) (key : HashableDict)
    : option (ndarray Q) :=
  ix ← loc_indexer (dims a) (coords a) key; Some (getitem ix buf).

(** The inputs [correct_brightspot] is written for: the video object is
    live and named, dimension names and coordinates are unique, and the
    mask's dimensions and coordinates are among the video's. *)
Definition wf_input (s : state) (V : DataArray) (M : xarray Z) : bool :=
  bool_decide (is_Some (heap s !! data V))
  && bool_decide (is_Some (name V))
  && bool_decide (NoDup (dims V))
  && bool_decide (length (coords V) = length (dims V))
  && forallb (λ cs : list Z, bool_decide (NoDup cs)) (coords V)
  && bool_decide (NoDup (xdims M))
  && bool_decide (length (xcoords M) = length (xdims M))
  && forallb (λ dc : string * list Z,
                match coords_of (dims V) (coords V) dc.1 with
                | Some vcs => bool_decide (dc.2 ⊆ vcs)
                | None => false
                end) (zip (xdims M) (xcoords M)).

(** The messages one loop iteration prints. *)
Definition point_msgs (n : nat) (it : nat * (HashableDict * list HashableDict)) : list msg :=
  processing_spot it.1 n ::
  (if bool_decide (0 < length it.2.2)%nat then [] else [unable_to_correct it.1 it.2.1]).

(** The number of free axes of an indexer. *)
Definition nfree (ix : indexer) : nat := length (filter (λ o, o = None) ix).

(** Every item of the key names a dimension of the array and one of its
    coordinates there. *)
Definition valid_key (dims : list string) (coords : list (list Z))
    (key : HashableDict) : Prop :=
  Forall (λ kv : string * Z,
            ∃ cs, coords_of dims coords kv.1 = Some cs ∧ kv.2 ∈ cs) key.

(** [c] lies in the window box of [p]: the same dimensions in the same
    order, every coordinate within [window] of [p]'s on its axis and among
    the video's coordinates on that axis. *)
Definition in_box (V : DataArray) (window : Z) (p c : HashableDict) : Prop :=
  Forall2 (λ pk ck : string * Z,
             ck.1 = pk.1 ∧ pk.2 - window ≤ ck.2 ≤ pk.2 + window ∧
             ∃ cs, coords_of (dims V) (coords V) pk.1 = Some cs ∧ ck.2 ∈ cs) p c.

(** What the loop has established once the points [done] are processed:
    cells outside the processed, correctable points hold their original
    value, and the cells of a processed, correctable point hold the mean of
    the original values of its surrounding coordinates, in the sample
    type of the video. *)
Definition corrected (V : DataArray) (window : Z) (brt done : list HashableDict)
    (buf0 buf : ndarray Q) : Prop :=
  (∀ idx,
     (∀ q sur ixq, q ∈ done → surround V window brt q = Some sur → sur ≠ [] →
        loc_indexer (dims V) (coords V) q = Some ixq → matches ixq idx = false) →
     buf idx = buf0 idx) ∧
  (∀ q sur ixq idx, q ∈ done → surround V window brt q = Some sur → sur ≠ [] →
     loc_indexer (dims V) (coords V) q = Some ixq → matches ixq idx = true →
     ∃ stack, mapM (loc_read V buf0) sur = Some stack ∧
              buf idx = astype (dtype V) (mean_sample stack (free ixq idx))).

(** The cell [idx] of the video lies at the coordinate tuple [key]. *)
Definition addresses (V : DataArray) (key : HashableDict) (idx : list nat) : Prop :=
  ∃ ix, loc_indexer (dims V) (coords V) key = Some ix ∧ matches ix idx = true.

(** [int(spots.loc[key])]: the mask entry that a coordinate tuple labels,
    read through the label index of every axis.  [None] when a label is
    not a coordinate of the mask or the tuple leaves an axis open. *)
Definition mask_value (spots : xarray Z) (key : HashableDict) : option Z :=
  match loc_indexer (xdims spots) (xcoords spots) key with
  | Some ix => xvalues spots <$> mapM (λ o : option nat, o) ix
  | None => None
  end.

(** ** The detectors *)

(** The Video Volume the detectors are written for: axes (frame, height,
    width) in this order, with the default integer coordinates 0..n-1 on
    each, so that labels and positions coincide. *)
Record Video : Type := MkVideo {
  vname : option string;
  nframe : nat;
  height : nat;
  width : nat;
  pix : nat → nat → nat → Q
}.

Definition Qlt_bool (x y : Q) : bool := negb (Qle_bool y x).

(** *** detect_brightspot_perframe *)

(** The order [np.sort] sorts the samples by. *)
#[global] Instance Qle_dec : RelDecision Qle :=
  λ x y, decide (Qnum x * QDen y ≤ Qnum y * QDen x).

(** [a.quantile(q, interpolation='lower')] over all the samples of [a],
    for [q] in [0, 1]: the sample at position floor(q * (n - 1)) of the sorted
    samples; [None] is the NaN of an empty sample. *)
Definition quantile_lower (q : Q) (xs : list Q) : option Q :=
  merge_sort Qle xs !! Z.to_nat (Qfloor (q * inject_Z (Z.of_nat (length xs) - 1))).

(** The samples of one frame, row-major. *)
Definition frame_samples (varray : Video) (f : nat) : list Q :=
  h ← seq 0 (height varray); (λ w, pix varray f h w) <$> seq 0 (width varray).

(** The task built for one frame: [f > f.quantile(thres, 'lower')].  numpy
    refuses a quantile outside [0, 1] with a ValueError; a comparison with
    NaN is false. *)
Definition perframe_task (varray : Video) (thres : Q) (f : nat)
    : option (nat → nat → bool) :=
  if Qle_bool 0 thres && Qle_bool thres 1 then
    Some (λ h w, match quantile_lower thres (frame_samples varray f) with
                 | Some qt => Qlt_bool qt (pix varray f h w)
                 | None => false
                 end)
  else None.

(** The mask over (frame, height, width); a flag reads as the integer 1.
    The tasks are independent and their results are concatenated in frame
    order; with no frame there is nothing to concatenate (ValueError). *)
Definition detect_brightspot_perframe (varray : Video) (thres : Q)
    : exn + xarray Z :=
  match mapM (perframe_task varray thres) (seq 0 (nframe varray))
        : option (list (nat → nat → bool)) with
  | None => inl ValueError
  | Some [] => inl ValueError
  | Some spots =>
      inr (XArray (vname varray) ["frame"; "height"; "width"]
             [seqZ 0 (Z.of_nat (nframe varray));
              seqZ 0 (Z.of_nat (height varray));
              seqZ 0 (Z.of_nat (width varray))]
             (λ idx : list nat,
                     match idx with
                     | [f; h; w] =>
                         match spots !! f with
                         | Some sp => if sp h w : bool then 1 else 0
                         | None => 0
                         end
                     | _ => 0
                     end))
  end.

(** *** detect_brightspot *)

(** A z-score [num / sqrt var] with [0 < var], kept exact as the pair
    [(num, var)]; [None] is NaN. *)
Abbreviation zval := (option (Q * Q)).

(** [sgnsq a] is [a * |a|]: strictly increasing, so that comparing
    [a / sqrt u] with [b / sqrt v] is comparing [sgnsq a * v] with
    [sgnsq b * u]. *)
Definition sgnsq (a : Q) : Q := if Qle_bool 0 a then a * a else - (a * a).

Definition ratio_lt (x y : Q * Q) : bool :=
  Qlt_bool (sgnsq x.1 * y.2) (sgnsq y.1 * x.2).

(** [x > y] on floats: false as soon as one side is NaN. *)
Definition zgt (x y : zval) : bool :=
  match x, y with
  | Some x, Some y => ratio_lt y x
  | _, _ => false
  end.

Definition zneg (x : zval) : zval := (λ r : Q * Q, ((- r.1)%Q, r.2)) <$> x.

(** [nanmin]: NaN entries are skipped; NaN when there is nothing else. *)
Definition znanmin (zs : list zval) : zval :=
  foldr (λ z acc : zval,
           match z, acc with
           | Some x, Some y => if ratio_lt y x then Some y else Some x
           | Some x, None => Some x
           | None, _ => acc
           end) None zs.

(** [scipy.stats.zscore(a)] with its defaults [axis=0, ddof=0] on a
    [w]-by-[w] tile: every column is normalised by its own mean and
    standard deviation; a column of zero variance gives 0/0 = NaN. *)
Definition column (pw : nat → nat → Q) (w : nat) (j : nat) : list Q :=
  (λ i, pw i j) <$> seq 0 w.

Definition variance (xs : list Q) : Q :=
  Qmean ((λ x, (x - Qmean xs) * (x - Qmean xs))%Q <$> xs).

Definition zscore (pw : nat → nat → Q) (w : nat) : nat → nat → zval :=
  λ i j,
    let xs := column pw w j in
    if Qeq_bool (variance xs) 0 then None
    else Some ((pw i j - Qmean xs)%Q, variance xs).

(** [x % y] on numpy integers: floored, and 0 for a zero divisor. *)
Definition np_mod (x y : Z) : Z := if decide (y = 0) then 0 else x `mod` y.

(** [arr.rolling(dim=window)] over an axis of length [n]: the label of each
    position, and the start and the size of the window that ends there. *)
Definition rolling (n window : nat) : list (nat * (nat * nat)) :=
  (λ i, (i, (i + 1 - window, i + 1 - (i + 1 - window))))%nat <$> seq 0 n.

(** Lines 61-64.  [not thres] holds for [None] and for a zero threshold. *)
Definition cur_thres (thres : option Q) (mean_z : nat → nat → zval) (w : nat) : zval :=
  match thres with
  | Some t =>
      if Qeq_bool t 0
      then zneg (znanmin (i ← seq 0 w; mean_z i <$> seq 0 w))
      else Some (t, 1%Q)
  | None => zneg (znanmin (i ← seq 0 w; mean_z i <$> seq 0 w))
  end.

(** The flags of the tile whose window ends at ([ih], [iw]). *)
Definition tile_flags (meanfm : nat → nat → Q) (thres : option Q) (w : nat)
    (ih iw : nat) : nat → nat → bool :=
  let pw := λ i j, meanfm (ih + 1 - w + i)%nat (iw + 1 - w + j)%nat in
  let mean_z := zscore pw w in
  λ i j, zgt (mean_z i j) (cur_thres thres mean_z w).

(** [spots.loc[{height: slice(h0, h1), width: slice(w0, w1)}] += flags]:
    label slices include both ends. *)
Definition iadd_loc (spots : ndarray Z) (h0 h1 w0 w1 : Z) (flags : nat → nat → bool)
    : ndarray Z :=
  λ idx,
    match idx with
    | [h; w] =>
        if bool_decide (h0 ≤ Z.of_nat h ≤ h1) && bool_decide (w0 ≤ Z.of_nat w ≤ w1)
        then spots idx + (if flags (Z.to_nat (Z.of_nat h - h0)) (Z.to_nat (Z.of_nat w - w0))
                          then 1 else 0)
        else spots idx
    | _ => spots idx
    end.

Definition meanfm (varray : Video) : nat → nat → Q :=
  λ h w, Qmean ((λ f, pix varray f h w) <$> seq 0 (nframe varray)).

(** Lines 60-68: one full tile, named by the labels at which its windows
    end. *)
Definition add_tile (varray : Video) (thres : option Q) (window : Z)
    (spots : ndarray Z) (t : nat * nat) : ndarray Z :=
  iadd_loc spots
    (Z.of_nat t.1 - window + 1) (Z.of_nat t.1)
    (Z.of_nat t.2 - window + 1) (Z.of_nat t.2)
    (tile_flags (meanfm varray) thres (Z.to_nat window) t.1 t.2).

(** Lines 57-59: the inner loop over the width windows of one height
    window of size [hsize]. *)
Definition scan_width (varray : Video) (thres : option Q) (window step : Z)
    (ih hsize : nat) (spots : ndarray Z) : ndarray Z :=
  foldl (λ (spots : ndarray Z) (r : nat * (nat * nat)),
           if decide (np_mod (Z.of_nat r.1) step = 0
                      ∧ hsize = Z.to_nat window ∧ r.2.2 = Z.to_nat window)
           then add_tile varray thres window spots (ih, r.1)
           else spots)
        spots (rolling (width varray) (Z.to_nat window)).

(** Lines 55-56: the outer loop over the height windows. *)
Definition scan_height (varray : Video) (thres : option Q) (window step : Z)
    (spots : ndarray Z) : ndarray Z :=
  foldl (λ (spots : ndarray Z) (r : nat * (nat * nat)),
           if decide (np_mod (Z.of_nat r.1) step = 0)
           then scan_width varray thres window step r.1 r.2.2 spots
           else spots)
        spots (rolling (height varray) (Z.to_nat window)).

(** [varray.sel(frame=0)] needs a frame labelled 0 (KeyError), and
    [rolling] a positive window (ValueError). *)
Definition detect_brightspot (varray : Video) (thres : option Q) (window step : Z)
    : exn + xarray Z :=
  if decide (nframe varray = 0%nat) then inl KeyError
  else if decide (window ≤ 0) then inl ValueError
  else
    inr (XArray (vname varray) ["height"; "width"]
           [seqZ 0 (Z.of_nat (height varray)); seqZ 0 (Z.of_nat (width varray))]
           (scan_height varray thres window step (λ _, 0))).

(** *** Vocabulary of the statements on the detectors *)

(** The tiles [detect_brightspot] processes, in processing order: the
    windows that end at a height label and a width label which are both
    multiples of [step] and which are a full [w] rows and [w] columns. *)
Definition full_tiles (varray : Video) (w : nat) (step : Z) : list (nat * nat) :=
  ih ← seq 0 (height varray);
  iw ← seq 0 (width varray);
  if decide (np_mod (Z.of_nat ih) step = 0 ∧ np_mod (Z.of_nat iw) step = 0
             ∧ (w ≤ ih + 1)%nat ∧ (w ≤ iw + 1)%nat)
  then [(ih, iw)] else [].

(** The pixel ([h], [wd]) lies in the tile [t]. *)
Definition covers (w : nat) (t : nat * nat) (h wd : nat) : bool :=
  bool_decide (t.1 + 1 - w ≤ h ≤ t.1)%nat && bool_decide (t.2 + 1 - w ≤ wd ≤ t.2)%nat.

(** The pixel lies in the tile and its z-score within the tile exceeds the
    tile's threshold. *)
Definition flagged_in (varray : Video) (thres : option Q) (w : nat)
    (t : nat * nat) (h wd : nat) : bool :=
  covers w t h wd &&
  tile_flags (meanfm varray) thres w t.1 t.2
    (h - (t.1 + 1 - w))%nat (wd - (t.2 + 1 - w))%nat.

(** *** The z-scores as real numbers

    The statements on [detect_brightspot] speak of z-scores and thresholds
    as real numbers, with the square root of the reals. *)










(** [v] is the quantile of [xs] at [q] under the lower rule: with the
    samples sorted, [v] is the one at position floor(q (n - 1)), which is no
    larger than the one at position ceil(q (n - 1)), the other sample that
    brackets the quantile. *)
Definition is_lower_quantile (q : Q) (xs : list Q) (v : Q) : Prop :=
  let pos := (q * inject_Z (Z.of_nat (length xs) - 1))%Q in
  ∃ l, l ≡ₚ xs ∧ StronglySorted Qle l ∧
       l !! Z.to_nat (Qfloor pos) = Some v ∧
       ∃ u, l !! Z.to_nat (Qceiling pos) = Some u ∧ (v <= u)%Q.

(** *** Vocabulary of the further statements on [correct_brightspot] *)

(** The same video object without a name: [DataArray(data)] with
    [name=None]. *)
Definition unnamed (V : DataArray) : DataArray :=
  MkDataArray None (dims V) (coords V) (dtype V) (data V).

(** A Video Volume as the object handed to [correct_brightspot]: its
    buffer, and a handle on it with a sample type at a heap address. *)
Definition video_buffer (varray : Video) : ndarray Q :=
  λ idx, match idx with
         | [f; h; w] => pix varray f h w
         | _ => 0%Q
         end.

Definition video_object (varray : Video) (t : sample_type) (addr : nat) : DataArray :=
  MkDataArray (vname varray) ["frame"; "height"; "width"]
    [seqZ 0 (Z.of_nat (nframe varray));
     seqZ 0 (Z.of_nat (height varray));
     seqZ 0 (Z.of_nat (width varray))] t addr.


(** [spots.isel(frame=f).sum()]: the number of flags of one frame of a
    mask of zeros and ones. *)
Definition count_in_frame (spots : xarray Z) (f : nat) : Z :=
  foldr Z.add 0
    ((λ idx, xvalues spots (f :: idx)) <$> indices (tail (shape (xcoords spots)))).

(** ** corr_coeff_pixelwise *)

(** [np.cov(x, y)] with its defaults: the products of the deviations from
    the means, summed and divided by [n - 1]. *)
Definition cov (x y : list Q) : Q :=
  (Qsum (zip_with (λ a b, (a - Qmean x) * (b - Qmean y)) x y)
   / inject_Z (Z.of_nat (length x) - 1))%Q.

(** [np.corrcoef(x, y)[0, 1]]: the covariance over the two standard
    deviations, the ratio [cov x y / sqrt (cov x x * cov y y)] kept as a
    pair.  It is NaN with fewer than two observations (the divisor
    [n - 1] is not positive) and when an input is constant (0/0). *)
Definition corrcoef (x y : list Q) : zval :=
  if bool_decide (length x ≤ 1)%nat then None
  else if Qeq_bool (cov x x) 0 || Qeq_bool (cov y y) 0 then None
  else Some (cov x y, (cov x x * cov y y)%Q).

(** The first [n] samples of a pixel along the frame axis. *)
Definition trace (varray : Video) (n h w : nat) : list Q :=
  (λ f, pix varray f h w) <$> seq 0 n.

(** Lines 21-32.  With an odd number of frames the last one is dropped;
    every pixel's trace is split in two halves, which are correlated.
    [np.apply_along_axis] refuses an array with an empty iteration
    axis. *)
Definition corr_coeff_pixelwise (varray : Video) : exn + xarray zval :=
  let n := if decide (Z.of_nat (nframe varray) `mod` 2 > 0)
           then (nframe varray - 1)%nat else nframe varray in
  if decide (height varray = 0%nat ∨ width varray = 0%nat) then inl ValueError
  else
    inr (XArray (vname varray) ["height"; "width"]
           [seqZ 0 (Z.of_nat (height varray)); seqZ 0 (Z.of_nat (width varray))]
           (λ idx : list nat,
              match idx with
              | [h; w] =>
                  let t := trace varray n h w in
                  corrcoef (take (n / 2) t) (drop (n / 2) t)
              | _ => None
              end)).

(** ** HashableDict *)

(** Lines 16-18: [hash(frozenset(self.items()))], for any hash function
    [hash] on frozensets. *)
Definition HashableDict_hash (hash : gset (string * Z) → Z) (d : HashableDict) : Z :=
  hash (list_to_set d).

(** ** Example inputs *)

(** A video of two frames of 3 by 3 pixels, the pixel at (f, h, w) valued
    100 f + 10 h + w, alone on the heap. *)
Definition ex_frame : ndarray Q := λ idx,
  match idx with
  | [f; h; w] => inject_Z (Z.of_nat (f * 100 + h * 10 + w))
  | _ => 0%Q
  end.

Definition ex_video : DataArray :=
  MkDataArray (Some "v") ["frame"; "height"; "width"] [[0; 1]; [0; 1; 2]; [0; 1; 2]]
    uint8 0.

Definition ex_state : state := State [ex_frame] [].

(** Masks over (height, width): two flagged points in the first row; a
    flagged 2 by 2 block, whose corner (0, 0) has only flagged points around
    it; no flagged point. *)
Definition ex_mask : xarray Z :=
  XArray None ["height"; "width"] [[0; 1; 2]; [0; 1; 2]]
    (λ idx, match idx with [0; 0]%nat => 11 | [0; 1]%nat => 12 | _ => 0 end).

Definition ex_mask_iso : xarray Z :=
  XArray None ["height"; "width"] [[0; 1; 2]; [0; 1; 2]]
    (λ idx, match idx with
            | [0; 0]%nat | [0; 1]%nat | [1; 0]%nat | [1; 1]%nat => 11
            | _ => 0
            end).

Definition ex_mask_zero : xarray Z :=
  XArray None ["height"; "width"] [[0; 1; 2]; [0; 1; 2]] (λ _, 0).

(** A video of two frames of 2 by 2 pixels in which the three pixels around
    (0, 0) are valued 1, 2 and 3 in every frame, and the mask that flags
    (0, 0). *)
Definition ex123_frame : ndarray Q := λ idx,
  match idx with
  | [_; 0; 0]%nat => 200
  | [_; 0; 1]%nat => 1
  | [_; 1; 0]%nat => 2
  | [_; 1; 1]%nat => 3
  | _ => 0
  end%Q.

Definition ex123_video : DataArray :=
  MkDataArray (Some "v") ["frame"; "height"; "width"] [[0; 1]; [0; 1]; [0; 1]] uint8 0.

Definition ex123_mask : xarray Z :=
  XArray None ["height"; "width"] [[0; 1]; [0; 1]]
    (λ idx, match idx with [0; 0]%nat => 11 | _ => 0 end).

Definition ex123_state : state := State [ex123_frame] [].

(** The same with 1, 2 and 4 around (0, 0): their mean is 7/3. *)
Definition ex124_frame : ndarray Q := λ idx,
  match idx with
  | [_; 0; 0]%nat => 200
  | [_; 0; 1]%nat => 1
  | [_; 1; 0]%nat => 2
  | [_; 1; 1]%nat => 4
  | _ => 0
  end%Q.

Definition ex124_state : state := State [ex124_frame] [].

(** One frame with the samples 1, 2, 3, 4. *)
Definition ex_v1234 : Video :=
  MkVideo (Some "v") 1 2 2 (λ f h w, inject_Z (Z.of_nat (1 + 2 * h + w))).

(** One frame with the rows (0, 0, 0), (1, 1, 5), (2, 9, 2). *)
Definition ex_tile : Video :=
  MkVideo (Some "v") 1 3 3
    (λ f h w, match h, w with
              | 2%nat, 1%nat => 9%Q
              | 1%nat, 2%nat => 5%Q
              | _, _ => inject_Z (Z.of_nat h)
              end).

(** Two frames of 3 by 3 pixels, all valued 5. *)
Definition ex_const : Video := MkVideo (Some "v") 2 3 3 (λ _ _ _, 5%Q).

(** The entries of a returned mask at the given indices. *)
Definition values_at (r : exn + xarray Z) (ixs : list (list nat)) : option (list Z) :=
  match r with inr m => Some (xvalues m <$> ixs) | inl _ => None end.

(** A mask over (height, depth): the videos above have no depth. *)
Definition ex_mask_depth : xarray Z :=
  XArray None ["height"; "depth"] [[0; 1]; [0; 1]]
    (λ idx, match idx with [0; 0]%nat => 11 | _ => 0 end).

(** Two frames of 2 by 2 pixels, the pixel at (f, h, w) valued
    4 f + 2 h + w, and the same two frames in the other order. *)
Definition ex_two : Video :=
  MkVideo (Some "v") 2 2 2 (λ f h w, inject_Z (Z.of_nat (4 * f + 2 * h + w))).



(** Four frames of one pixel valued 5, 5, 1, 2. *)
Definition ex_half : Video :=
  MkVideo (Some "v") 4 1 1
    (λ f h w, match f with 0%nat | 1%nat => 5%Q | 2%nat => 1%Q | _ => 2%Q end).

(** Four frames of 1 by 2 pixels: the pixel (0, 0) runs through
    1, 2, 1, 2 and the pixel (0, 1) through 1, 2, 2, 1. *)
Definition ex_corr : Video :=
  MkVideo (Some "v") 4 1 2
    (λ f h w, match w, f with
              | 0%nat, 0%nat | 0%nat, 2%nat => 1%Q
              | 0%nat, _ => 2%Q
              | _, 0%nat | _, 3%nat => 1%Q
              | _, _ => 2%Q
              end).

(** Five frames of one pixel valued 0, 1, 2, 3 and then 4, or 9. *)
Definition ex_odd : Video :=
  MkVideo (Some "v") 5 1 1 (λ f h w, inject_Z (Z.of_nat f)).

Definition ex_odd_other : Video :=
  MkVideo (Some "v") 5 1 1
    (λ f h w, if decide (f = 4%nat) then 9%Q else inject_Z (Z.of_nat f)).

(** The entries of a coefficient image at the given indices. *)
Definition coefficients_at (r : exn + xarray zval) (ixs : list (list nat))
    : option (list zval) :=
  match r with inr m => Some (xvalues m <$> ixs) | inl _ => None end.

(** [ex_tile] in another unit: every sample doubled and raised by 3. *)
Definition ex_tile_scaled : Video :=
  MkVideo (Some "v") 1 3 3 (λ f h w, (2 * pix ex_tile f h w + 3)%Q).

(** [ex_v1234] under the increasing map x -> 2 x + 3. *)
Definition ex_v1234_scaled : Video :=
  MkVideo (Some "v") 1 2 2 (λ f h w, (2 * pix ex_v1234 f h w + 3)%Q).

(** [ex_corr] in another unit, with a negative gain: x -> 3 - 2 x. *)
Definition ex_corr_scaled : Video :=
  MkVideo (Some "v") 4 1 2 (λ f h w, ((- 2) * pix ex_corr f h w + 3)%Q).

(** A mask whose coordinates differ from the positions: the entry at
    position (1, 2) is labelled (20, 9). *)
Definition ex_mask_labels : xarray Z :=
  XArray None ["height"; "width"] [[10; 20]; [5; 7; 9]]
    (λ idx, match idx with [1; 2]%nat => 11 | [0; 1]%nat => 10 | _ => 0 end).


(** * Verification *)

(** ** Facts about the embedding *)

Section monad_facts.
Context {A B : Type}.

Lemma bind_inr (m : M A) (f : A → M B) s s' x :
  m s = (s', inr x) → (m ≫= f) s = f x s'.
Proof. intros H. unfold mbind, M_bind. by rewrite H. Qed.

End monad_facts.

Lemma get_loc_Some label index i :
  get_loc label index = Some i → index !! i = Some label.
Proof.
  revert i. induction index as [|x index IH]; intros i; simpl; [done|].
  case_decide as Hx; [intros [= <-]; by subst|].
  destruct (get_loc label index) as [j|] eqn:Hj; [|done].
  intros [= <-]. by apply IH.
Qed.

Lemma get_loc_is_Some label index :
  label ∈ index → is_Some (get_loc label index).
Proof.
  induction index as [|x index IH]; [by intros ?%elem_of_nil|].
  intros [->|Hin]%elem_of_cons; simpl.
  - rewrite decide_True; [eauto|done].
  - case_decide; [eauto|]. destruct (IH Hin) as [j ->]. simpl. eauto.
Qed.

Lemma get_loc_inj l1 l2 index i :
  get_loc l1 index = Some i → get_loc l2 index = Some i → l1 = l2.
Proof. intros H1%get_loc_Some H2%get_loc_Some. congruence. Qed.

Lemma forallb_elem_of {A} (f : A → bool) (l : list A) :
  forallb f l = true ↔ ∀ x, x ∈ l → f x = true.
Proof.
  rewrite forallb_forall. split; intros H x Hx; apply H; by apply list_elem_of_In.
Qed.

(** *** Dicts *)

Lemma dict_get_Some_elem k d v : dict_get k d = Some v → (k, v) ∈ d.
Proof.
  induction d as [|[k' v'] d IH]; simpl; [done|].
  case_decide as Hk; [intros [= ->]; subst; left|intros ?; right; auto].
Qed.

Lemma dict_get_None k d : dict_get k d = None ↔ k ∉ d.*1.
Proof.
  induction d as [|[k' v'] d IH]; simpl.
  - split; [intros _; apply not_elem_of_nil|done].
  - case_decide as Hk; subst.
    + split; [done|]. intros []. left.
    + rewrite IH, not_elem_of_cons. split; [by intros ?|by intros [_ ?]].
Qed.

Lemma dict_get_is_Some k d : k ∈ d.*1 → is_Some (dict_get k d).
Proof.
  intros Hk. destruct (dict_get k d) eqn:E; [eauto|].
  by apply dict_get_None in E.
Qed.

Lemma dict_ext (p q : HashableDict) :
  p.*1 = q.*1 → NoDup (p.*1) →
  (∀ k, k ∈ p.*1 → dict_get k p = dict_get k q) → p = q.
Proof.
  revert q. induction p as [|[k v] p IH]; intros [|[k' v'] q]; simpl; try done.
  intros [= <- Hpq] [Hk Hnd]%NoDup_cons Hget.
  assert (v = v') as <-.
  { specialize (Hget k (ltac:(left))). simpl in Hget.
    rewrite !decide_True in Hget by done. congruence. }
  f_equal. apply IH; [done..|].
  intros k0 Hk0. specialize (Hget k0 (ltac:(by right))). simpl in Hget.
  rewrite !decide_False in Hget; [done|intros ->; done..].
Qed.

(** *** Indexers *)

Lemma matches_fill ix ridx : matches ix (fill ix ridx) = true.
Proof.
  revert ridx. induction ix as [|[i|] ix IH]; intros ridx; simpl; [done|..].
  - rewrite bool_decide_eq_true_2 by done. apply IH.
  - destruct ridx; simpl; apply IH.
Qed.

Lemma free_fill ix ridx : length ridx = nfree ix → free ix (fill ix ridx) = ridx.
Proof.
  unfold nfree. revert ridx. induction ix as [|[i|] ix IH]; intros ridx.
  - by destruct ridx.
  - rewrite filter_cons_False by done. apply IH.
  - rewrite filter_cons_True by done. destruct ridx as [|j ridx]; simpl; [done|].
    intros [= Hl]. f_equal. by apply IH.
Qed.

Lemma matches_lookup ix idx j i :
  matches ix idx = true → ix !! j = Some (Some i) → idx !! j = Some i.
Proof.
  revert idx j. induction ix as [|o ix IH]; intros [|k idx] j; simpl; try done.
  - by destruct o.
  - destruct o as [i'|].
    + intros [Hi Hm]%andb_prop. apply bool_decide_eq_true in Hi. subst.
      destruct j; simpl; [by intros [= ->]|]. by apply IH.
    + intros Hm. destruct j; simpl; [done|]. by apply IH.
Qed.

Lemma coords_of_Some_lookup dims coords d cs :
  coords_of dims coords d = Some cs →
  ∃ j, dims !! j = Some d ∧ coords !! j = Some cs.
Proof.
  revert coords. induction dims as [|d' dims IH]; intros [|c coords]; simpl; try done.
  case_decide as Hd.
  - intros [= ->]. exists 0%nat. by subst.
  - intros (j & ? & ?)%IH. by exists (S j).
Qed.

Lemma coords_of_lookup dims coords d cs j :
  NoDup dims → dims !! j = Some d → coords !! j = Some cs →
  coords_of dims coords d = Some cs.
Proof.
  revert coords j. induction dims as [|d' dims IH]; intros [|c coords] j; simpl; try done.
  intros [Hd Hnd]%NoDup_cons. destruct j as [|j]; simpl.
  - intros [= ->] [= ->]. by rewrite decide_True.
  - intros Hj Hc. rewrite decide_False; [by eapply IH|].
    intros ->. apply Hd. by eapply list_elem_of_lookup_2.
Qed.

Lemma loc_indexer_is_Some dims coords key :
  NoDup dims → valid_key dims coords key →
  is_Some (loc_indexer dims coords key).
Proof.
  intros Hnd Hkey. unfold loc_indexer.
  assert (forallb (λ kv : string * Z, bool_decide (kv.1 ∈ dims)) key = true) as ->.
  { apply forallb_elem_of. intros kv Hin.
    apply bool_decide_eq_true.
    eapply Forall_forall in Hkey as (cs & (j & Hj & _)%coords_of_Some_lookup & _); [|done].
    by eapply list_elem_of_lookup_2. }
  apply mapM_is_Some, Forall_forall. intros [d cs] Hin. simpl.
  destruct (dict_get d key) as [l|] eqn:Hl; [|done].
  apply dict_get_Some_elem in Hl.
  eapply Forall_forall in Hkey as (cs' & Hcs' & Hl'); [|done]. simpl in *.
  apply list_elem_of_lookup in Hin as (j & Hj).
  apply lookup_zip_with_Some in Hj as (d0 & c0 & [= <- <-] & Hd & Hc).
  rewrite (coords_of_lookup _ _ _ _ _ Hnd Hd Hc) in Hcs'. injection Hcs' as <-.
  destruct (get_loc_is_Some _ _ Hl') as [i ->]. simpl. eauto.
Qed.

Lemma loc_indexer_Some dims coords key ix :
  loc_indexer dims coords key = Some ix →
  (∀ kv, kv ∈ key → kv.1 ∈ dims) ∧
  Forall2 (λ (dc : string * list Z) o,
             match dict_get dc.1 key with
             | Some label => Some <$> get_loc label dc.2
             | None => Some None
             end = Some o) (zip dims coords) ix.
Proof.
  unfold loc_indexer. destruct (forallb _ key) eqn:Hall; [|done].
  intros Hix%mapM_Some. split; [|done].
  intros kv Hin. rewrite forallb_elem_of in Hall.
  by eapply bool_decide_eq_true_1, (Hall kv).
Qed.

(** Two keys over the same dimensions that address a common cell are the
    same key. *)
Lemma loc_indexer_disjoint dims coords p q ixp ixq idx :
  length coords = length dims →
  p.*1 = q.*1 → NoDup (p.*1) →
  loc_indexer dims coords p = Some ixp →
  loc_indexer dims coords q = Some ixq →
  matches ixp idx = true → matches ixq idx = true →
  p = q.
Proof.
  intros Hlen Hkeys Hnd [Hpd Hp]%loc_indexer_Some [Hqd Hq]%loc_indexer_Some Hmp Hmq.
  apply dict_ext; [done..|]. intros k Hk.
  destruct (dict_get_is_Some k p Hk) as [lp Hlp].
  destruct (dict_get_is_Some k q) as [lq Hlq]; [by rewrite <-Hkeys|].
  rewrite Hlp, Hlq. f_equal.
  assert (k ∈ dims) as (j & Hj)%list_elem_of_lookup.
  { apply dict_get_Some_elem in Hlp. by apply (Hpd (k, lp)). }
  destruct (lookup_lt_is_Some_2 coords j) as [cs Hcs].
  { rewrite Hlen. by eapply lookup_lt_Some. }
  assert (zip dims coords !! j = Some (k, cs)) as Hz.
  { apply lookup_zip_with_Some. eauto. }
  destruct (Forall2_lookup_l _ _ _ _ _ Hp Hz) as (op & Hop & Hfp).
  destruct (Forall2_lookup_l _ _ _ _ _ Hq Hz) as (oq & Hoq & Hfq).
  simpl in *. rewrite Hlp in Hfp. rewrite Hlq in Hfq.
  destruct (get_loc lp cs) as [ip|] eqn:Hip; [|done].
  destruct (get_loc lq cs) as [iq|] eqn:Hiq; [|done].
  simpl in *. injection Hfp as <-. injection Hfq as <-.
  pose proof (matches_lookup _ _ _ _ Hmp Hop) as H1.
  pose proof (matches_lookup _ _ _ _ Hmq Hoq) as H2.
  assert (ip = iq) as -> by congruence.
  by eapply get_loc_inj.
Qed.

(** The free axes of an indexer are the dimensions the key does not name. *)
Lemma loc_indexer_nfree dims coords key ix :
  length coords = length dims →
  loc_indexer dims coords key = Some ix →
  nfree ix = length (filter (λ d, d ∉ key.*1) dims).
Proof.
  intros Hlen [_ Hix]%loc_indexer_Some. unfold nfree.
  revert coords ix Hlen Hix. induction dims as [|d dims IH]; intros [|c coords] ix; simpl; try done.
  - by intros _ ->%Forall2_nil_inv_l.
  - intros [= Hlen] (o & ix' & Ho & Hix & ->)%Forall2_cons_inv_l. simpl in Ho.
    destruct (dict_get d key) as [l|] eqn:Hl.
    + destruct (get_loc l c); [|done]. injection Ho as <-.
      rewrite filter_cons_False by done.
      rewrite filter_cons_False; [by eapply IH|].
      intros Hn. apply dict_get_None in Hn. congruence.
    + injection Ho as <-. rewrite filter_cons_True by done.
      rewrite filter_cons_True by (by apply dict_get_None). simpl. f_equal. by eapply IH.
Qed.

(** *** Index enumeration and products *)

Lemma elem_of_indices idx shp :
  idx ∈ indices shp ↔ Forall2 (λ i n : nat, (i < n)%nat) idx shp.
Proof.
  revert idx. induction shp as [|n shp IH]; intros idx; simpl.
  - rewrite list_elem_of_singleton. split; [intros ->; constructor|by intros ->%Forall2_nil_inv_r].
  - rewrite list_elem_of_bind. split.
    + intros (i & (idx' & -> & Hidx)%list_elem_of_fmap & Hi%elem_of_seq).
      constructor; [lia|by apply IH].
    + intros (i & idx' & Hi & Hidx & ->)%Forall2_cons_inv_r.
      exists i. split; [|apply elem_of_seq; lia].
      apply list_elem_of_fmap. exists idx'. split; [done|by apply IH].
Qed.

Lemma elem_of_product {A} (cord : list A) (ls : list (list A)) :
  cord ∈ product ls ↔ Forall2 (λ x l, x ∈ l) cord ls.
Proof.
  revert cord. induction ls as [|l ls IH]; intros cord; simpl.
  - rewrite list_elem_of_singleton. split; [intros ->; constructor|by intros ->%Forall2_nil_inv_r].
  - rewrite list_elem_of_bind. split.
    + intros (x & (cord' & -> & Hc)%list_elem_of_fmap & Hx).
      constructor; [done|by apply IH].
    + intros (x & cord' & Hx & Hc & ->)%Forall2_cons_inv_r.
      exists x. split; [|done].
      apply list_elem_of_fmap. exists cord'. split; [done|by apply IH].
Qed.

Lemma elem_of_range a b x : x ∈ range a b ↔ a ≤ x < b.
Proof. unfold range. rewrite elem_of_seqZ. lia. Qed.

(** *** The flagged points *)

Lemma elem_of_brt_list spots spot_thres p :
  p ∈ brt_list spots spot_thres ↔
  ∃ idx, Forall2 (λ i n : nat, (i < n)%nat) idx (shape (xcoords spots)) ∧
         effective_thres spots spot_thres < xvalues spots idx ∧
         p = cord_at spots idx.
Proof.
  unfold brt_list, nonzero. rewrite list_elem_of_fmap. split.
  - intros (idx & -> & [Hv Hidx]%list_elem_of_filter). exists idx.
    apply bool_decide_eq_true in Hv. by rewrite <-elem_of_indices.
  - intros (idx & Hidx & Hv & ->). exists idx. split; [done|].
    apply list_elem_of_filter. split; [by apply bool_decide_eq_true|].
    by apply elem_of_indices.
Qed.

Lemma cord_at_keys spots idx :
  length (xcoords spots) = length (xdims spots) →
  Forall2 (λ i n : nat, (i < n)%nat) idx (shape (xcoords spots)) →
  (cord_at spots idx).*1 = xdims spots.
Proof.
  intros Hlen Hidx%Forall2_length. unfold shape in Hidx. rewrite length_fmap in Hidx.
  unfold cord_at. apply fst_zip. rewrite length_zip_with. lia.
Qed.

Lemma brt_list_keys spots spot_thres p :
  length (xcoords spots) = length (xdims spots) →
  p ∈ brt_list spots spot_thres → p.*1 = xdims spots.
Proof.
  intros Hlen (idx & Hidx & _ & ->)%elem_of_brt_list. by apply cord_at_keys.
Qed.

(** *** The flagged points, read by their labels *)

Lemma get_loc_lookup label index i :
  NoDup index → index !! i = Some label → get_loc label index = Some i.
Proof.
  revert i. induction index as [|x index IH]; intros i; [done|].
  intros [Hx Hnd]%NoDup_cons. destruct i as [|i]; simpl.
  - intros [= ->]. by rewrite decide_True.
  - intros Hi. rewrite decide_False.
    + by rewrite (IH i Hnd Hi).
    + intros ->. apply Hx. by eapply list_elem_of_lookup_2.
Qed.

Lemma dict_get_zip (ks : list string) (vs : list Z) j k v :
  NoDup ks → ks !! j = Some k → vs !! j = Some v → dict_get k (zip ks vs) = Some v.
Proof.
  revert vs j. induction ks as [|k' ks IH]; intros [|v' vs] j; simpl; try done.
  intros [Hk Hnd]%NoDup_cons. destruct j as [|j]; simpl.
  - intros [= ->] [= ->]. by rewrite decide_True.
  - intros Hj Hv. rewrite decide_False; [by eapply IH|].
    intros ->. apply Hk. by eapply list_elem_of_lookup_2.
Qed.

Lemma cord_at_lookup spots idx j d cs i :
  NoDup (xdims spots) →
  xdims spots !! j = Some d → xcoords spots !! j = Some cs → idx !! j = Some i →
  dict_get d (cord_at spots idx) = Some (nth i cs 0).
Proof.
  intros Hnd Hd Hcs Hi. unfold cord_at. eapply dict_get_zip; [done..|].
  apply lookup_zip_with_Some. eauto.
Qed.

Lemma loc_indexer_cord_at spots idx :
  length (xcoords spots) = length (xdims spots) → NoDup (xdims spots) →
  Forall (λ cs, NoDup cs) (xcoords spots) →
  Forall2 (λ i n : nat, (i < n)%nat) idx (shape (xcoords spots)) →
  loc_indexer (xdims spots) (xcoords spots) (cord_at spots idx) = Some (Some <$> idx).
Proof.
  intros Hlen Hnd Hcnd Hidx. unfold loc_indexer.
  assert (forallb (λ kv : string * Z, bool_decide (kv.1 ∈ xdims spots))
            (cord_at spots idx) = true) as ->.
  { apply forallb_elem_of. intros [d l] Hin. apply bool_decide_eq_true.
    unfold cord_at in Hin. by apply elem_of_zip_l in Hin. }
  apply mapM_Some, Forall2_same_length_lookup_2.
  - apply Forall2_length in Hidx. unfold shape in Hidx.
    rewrite length_fmap in Hidx. rewrite length_zip_with, length_fmap. lia.
  - intros j [d cs] o (d0 & c0 & [= <- <-] & Hd & Hc)%lookup_zip_with_Some Ho.
    apply list_lookup_fmap_Some in Ho as (i & -> & Hi). simpl.
    rewrite (cord_at_lookup _ _ _ _ _ _ Hnd Hd Hc Hi).
    assert (i < length cs)%nat as Hlt.
    { eapply (Forall2_lookup_lr _ _ _ j i (length cs)) in Hidx; [done..|].
      unfold shape. by rewrite list_lookup_fmap, Hc. }
    destruct (lookup_lt_is_Some_2 cs i Hlt) as [l Hl].
    rewrite (nth_lookup_Some _ _ _ _ Hl).
    rewrite (get_loc_lookup l cs i); [done| |done].
    eapply Forall_lookup_1 in Hcnd; [exact Hcnd|done].
Qed.

Lemma mapM_fmap_Some {A} (l : list A) : mapM (λ o : option A, o) (Some <$> l) = Some l.
Proof. apply mapM_Some, Forall2_fmap_l, Forall_Forall2_diag, Forall_true. done. Qed.

Lemma mask_value_cord_at spots idx :
  length (xcoords spots) = length (xdims spots) → NoDup (xdims spots) →
  Forall (λ cs, NoDup cs) (xcoords spots) →
  Forall2 (λ i n : nat, (i < n)%nat) idx (shape (xcoords spots)) →
  mask_value spots (cord_at spots idx) = Some (xvalues spots idx).
Proof.
  intros Hlen Hnd Hcnd Hidx. unfold mask_value.
  rewrite loc_indexer_cord_at by done. by rewrite mapM_fmap_Some.
Qed.

Lemma mask_value_Some spots p v :
  length (xcoords spots) = length (xdims spots) → NoDup (xdims spots) →
  p.*1 = xdims spots → mask_value spots p = Some v →
  ∃ idx, Forall2 (λ i n : nat, (i < n)%nat) idx (shape (xcoords spots)) ∧
         v = xvalues spots idx ∧ p = cord_at spots idx.
Proof.
  intros Hlen Hnd Hkeys. unfold mask_value.
  destruct (loc_indexer _ _ p) as [ix|] eqn:Hix; [|done].
  destruct (mapM _ ix) as [idx|] eqn:Hidx; [|done]. intros [= <-].
  apply loc_indexer_Some in Hix as [_ Hix]. apply mapM_Some in Hidx.
  assert (length idx = length (xcoords spots)) as Hlidx.
  { apply Forall2_length in Hix, Hidx. rewrite length_zip_with in Hix. lia. }
  assert (∀ j d cs i, xdims spots !! j = Some d → xcoords spots !! j = Some cs →
            idx !! j = Some i → ∃ l, dict_get d p = Some l ∧ cs !! i = Some l) as Hat.
  { intros j d cs i Hd Hcs Hi.
    assert (zip (xdims spots) (xcoords spots) !! j = Some (d, cs)) as Hz
      by (apply lookup_zip_with_Some; eauto).
    destruct (Forall2_lookup_l _ _ _ _ _ Hix Hz) as (o & Ho & Hf).
    destruct (Forall2_lookup_l _ _ _ _ _ Hidx Ho) as (i' & Hi' & ->).
    assert (i' = i) as -> by congruence. simpl in Hf.
    destruct (dict_get d p) as [l|]; [|done].
    destruct (get_loc l cs) as [i0|] eqn:Hg; [|done]. injection Hf as ->.
    exists l. split; [done|]. by apply get_loc_Some. }
  exists idx. split; [|split; [done|]].
  - apply Forall2_same_length_lookup_2; [unfold shape; by rewrite length_fmap|].
    intros j i n Hi Hn. unfold shape in Hn.
    apply list_lookup_fmap_Some in Hn as (cs & -> & Hcs).
    destruct (lookup_lt_is_Some_2 (xdims spots) j) as [d Hd].
    { rewrite <-Hlen. by eapply lookup_lt_Some. }
    destruct (Hat j d cs i Hd Hcs Hi) as (l & _ & Hl). by eapply lookup_lt_Some.
  - assert ((cord_at spots idx).*1 = xdims spots) as Hck.
    { unfold cord_at. apply fst_zip. rewrite length_zip_with. lia. }
    apply dict_ext; [congruence|by rewrite Hkeys|].
    intros k Hk. rewrite Hkeys in Hk.
    apply list_elem_of_lookup in Hk as (j & Hd).
    destruct (lookup_lt_is_Some_2 (xcoords spots) j) as [cs Hcs].
    { rewrite Hlen. by eapply lookup_lt_Some. }
    destruct (lookup_lt_is_Some_2 idx j) as [i Hi].
    { rewrite Hlidx. by eapply lookup_lt_Some. }
    destruct (Hat j k cs i Hd Hcs Hi) as (l & -> & Hl).
    rewrite (cord_at_lookup _ _ _ _ _ _ Hnd Hd Hcs Hi).
    by rewrite (nth_lookup_Some _ _ _ _ Hl).
Qed.

Lemma cord_at_inj spots idx idx' :
  length (xcoords spots) = length (xdims spots) → NoDup (xdims spots) →
  Forall (λ cs, NoDup cs) (xcoords spots) →
  Forall2 (λ i n : nat, (i < n)%nat) idx (shape (xcoords spots)) →
  Forall2 (λ i n : nat, (i < n)%nat) idx' (shape (xcoords spots)) →
  cord_at spots idx = cord_at spots idx' → idx = idx'.
Proof.
  intros Hlen Hnd Hcnd Hidx Hidx' Heq.
  pose proof (loc_indexer_cord_at spots idx Hlen Hnd Hcnd Hidx) as H1.
  pose proof (loc_indexer_cord_at spots idx' Hlen Hnd Hcnd Hidx') as H2.
  rewrite Heq, H2 in H1. injection H1 as H1.
  by apply (inj (fmap Some)) in H1.
Qed.

Lemma NoDup_indices shp : NoDup (indices shp).
Proof.
  induction shp as [|n shp IH]; [apply NoDup_singleton|].
  cbn [indices]. apply NoDup_bind.
  - intros i j idx _ _ (x & -> & _)%list_elem_of_fmap (y & [= ->] & _)%list_elem_of_fmap.
    done.
  - intros i _. apply NoDup_fmap_2; [|done]. by intros ?? [=].
  - apply NoDup_seq.
Qed.

Lemma NoDup_brt_list spots spot_thres :
  length (xcoords spots) = length (xdims spots) → NoDup (xdims spots) →
  Forall (λ cs, NoDup cs) (xcoords spots) →
  NoDup (brt_list spots spot_thres).
Proof.
  intros Hlen Hnd Hcnd. unfold brt_list, nonzero.
  apply NoDup_fmap_2_strong; [|apply NoDup_filter, NoDup_indices].
  intros idx idx' [_ Hi%elem_of_indices]%list_elem_of_filter
    [_ Hi'%elem_of_indices]%list_elem_of_filter.
  by apply cord_at_inj.
Qed.

(** *** The surrounding coordinates *)

Lemma in_box_keys V window p c : in_box V window p c → c.*1 = p.*1.
Proof.
  induction 1 as [|pk ck p' c' [Hk _] _ IH]; [done|]. by rewrite !fmap_cons, Hk, IH.
Qed.

Lemma in_box_valid_key V window p c :
  in_box V window p c → valid_key (dims V) (coords V) c.
Proof.
  induction 1 as [|pk ck p' c' (Hk & _ & cs & Hcs & Hin) _ IH]; constructor; [|done].
  exists cs. by rewrite Hk.
Qed.

Lemma surround_spec V window brt p sur :
  surround V window brt p = Some sur →
  NoDup sur ∧ ∀ c, c ∈ sur ↔ in_box V window p c ∧ c ∉ brt.
Proof.
  unfold surround. destruct (mapM _ p) as [cur_sur|] eqn:Hcs; simpl; [|done].
  intros [= <-]. split; [apply NoDup_elements|]. intros c.
  rewrite elem_of_elements, elem_of_difference, !elem_of_list_to_set.
  apply and_iff_compat_r. rewrite list_elem_of_fmap.
  apply mapM_Some in Hcs. clear brt.
  revert c. induction Hcs as [|[d co] r p cur_sur Hr Hcs IH]; intros c.
  - split.
    + intros (cord & -> & ->%elem_of_product%Forall2_nil_inv_r). constructor.
    + intros ->%Forall2_nil_inv_l. exists []. split; [done|by apply elem_of_product].
  - simpl in Hr. destruct (coords_of (dims V) (coords V) d) as [cs|] eqn:Hd; [|done].
    simpl in Hr. injection Hr as <-. rewrite !fmap_cons. split.
    + intros (cord & -> & (x & cord' & Hx & Hc & ->)%elem_of_product%Forall2_cons_inv_r).
      simpl in Hx. apply elem_of_elements, elem_of_intersection in Hx as [Hx1 Hx2].
      apply elem_of_list_to_set, elem_of_range in Hx1.
      apply elem_of_list_to_set in Hx2.
      simpl. constructor.
      * simpl. split; [done|]. split; [lia|]. eauto.
      * apply IH. exists cord'. split; [done|by apply elem_of_product].
    + intros ([d' x] & c' & (Hk & Hw & cs' & Hcs' & Hx) & Hc & ->)%Forall2_cons_inv_l.
      simpl in Hk, Hw, Hcs', Hx. subst d'. rewrite Hd in Hcs'. injection Hcs' as <-.
      apply IH in Hc as (cord' & -> & Hc').
      exists (x :: cord'). split; [done|].
      apply elem_of_product. constructor; [|by apply elem_of_product].
      simpl. apply elem_of_elements, elem_of_intersection.
      split; apply elem_of_list_to_set; [apply elem_of_range; lia|done].
Qed.

Lemma surround_is_Some V window brt p :
  (∀ kv, kv ∈ p → is_Some (coords_of (dims V) (coords V) kv.1)) →
  is_Some (surround V window brt p).
Proof.
  intros Hp. unfold surround.
  destruct (mapM _ p) as [cur_sur|] eqn:Hcs; simpl; [eauto|].
  exfalso. apply eq_None_not_Some in Hcs. apply Hcs.
  apply mapM_is_Some, Forall_forall. intros kv Hkv.
  destruct (Hp kv Hkv) as [cs Hcs']. simpl. rewrite Hcs'. simpl. eauto.
Qed.

(** *** The correction loop *)

Lemma loc_get_read V c v s buf :
  heap s !! data V = Some buf →
  loc_read V buf c = Some v →
  loc_get V c s = (s, inr v).
Proof.
  intros Hbuf. unfold loc_read, loc_get.
  destruct (loc_indexer (dims V) (coords V) c) as [ix|]; simpl; [|done].
  intros [= <-]. unfold mbind, M_bind, mret, M_ret, values. by rewrite Hbuf.
Qed.

Lemma mapM_loc_get V sur stack s buf :
  heap s !! data V = Some buf →
  mapM (loc_read V buf) sur = Some stack →
  mapM (loc_get V) sur s = (s, inr stack).
Proof.
  intros Hbuf Hs%mapM_Some.
  induction Hs as [|c v sur stack Hc _ IH]; simpl; [done|].
  erewrite bind_inr by (by eapply loc_get_read).
  by erewrite bind_inr by apply IH.
Qed.

Lemma mapM_loc_read_is_Some V buf sur :
  NoDup (dims V) →
  (∀ c, c ∈ sur → valid_key (dims V) (coords V) c) →
  is_Some (mapM (loc_read V buf) sur).
Proof.
  intros Hnd Hv. apply mapM_is_Some, Forall_forall. intros c Hc.
  unfold compose, loc_read.
  destruct (loc_indexer_is_Some _ _ c Hnd (Hv c Hc)) as [ix ->]. simpl. eauto.
Qed.

Lemma mapM_loc_read_ext V buf buf0 sur (stack stack0 : list (ndarray Q)) ridx :
  mapM (loc_read V buf) sur = Some stack →
  mapM (loc_read V buf0) sur = Some stack0 →
  (∀ c ix, c ∈ sur → loc_indexer (dims V) (coords V) c = Some ix →
     buf (fill ix ridx) = buf0 (fill ix ridx)) →
  (λ s : ndarray Q, s ridx) <$> stack = (λ s : ndarray Q, s ridx) <$> stack0.
Proof.
  intros Hs%mapM_Some. revert stack0.
  induction Hs as [|c v sur stack Hc _ IH]; intros stack0 Hs0%mapM_Some Hext.
  - by apply Forall2_nil_inv_l in Hs0 as ->.
  - apply Forall2_cons_inv_l in Hs0 as (v0 & stack0' & Hc0 & Hs0 & ->).
    rewrite !fmap_cons. f_equal.
    + unfold loc_read in Hc, Hc0.
      destruct (loc_indexer (dims V) (coords V) c) as [ix|] eqn:Hix; simpl in *; [|done].
      injection Hc as <-. injection Hc0 as <-. unfold getitem.
      apply (Hext c); [left|done].
    + apply IH; [by apply mapM_Some|]. intros c' ix' Hc'. apply Hext. by right.
Qed.

Section correction_loop.
Variables (V : DataArray) (window : Z) (brt : list HashableDict).
Variables (sdims : list string) (buf0 : ndarray Q) (n : nat).
Hypothesis Hlen : length (coords V) = length (dims V).
Hypothesis HndV : NoDup (dims V).
Hypothesis Hnds : NoDup sdims.
Hypothesis Hkeys : ∀ q, q ∈ brt → q.*1 = sdims.
Hypothesis Hvalid : ∀ q, q ∈ brt → valid_key (dims V) (coords V) q.

Lemma sur_keys q sur c :
  q ∈ brt → surround V window brt q = Some sur → c ∈ sur →
  c.*1 = sdims ∧ (c ∉ brt) ∧ valid_key (dims V) (coords V) c.
Proof.
  intros Hq [_ Hsur]%surround_spec Hc. apply Hsur in Hc as [Hbox Hc].
  split; [|split; [done|by eapply in_box_valid_key]].
  rewrite (in_box_keys _ _ _ _ Hbox). by apply Hkeys.
Qed.

(** A surrounding coordinate never addresses a cell of a flagged point. *)
Lemma sur_not_flagged p sur c ixc q ixq ridx :
  p ∈ brt → surround V window brt p = Some sur → c ∈ sur →
  loc_indexer (dims V) (coords V) c = Some ixc →
  q ∈ brt → loc_indexer (dims V) (coords V) q = Some ixq →
  matches ixq (fill ixc ridx) = false.
Proof.
  intros Hp Hsur Hc Hixc Hq Hixq.
  destruct (sur_keys _ _ _ Hp Hsur Hc) as (Hck & Hcb & _).
  destruct (matches ixq (fill ixc ridx)) eqn:Hm; [|done].
  exfalso. apply Hcb.
  assert (c = q) as ->; [|done].
  eapply (loc_indexer_disjoint (dims V) (coords V) c q ixc ixq); try done.
  - by rewrite Hck, Hkeys.
  - by rewrite Hck.
  - apply matches_fill.
Qed.

Lemma corrected_skip done p buf :
  surround V window brt p = Some [] →
  corrected V window brt done buf0 buf →
  corrected V window brt (done ++ [p]) buf0 buf.
Proof.
  intros Hp [Hi Hii]. split.
  - intros idx Hidx. apply Hi. intros q sur ixq Hq. apply Hidx.
    apply elem_of_app. by left.
  - intros q sur ixq idx [Hq|Hq%list_elem_of_singleton]%elem_of_app Hsur Hne.
    + by eapply Hii.
    + congruence.
Qed.

Lemma corrected_write done p sur ixp stack buf :
  (∀ q, q ∈ done → q ∈ brt) → p ∈ brt →
  surround V window brt p = Some sur → sur ≠ [] →
  loc_indexer (dims V) (coords V) p = Some ixp →
  mapM (loc_read V buf) sur = Some stack →
  corrected V window brt done buf0 buf →
  corrected V window brt (done ++ [p]) buf0
    (setitem ixp (λ ridx, astype (dtype V) (mean_sample stack ridx)) buf).
Proof.
  intros Hdone Hp Hsur Hne Hixp Hstack [Hi Hii].
  assert (∀ c ix ridx, c ∈ sur → loc_indexer (dims V) (coords V) c = Some ix →
            buf (fill ix ridx) = buf0 (fill ix ridx)) as Horig.
  { intros c ix ridx Hc Hix. apply Hi. intros q sq ixq Hq _ _ Hixq.
    by apply (sur_not_flagged p sur c ix q ixq ridx); auto. }
  destruct (mapM_loc_read_is_Some V buf0 sur HndV) as [stack0 Hstack0].
  { intros c Hc. by eapply sur_keys. }
  split.
  - intros idx Hidx. unfold setitem.
    rewrite (Hidx p sur ixp); [|apply elem_of_app; right; by left|done..].
    apply Hi. intros q sq ixq Hq. apply Hidx. apply elem_of_app. by left.
  - intros q sq ixq idx Hq Hsq Hnq Hixq Hm. unfold setitem.
    destruct (matches ixp idx) eqn:Hmp.
    + assert (q = p) as ->.
      { eapply (loc_indexer_disjoint (dims V) (coords V) q p ixq ixp); try done.
        - rewrite !Hkeys; [done..|].
          apply elem_of_app in Hq as [?|Hq%list_elem_of_singleton]; subst; auto.
        - rewrite Hkeys; [done|].
          apply elem_of_app in Hq as [?|Hq%list_elem_of_singleton]; subst; auto. }
      assert (sq = sur) as -> by congruence.
      assert (ixq = ixp) as -> by congruence.
      exists stack0. split; [done|]. f_equal. unfold mean_sample. f_equal.
      eapply mapM_loc_read_ext; [done..|]. intros c ix Hc Hix. by apply (Horig c).
    + apply elem_of_app in Hq as [Hq|Hq%list_elem_of_singleton].
      * by eapply Hii.
      * congruence.
Qed.

Lemma correct_point_skip k p s :
  correct_point V n (k, (p, [])) s =
  (State (heap s) (stdout s ++ [processing_spot k n; unable_to_correct k p]), inr ()).
Proof.
  unfold correct_point, mbind, M_bind, print. simpl.
  by rewrite <-(assoc_L (++)).
Qed.

Lemma correct_point_write k p sur ixp stack s buf :
  sur ≠ [] →
  heap s !! data V = Some buf →
  mapM (loc_read V buf) sur = Some stack →
  loc_indexer (dims V) (coords V) p = Some ixp →
  correct_point V n (k, (p, sur)) s =
  (State (<[data V := setitem ixp (λ ridx, astype (dtype V) (mean_sample stack ridx)) buf]>
            (heap s))
         (stdout s ++ [processing_spot k n]), inr ()).
Proof.
  intros Hne Hbuf Hstack Hixp. unfold correct_point.
  rewrite bool_decide_eq_true_2 by (destruct sur; [done|simpl; lia]).
  erewrite bind_inr by reflexivity.
  erewrite bind_inr by (by eapply mapM_loc_get).
  unfold loc_set. rewrite Hixp. simpl.
  erewrite bind_inr by reflexivity.
  erewrite bind_inr by (unfold values; simpl; by rewrite Hbuf).
  reflexivity.
Qed.

Lemma correct_loop todo : ∀ surs done k s buf,
  (∀ q, q ∈ done ++ todo → q ∈ brt) →
  Forall2 (λ q sur, surround V window brt q = Some sur) todo surs →
  heap s !! data V = Some buf →
  corrected V window brt done buf0 buf →
  ∃ s' buf',
    for_ (zip (seq k (length todo)) (zip todo surs)) (correct_point V n) s = (s', inr ()) ∧
    heap s' = <[data V := buf']> (heap s) ∧
    stdout s' = stdout s ++ (zip (seq k (length todo)) (zip todo surs) ≫= point_msgs n) ∧
    corrected V window brt (done ++ todo) buf0 buf'.
Proof.
  induction todo as [|p todo IH]; intros surs done k s buf Hbrt Hsurs Hbuf Hcor.
  - exists s, buf. simpl. rewrite !app_nil_r. repeat split; try done.
    + by rewrite list_insert_id.
    + apply Hcor.
    + apply Hcor.
  - apply Forall2_cons_inv_l in Hsurs as (sur & surs' & Hsur & Hsurs & ->).
    assert (p ∈ brt) as Hp. { apply Hbrt, elem_of_app. right. left. }
    assert (∀ q, q ∈ (done ++ [p]) ++ todo → q ∈ brt) as Hbrt'.
    { intros q. rewrite <-(assoc_L (++)). apply Hbrt. }
    assert (∀ q, q ∈ done → q ∈ brt) as Hdone.
    { intros q Hq. apply Hbrt, elem_of_app. by left. }
    cbn [length seq zip zip_with for_].
    destruct (decide (sur = [])) as [->|Hne].
    + erewrite bind_inr by apply correct_point_skip.
      set (s1 := State _ _).
      destruct (IH surs' (done ++ [p]) (S k) s1 buf Hbrt' Hsurs Hbuf)
        as (s' & buf' & Hrun & Hheap & Hout & Hcor').
      { by apply corrected_skip. }
      exists s', buf'. split; [done|]. split; [done|].
      split; [|by rewrite <-(assoc_L (++)) in Hcor'].
      rewrite Hout. subst s1. simpl. by rewrite <-!(assoc_L (++)).
    + destruct (mapM_loc_read_is_Some V buf sur HndV) as [stack Hstack].
      { intros c Hc. by eapply sur_keys. }
      destruct (loc_indexer_is_Some (dims V) (coords V) p HndV (Hvalid p Hp)) as [ixp Hixp].
      erewrite bind_inr by (by eapply correct_point_write).
      set (buf1 := setitem ixp (λ ridx, astype (dtype V) (mean_sample stack ridx)) buf).
      set (s2 := State _ _).
      assert (heap s2 !! data V = Some buf1) as Hbuf1.
      { subst s2. simpl. apply list_lookup_insert_eq. by eapply lookup_lt_Some. }
      destruct (IH surs' (done ++ [p]) (S k) s2 buf1 Hbrt' Hsurs Hbuf1)
        as (s' & buf' & Hrun & Hheap & Hout & Hcor').
      { by eapply corrected_write. }
      exists s', buf'. split; [done|]. split.
      { rewrite Hheap. subst s2. simpl. by rewrite list_insert_insert_eq. }
      split; [|by rewrite <-(assoc_L (++)) in Hcor'].
      rewrite Hout. subst s2. simpl. unfold point_msgs at 2. simpl.
      rewrite bool_decide_eq_true_2 by (destruct sur; [done|simpl; lia]).
      by rewrite <-!(assoc_L (++)).
Qed.

End correction_loop.

(** *** The whole call *)

Lemma wf_input_unpack s V M :
  wf_input s V M = true →
  is_Some (heap s !! data V) ∧ is_Some (name V) ∧
  NoDup (dims V) ∧ length (coords V) = length (dims V) ∧
  NoDup (xdims M) ∧ length (xcoords M) = length (xdims M) ∧
  (∀ d cs, (d, cs) ∈ zip (xdims M) (xcoords M) →
     ∃ vcs, coords_of (dims V) (coords V) d = Some vcs ∧ cs ⊆ vcs).
Proof.
  unfold wf_input. intros H.
  apply andb_prop in H as [H Hsub]. apply andb_prop in H as [H H7].
  apply andb_prop in H as [H H6]. apply andb_prop in H as [H _].
  apply andb_prop in H as [H H4]. apply andb_prop in H as [H H3].
  apply andb_prop in H as [H1 H2].
  apply bool_decide_eq_true in H1. apply bool_decide_eq_true in H2.
  apply bool_decide_eq_true in H3. apply bool_decide_eq_true in H4.
  apply bool_decide_eq_true in H6. apply bool_decide_eq_true in H7.
  repeat split; try done.
  intros d cs Hin. rewrite forallb_elem_of in Hsub. specialize (Hsub _ Hin).
  simpl in Hsub. destruct (coords_of (dims V) (coords V) d) as [vcs|]; [|done].
  exists vcs. split; [done|]. by apply bool_decide_eq_true in Hsub.
Qed.

Lemma brt_list_valid s V M spot_thres q :
  wf_input s V M = true → q ∈ brt_list M spot_thres →
  valid_key (dims V) (coords V) q.
Proof.
  intros (_ & _ & _ & _ & _ & Hlen & Hsub)%wf_input_unpack
         (idx & Hidx & _ & ->)%elem_of_brt_list.
  apply Forall_forall. intros [d l] Hin.
  apply list_elem_of_lookup in Hin as (j & Hj).
  unfold cord_at in Hj.
  apply lookup_zip_with_Some in Hj as (d' & l' & [= <- <-] & Hd & Hl).
  apply lookup_zip_with_Some in Hl as (cs & i & -> & Hcs & Hi).
  destruct (Hsub d cs) as (vcs & Hvcs & Hincl).
  { eapply list_elem_of_lookup_2. apply lookup_zip_with_Some. eauto. }
  exists vcs. split; [done|]. apply Hincl. simpl.
  assert (i < length cs)%nat as Hlt.
  { unfold shape in Hidx.
    destruct (Forall2_lookup_l _ _ _ _ _ Hidx Hi) as (m & Hm & Hlt).
    rewrite list_lookup_fmap, Hcs in Hm. simpl in Hm. by injection Hm as <-. }
  apply list_elem_of_In, nth_In. lia.
Qed.

Lemma corrected_nil V window brt buf0 : corrected V window brt [] buf0 buf0.
Proof.
  split; [done|]. intros q sur ixq idx Hq. by apply elem_of_nil in Hq.
Qed.

Lemma correct_brightspot_run s V M window spot_thres inplace :
  wf_input s V M = true → 0 < sum M →
  ∃ buf0 nm surs s' buf',
    heap s !! data V = Some buf0 ∧ name V = Some nm ∧
    mapM (surround V window (brt_list M spot_thres)) (brt_list M spot_thres) = Some surs ∧
    correct_brightspot V M window spot_thres inplace s =
      (s', inr (MkDataArray (Some (nm +:+ "_DeSpotted")) (dims V) (coords V) (dtype V)
                  (if inplace then data V else length (heap s)))) ∧
    heap s' = <[(if inplace then data V else length (heap s)) := buf']>
                (if inplace then heap s else heap s ++ [buf0]) ∧
    stdout s' = stdout s ++ [correcting_brightspot] ++
                (zip (seq 0 (length (brt_list M spot_thres)))
                     (zip (brt_list M spot_thres) surs)
                 ≫= point_msgs (length (brt_list M spot_thres))) ++
                [brightspot_correction_done] ∧
    corrected V window (brt_list M spot_thres) (brt_list M spot_thres) buf0 buf'.
Proof.
  intros Hwf Hsum.
  pose proof (wf_input_unpack _ _ _ Hwf)
    as ([buf0 Hbuf0] & [nm Hnm] & HndV & HlenV & HndM & HlenM & Hsub).
  set (brt := brt_list M spot_thres).
  set (varr_ds := MkDataArray (name V) (dims V) (coords V) (dtype V)
                    (if inplace then data V else length (heap s))).
  assert (is_Some (mapM (surround V window brt) brt)) as [surs Hsurs].
  { apply mapM_is_Some, Forall_forall. intros q Hq. apply surround_is_Some.
    intros kv Hkv.
    pose proof (brt_list_valid _ _ _ _ _ Hwf Hq) as Hv.
    eapply Forall_forall in Hv as (cs & -> & _); [eauto|done]. }
  set (s1 := State (if inplace then heap s else heap s ++ [buf0])
                   (stdout s ++ [correcting_brightspot])).
  assert (heap s1 !! data varr_ds = Some buf0) as Hbuf1.
  { subst s1 varr_ds. simpl. destruct inplace; [done|].
    rewrite lookup_app_r by lia. by rewrite Nat.sub_diag. }
  destruct (correct_loop varr_ds window brt (xdims M) buf0 (length brt)
              HlenV HndV HndM) with (todo := brt) (surs := surs) (done := @nil HashableDict)
              (k := 0%nat) (s := s1) (buf := buf0)
    as (s2 & buf' & Hrun & Hheap & Hout & Hcor).
  { intros q Hq. by eapply brt_list_keys. }
  { intros q Hq. exact (brt_list_valid s V M spot_thres q Hwf Hq). }
  { done. }
  { by apply mapM_Some. }
  { done. }
  { apply corrected_nil. }
  exists buf0, nm, surs, (State (heap s2) (stdout s2 ++ [brightspot_correction_done])), buf'.
  split; [done|]. split; [done|]. split; [done|]. split; [|split; [|split]].
  - unfold correct_brightspot.
    erewrite bind_inr by reflexivity.
    rewrite bool_decide_eq_true_2 by done. cbn [negb].
    assert ((if negb inplace then copy V else mret V)
              (State (heap s) (stdout s ++ [correcting_brightspot])) = (s1, inr varr_ds)) as Hcopy.
    { subst s1 varr_ds. destruct inplace; simpl.
      - unfold mret, M_ret. by destruct V.
      - unfold copy. erewrite bind_inr by (unfold values; simpl; by rewrite Hbuf0).
        by erewrite bind_inr by reflexivity. }
    erewrite bind_inr by apply Hcopy.
    change (surround varr_ds) with (surround V). fold brt.
    rewrite Hsurs. simpl lift_KeyError.
    erewrite bind_inr by reflexivity.
    erewrite bind_inr by apply Hrun.
    erewrite bind_inr by reflexivity.
    rewrite Hnm. reflexivity.
  - simpl. by rewrite Hheap.
  - simpl. rewrite Hout. subst s1. simpl. by rewrite <-!(assoc_L (++)).
  - apply Hcor.
Qed.

Lemma correct_brightspot_result_buffer s V (buf0 buf' : ndarray Q) (inplace : bool) :
  heap s !! data V = Some buf0 →
  <[(if inplace then data V else length (heap s)) := buf']>
    (if inplace then heap s else heap s ++ [buf0])
  !! (if inplace then data V else length (heap s)) = Some buf'.
Proof.
  intros Hbuf0. apply list_lookup_insert_eq. destruct inplace.
  - by eapply lookup_lt_Some.
  - rewrite length_app. simpl. lia.
Qed.

(** *** Means *)

Lemma Qsum_Permutation l1 l2 : l1 ≡ₚ l2 → (Qsum l1 == Qsum l2)%Q.
Proof.
  induction 1 as [|x l1 l2 _ IH|x y l|l1 l2 l3 _ IH1 _ IH2]; simpl.
  - reflexivity.
  - by rewrite IH.
  - ring.
  - by rewrite IH1.
Qed.

Lemma Qmean_spec l :
  l ≠ [] → (Qmean l * inject_Z (Z.of_nat (length l)) == Qsum l)%Q.
Proof.
  intros Hl. unfold Qmean. rewrite Qred_correct.
  field. destruct l; [done|]. simpl length.
  change 0%Q with (inject_Z 0). rewrite inject_Z_injective. lia.
Qed.

Lemma Qmean_123 l : l ≡ₚ [1; 2; 3]%Q → Qmean l = 2%Q.
Proof.
  intros Hl. unfold Qmean.
  rewrite (Permutation_length Hl). simpl length.
  change 2%Q with (Qred (6 / inject_Z (Z.of_nat 3))).
  apply Qred_complete. by rewrite (Qsum_Permutation _ _ Hl).
Qed.

Lemma sum_nonpos M :
  (∀ idx, idx ∈ indices (shape (xcoords M)) → xvalues M idx ≤ 0) → sum M ≤ 0.
Proof.
  unfold sum. induction (indices (shape (xcoords M))) as [|idx l IH]; intros H; [done|].
  rewrite fmap_cons. cbn [foldr].
  assert (xvalues M idx ≤ 0) by (apply H; left).
  assert (foldr Z.add 0 (xvalues M <$> l) ≤ 0) by (apply IH; intros; apply H; by right).
  lia.
Qed.

(** On a mask of counts (no negative entry) with a non-negative threshold,
    a flagged point makes the mask total positive: the call passes the
    empty-mask guard whenever there is a point to correct. *)
Lemma flagged_point_passes_guard M spot_thres p :
  (∀ idx, idx ∈ indices (shape (xcoords M)) → 0 ≤ xvalues M idx) →
  0 ≤ spot_thres →
  p ∈ brt_list M spot_thres → 0 < sum M.
Proof.
  intros Hnn Hthres (idx & Hidx%elem_of_indices & Hv & _)%elem_of_brt_list.
  assert (0 < xvalues M idx) as Hpos.
  { unfold effective_thres in Hv. case_bool_decide; lia. }
  clear Hv. unfold sum. revert Hnn Hidx.
  induction (indices (shape (xcoords M))) as [|i l IH]; intros Hnn Hidx.
  - by apply elem_of_nil in Hidx.
  - rewrite fmap_cons. cbn [foldr].
    assert (0 ≤ xvalues M i) by (apply Hnn; left).
    assert (0 ≤ foldr Z.add 0 (xvalues M <$> l)) as Hrest.
    { clear IH Hidx. induction l as [|j l IHl]; [done|].
      rewrite fmap_cons. cbn [foldr].
      assert (0 ≤ xvalues M j) by (apply Hnn; right; left).
      assert (0 ≤ foldr Z.add 0 (xvalues M <$> l)); [|lia].
      apply IHl. intros k [->|Hk]%elem_of_cons; apply Hnn; [left|right; by right]. }
    apply elem_of_cons in Hidx as [->|Hidx]; [lia|].
    assert (0 < foldr Z.add 0 (xvalues M <$> l)); [|lia].
    apply IH; [|done]. intros k Hk. apply Hnn. by right.
Qed.

(** ** Claims on [correct_brightspot] *)

(** C3.  With a mask that has no positive entry, [correct_brightspot]
    returns the very object it was given (same name, same buffer address),
    whatever [inplace] is; the heap is the heap before the call, so nothing
    was copied or written, and the only effect is the two printed lines. *)
Theorem correct_brightspot_empty_mask s V M window spot_thres inplace :
  (∀ idx, idx ∈ indices (shape (xcoords M)) → xvalues M idx ≤ 0) →
  correct_brightspot V M window spot_thres inplace s =
    (State (heap s)
           (stdout s ++ [correcting_brightspot; no_bright_spots_returning_input]),
     inr V).
Proof.
  intros Hle%sum_nonpos. unfold correct_brightspot.
  erewrite bind_inr by reflexivity.
  rewrite bool_decide_eq_false_2 by lia. cbn [negb].
  erewrite bind_inr by reflexivity.
  unfold mret, M_ret. simpl. by rewrite <-(assoc_L (++)).
Qed.

(** C8.  A coordinate tuple is flagged exactly when it names the mask's
    dimensions (the embedding lists them in the mask's order) and the mask
    entry it labels strictly exceeds the threshold in force.  With at most two mask dimensions the
    threshold in force is the caller's [spot_thres]; with three (more than
    two) it is zero whatever the caller passed, so that every positive
    entry is flagged.  Every flagged tuple is listed once. *)
Theorem flagged_points_are_the_labels_above_the_threshold M spot_thres :
  length (xcoords M) = length (xdims M) → NoDup (xdims M) →
  Forall (λ cs, NoDup cs) (xcoords M) →
  (∀ p, p ∈ brt_list M spot_thres ↔
        p.*1 = xdims M ∧
        ∃ v, mask_value M p = Some v ∧ effective_thres M spot_thres < v) ∧
  ((length (xdims M) ≤ 2)%nat → effective_thres M spot_thres = spot_thres) ∧
  ((2 < length (xdims M))%nat → effective_thres M spot_thres = 0) ∧
  (length (xdims M) = 3%nat →
   ∀ p, p ∈ brt_list M spot_thres ↔
        p.*1 = xdims M ∧ ∃ v, mask_value M p = Some v ∧ 0 < v) ∧
  NoDup (brt_list M spot_thres).
Proof.
  intros Hlen Hnd Hcnd.
  assert (∀ p, p ∈ brt_list M spot_thres ↔
               p.*1 = xdims M ∧
               ∃ v, mask_value M p = Some v ∧ effective_thres M spot_thres < v) as Hmem.
  { intros p. rewrite elem_of_brt_list. split.
    - intros (idx & Hidx & Hv & ->). split; [by apply cord_at_keys|].
      exists (xvalues M idx). split; [by apply mask_value_cord_at|done].
    - intros (Hkeys & v & Hp & Hv).
      destruct (mask_value_Some M p v Hlen Hnd Hkeys Hp) as (idx & Hidx & -> & ->).
      by exists idx. }
  split; [exact Hmem|].
  split; [|split; [|split]].
  - intros H. unfold effective_thres. by rewrite bool_decide_eq_false_2 by lia.
  - intros H. unfold effective_thres. by rewrite bool_decide_eq_true_2 by lia.
  - intros H p. rewrite Hmem. unfold effective_thres.
    by rewrite bool_decide_eq_true_2 by lia.
  - by apply NoDup_brt_list.
Qed.

(** C2.  For a flagged point [p] the surrounding set is computed without
    error, has no duplicates, and holds exactly the tuples over the mask's
    dimensions that lie in the window box of [p] (per dimension: a
    coordinate of the video on that dimension within [window] of [p]'s) and
    are not flagged.  Hence it holds neither [p] nor any other flagged
    point, and every coordinate in it is a coordinate of the video. *)
Theorem surround_is_box_minus_flagged s V M window spot_thres p :
  wf_input s V M = true →
  p ∈ brt_list M spot_thres →
  ∃ sur,
    surround V window (brt_list M spot_thres) p = Some sur ∧
    NoDup sur ∧
    (∀ c, c ∈ sur ↔ in_box V window p c ∧ c ∉ brt_list M spot_thres) ∧
    (∀ c, c ∈ sur → c.*1 = xdims M) ∧
    (p ∉ sur) ∧
    (∀ q, q ∈ brt_list M spot_thres → q ∉ sur) ∧
    (∀ c d x, c ∈ sur → (d, x) ∈ c →
       ∃ cs, coords_of (dims V) (coords V) d = Some cs ∧ x ∈ cs).
Proof.
  intros Hwf Hp.
  destruct (surround_is_Some V window (brt_list M spot_thres) p) as [sur Hsur].
  { intros kv Hkv. pose proof (brt_list_valid _ _ _ _ _ Hwf Hp) as Hv.
    eapply Forall_forall in Hv as (cs & -> & _); [eauto|done]. }
  exists sur. destruct (surround_spec _ _ _ _ _ Hsur) as [Hnd Hspec].
  split; [done|]. split; [done|]. split; [done|]. split; [|split; [|split]].
  - intros c [Hbox _]%Hspec. rewrite (in_box_keys _ _ _ _ Hbox).
    eapply brt_list_keys; [|done].
    by apply wf_input_unpack in Hwf as (_ & _ & _ & _ & _ & ? & _).
  - intros [_ Hn]%Hspec. done.
  - intros q Hq [_ Hn]%Hspec. done.
  - intros c d x [Hbox _]%Hspec Hdx.
    apply in_box_valid_key in Hbox.
    eapply Forall_forall in Hbox as (cs & ? & ?); [|done]. eauto.
Qed.

Lemma unable_msg_printed (brt : list HashableDict) (surs : list (list HashableDict)) n ibrt p :
  brt !! ibrt = Some p → surs !! ibrt = Some [] →
  length brt = length surs →
  unable_to_correct ibrt p ∈
    (zip (seq 0 (length brt)) (zip brt surs) ≫= point_msgs n).
Proof.
  intros Hp Hs Hlen. apply list_elem_of_bind. exists (ibrt, (p, [])). split.
  - unfold point_msgs. simpl. right. left.
  - apply list_elem_of_lookup. exists ibrt.
    apply lookup_zip_with_Some. exists ibrt, (p, []). split; [done|]. split.
    + apply lookup_seq. split; [done|]. by eapply lookup_lt_Some.
    + apply lookup_zip_with_Some. eauto.
Qed.

(** C10.  When the mask has a positive entry the call returns a video with
    the dimensions and coordinates of the input, and every cell of it that
    lies at no flagged point holds the value the input held there before
    the call. *)
Theorem unflagged_cells_unchanged s V M window spot_thres inplace :
  wf_input s V M = true →
  (∃ idx, idx ∈ indices (shape (xcoords M)) ∧ 0 < xvalues M idx) →
  ∃ s' R buf0 buf',
    correct_brightspot V M window spot_thres inplace s = (s', inr R) ∧
    heap s !! data V = Some buf0 ∧
    heap s' !! data R = Some buf' ∧
    dims R = dims V ∧ coords R = coords V ∧
    ∀ idx, (∀ p, p ∈ brt_list M spot_thres → ¬ addresses V p idx) →
           buf' idx = buf0 idx.
Proof.
  intros Hwf _. destruct (decide (0 < sum M)) as [Hsum|Hsum].
  - destruct (correct_brightspot_run s V M window spot_thres inplace Hwf Hsum)
      as (buf0 & nm & surs & s' & buf' & Hbuf0 & Hnm & Hsurs & Hrun & Hheap & Hout & Hi & Hii).
    eexists s', _, buf0, buf'. split; [exact Hrun|]. split; [done|].
    split; [rewrite Hheap; by apply correct_brightspot_result_buffer|].
    split; [done|]. split; [done|].
    intros idx Hidx. apply Hi. intros q sur ixq Hq _ _ Hixq.
    destruct (matches ixq idx) eqn:Hm; [|done].
    exfalso. apply (Hidx q Hq). by exists ixq.
  - pose proof (wf_input_unpack _ _ _ Hwf) as ([buf0 Hbuf0] & _).
    eexists _, V, buf0, buf0. split.
    + unfold correct_brightspot. erewrite bind_inr by reflexivity.
      rewrite bool_decide_eq_false_2 by done. cbn [negb].
      erewrite bind_inr by reflexivity. reflexivity.
    + simpl. by repeat split.
Qed.

Lemma correct_brightspot_post s V M window spot_thres inplace :
  wf_input s V M = true → 0 < sum M →
  ∃ s' R buf0 buf' surs,
    correct_brightspot V M window spot_thres inplace s = (s', inr R) ∧
    heap s !! data V = Some buf0 ∧
    heap s' !! data R = Some buf' ∧
    mapM (surround V window (brt_list M spot_thres)) (brt_list M spot_thres) = Some surs ∧
    stdout s' = stdout s ++ [correcting_brightspot] ++
                (zip (seq 0 (length (brt_list M spot_thres)))
                     (zip (brt_list M spot_thres) surs)
                 ≫= point_msgs (length (brt_list M spot_thres))) ++
                [brightspot_correction_done] ∧
    (∀ p,
       p ∈ brt_list M spot_thres →
       surround V window (brt_list M spot_thres) p = Some [] →
       ∃ v0 v', loc_read V buf0 p = Some v0 ∧ loc_read R buf' p = Some v' ∧
                ∀ ridx, v' ridx = v0 ridx) ∧
    (∀ q sur,
       q ∈ brt_list M spot_thres →
       surround V window (brt_list M spot_thres) q = Some sur → sur ≠ [] →
       ∃ vq nb, loc_read R buf' q = Some vq ∧
                mapM (loc_read V buf0) sur = Some nb ∧
                ∀ ridx, length ridx = length (red_dim V M) →
                        vq ridx = astype (dtype V) (Qmean ((λ v : ndarray Q, v ridx) <$> nb))).
Proof.
  intros Hwf Hsum.
  destruct (correct_brightspot_run s V M window spot_thres inplace Hwf Hsum)
    as (buf0 & nm & surs & s' & buf' & Hbuf0 & Hnm & Hsurs & Hrun & Hheap & Hout & Hi & Hii).
  pose proof (wf_input_unpack _ _ _ Hwf) as (_ & _ & HndV & HlenV & HndM & HlenM & _).
  eexists s', _, buf0, buf', surs. split; [exact Hrun|]. split; [done|].
  split; [rewrite Hheap; by apply correct_brightspot_result_buffer|].
  split; [done|]. split; [done|]. split.
  - intros p Hpin Hsur.
    destruct (loc_indexer_is_Some (dims V) (coords V) p HndV) as [ixp Hixp].
    { by eapply brt_list_valid. }
    exists (getitem ixp buf0), (getitem ixp buf').
    unfold loc_read. simpl. rewrite Hixp. simpl. split; [done|]. split; [done|].
    intros ridx. unfold getitem. apply Hi.
    intros q sur ixq Hq Hsq Hne Hixq.
    destruct (matches ixq (fill ixp ridx)) eqn:Hm; [|done].
    exfalso. assert (q = p) as ->; [|congruence].
    eapply (loc_indexer_disjoint (dims V) (coords V) q p ixq ixp); try done.
    + by rewrite !(brt_list_keys M spot_thres) by done.
    + by rewrite (brt_list_keys M spot_thres) by done.
    + apply matches_fill.
  - intros q sur Hq Hsur Hne.
    destruct (loc_indexer_is_Some (dims V) (coords V) q HndV) as [ixq Hixq].
    { by eapply brt_list_valid. }
    destruct (mapM_loc_read_is_Some V buf0 sur HndV) as [nb Hnb].
    { intros c Hc. apply surround_spec in Hsur as [_ Hs].
      apply Hs in Hc as [Hbox _]. by eapply in_box_valid_key. }
    exists (getitem ixq buf'), nb. unfold loc_read at 1. simpl. rewrite Hixq. simpl.
    split; [done|]. split; [done|]. intros ridx Hridx. unfold getitem.
    destruct (Hii q sur ixq (fill ixq ridx) Hq Hsur Hne Hixq (matches_fill _ _))
      as (stack & Hstack & ->).
    assert (stack = nb) as -> by congruence.
    rewrite free_fill; [done|].
    rewrite (loc_indexer_nfree _ _ _ _ HlenV Hixq), Hridx.
    by rewrite (brt_list_keys M spot_thres q HlenM Hq).
Qed.

(** C4.  A call on well-formed inputs that passes the empty-mask guard
    raises no exception.  For every flagged point whose surrounding set is
    empty, the line naming the point and its coordinates is printed and the
    returned video holds at the point, along all remaining axes, the value
    the input held before the call; every flagged point with surrounding
    coordinates is still corrected to the mean of their original values,
    stored in the sample type of the video. *)
Theorem isolated_point_left_unchanged s V M window spot_thres inplace :
  wf_input s V M = true → 0 < sum M →
  ∃ s' R buf0 buf',
    correct_brightspot V M window spot_thres inplace s = (s', inr R) ∧
    heap s !! data V = Some buf0 ∧
    heap s' !! data R = Some buf' ∧
    (∀ ibrt p,
       brt_list M spot_thres !! ibrt = Some p →
       surround V window (brt_list M spot_thres) p = Some [] →
       unable_to_correct ibrt p ∈ stdout s' ∧
       ∃ v0 v', loc_read V buf0 p = Some v0 ∧ loc_read R buf' p = Some v' ∧
                ∀ ridx, v' ridx = v0 ridx) ∧
    (∀ q sur,
       q ∈ brt_list M spot_thres →
       surround V window (brt_list M spot_thres) q = Some sur → sur ≠ [] →
       ∃ vq nb, loc_read R buf' q = Some vq ∧
                mapM (loc_read V buf0) sur = Some nb ∧
                ∀ ridx, length ridx = length (red_dim V M) →
                        vq ridx = astype (dtype V) (Qmean ((λ v : ndarray Q, v ridx) <$> nb))).
Proof.
  intros Hwf Hsum.
  destruct (correct_brightspot_post s V M window spot_thres inplace Hwf Hsum)
    as (s' & R & buf0 & buf' & surs & Hrun & Hbuf0 & Hbuf' & Hsurs & Hout & Hiso & Hmean).
  exists s', R, buf0, buf'. split; [done|]. split; [done|]. split; [done|].
  split; [|done]. intros ibrt p Hp Hsur. split.
  - rewrite Hout. apply elem_of_app. right. apply elem_of_app. right.
    apply elem_of_app. left. apply mapM_Some in Hsurs.
    apply unable_msg_printed; [done| |by eapply Forall2_length].
    destruct (Forall2_lookup_l _ _ _ _ _ Hsurs Hp) as (sur' & Hs' & Hsur').
    congruence.
  - apply Hiso; [|done]. by eapply list_elem_of_lookup_2.
Qed.

Lemma astype_uint8_floor (x : Q) :
  (0 <= x < 256)%Q → astype uint8 x = inject_Z (Qfloor x).
Proof.
  intros [H0 H1]. unfold astype. f_equal.
  assert (0 ≤ Qfloor x) as Hf0.
  { rewrite <-(Qfloor_Z 0). by apply Qfloor_resp_le. }
  assert (Qfloor x < 256) as Hf1.
  { rewrite Zlt_Qlt. eapply Qle_lt_trans; [apply Qfloor_le|exact H1]. }
  destruct x as [n d]. unfold Qfloor in *. cbn [Qnum Qden].
  assert (0 ≤ n) as Hn.
  { unfold Qle in H0. simpl in H0. lia. }
  rewrite Z.quot_div_nonneg by lia. by apply Z.mod_small.
Qed.

(** C1 (amended).  A call on well-formed inputs that passes the empty-mask
    guard returns a video in which every flagged point with a non-empty
    surrounding set holds, at every position along the axes the mask does
    not span, the arithmetic mean of the values that the input video held
    at the surrounding coordinates before the call (the heap of the entry
    state, also when the call writes in place), converted to the sample
    type of the video: the mean itself in a floating video, its integer
    part in an 8-bit video.  With three surrounding values 1, 2, 3 the
    corrected value is 2 in either. *)
Theorem corrected_value_is_the_mean_in_the_sample_type
    s V M window spot_thres inplace :
  wf_input s V M = true → 0 < sum M →
  ∃ s' R buf0 buf',
    correct_brightspot V M window spot_thres inplace s = (s', inr R) ∧
    heap s !! data V = Some buf0 ∧
    heap s' !! data R = Some buf' ∧
    ∀ p sur,
      p ∈ brt_list M spot_thres →
      surround V window (brt_list M spot_thres) p = Some sur → sur ≠ [] →
      ∃ vp nb,
        loc_read R buf' p = Some vp ∧
        mapM (loc_read V buf0) sur = Some nb ∧
        length nb = length sur ∧
        ∀ ridx, length ridx = length (red_dim V M) →
          let m := Qmean ((λ v : ndarray Q, v ridx) <$> nb) in
          (m * inject_Z (Z.of_nat (length sur))
           == Qsum ((λ v : ndarray Q, v ridx) <$> nb))%Q ∧
          vp ridx = astype (dtype V) m ∧
          (dtype V = floating → vp ridx = m) ∧
          (dtype V = uint8 → (0 <= m < 256)%Q → vp ridx = inject_Z (Qfloor m)) ∧
          ((λ v : ndarray Q, v ridx) <$> nb ≡ₚ [1; 2; 3]%Q → vp ridx = 2%Q).
Proof.
  intros Hwf Hsum.
  destruct (correct_brightspot_post s V M window spot_thres inplace Hwf Hsum)
    as (s' & R & buf0 & buf' & surs & Hrun & Hbuf0 & Hbuf' & Hsurs & Hout & Hiso & Hmean).
  exists s', R, buf0, buf'. split; [done|]. split; [done|]. split; [done|].
  intros p sur Hp Hsur Hne.
  destruct (Hmean p sur Hp Hsur Hne) as (vp & nb & Hvp & Hnb & Hval).
  assert (length nb = length sur) as Hlen.
  { apply mapM_Some in Hnb. symmetry. by eapply Forall2_length. }
  exists vp, nb. split; [done|]. split; [done|]. split; [done|].
  intros ridx Hridx m. rewrite (Hval ridx Hridx). fold m. split; [|split; [done|]].
  { unfold m. rewrite <-Hlen, <-(length_fmap (λ v : ndarray Q, v ridx) nb).
    apply Qmean_spec. destruct nb; [by destruct sur|done]. }
  split; [by intros ->|]. split.
  - intros -> Hm. by apply astype_uint8_floor.
  - intros H123. unfold m. rewrite (Qmean_123 _ H123). by destruct (dtype V).
Qed.

(** ** Claims on [detect_brightspot] *)

Lemma foldl_bind {A B C} (g : A → C → A) (f : B → list C) (l : list B) a :
  foldl g a (l ≫= f) = foldl (λ a x, foldl g a (f x)) a l.
Proof.
  revert a. induction l as [|x l IH]; intros a; [done|].
  cbn [mbind list_bind foldl]. by rewrite foldl_app, IH.
Qed.

Lemma foldl_ext_in {A B} (f g : A → B → A) (l : list B) a :
  (∀ a x, x ∈ l → f a x = g a x) → foldl f a l = foldl g a l.
Proof.
  revert a. induction l as [|x l IH]; intros a H; [done|]. simpl.
  rewrite H by left. apply IH. intros a' y Hy. apply H. by right.
Qed.

Section detect_brightspot.
Variables (varray : Video) (thres : option Q) (window step : Z).
Hypothesis Hwindow : 0 < window.

Let w := Z.to_nat window.

Lemma scan_width_tiles ih hsize spots :
  (hsize = w ↔ (w ≤ ih + 1)%nat) →
  np_mod (Z.of_nat ih) step = 0 →
  scan_width varray thres window step ih hsize spots =
  foldl (add_tile varray thres window) spots
    (iw ← seq 0 (width varray);
     if decide (np_mod (Z.of_nat ih) step = 0 ∧ np_mod (Z.of_nat iw) step = 0
                ∧ (w ≤ ih + 1)%nat ∧ (w ≤ iw + 1)%nat)
     then [(ih, iw)] else []).
Proof.
  intros Hh Hmod. unfold scan_width, rolling. rewrite foldl_bind, foldl_fmap.
  apply foldl_ext_in. intros a iw _. simpl. fold w.
  pose proof (eq_refl : w = Z.to_nat window) as Hw.
  destruct (decide (np_mod (Z.of_nat iw) step = 0 ∧ hsize = w
                    ∧ (iw + 1 - (iw + 1 - w))%nat = w)) as [(H1 & H2 & H3)|Hn].
  - rewrite decide_True; [done|]. repeat split; [done..|tauto|lia].
  - rewrite decide_False; [done|]. intros (_ & H1 & H2 & H3). apply Hn.
    repeat split; [done|tauto|lia].
Qed.

Lemma scan_height_tiles spots :
  scan_height varray thres window step spots =
  foldl (add_tile varray thres window) spots (full_tiles varray w step).
Proof.
  unfold scan_height, full_tiles. rewrite foldl_bind.
  unfold rolling at 1. rewrite foldl_fmap.
  apply foldl_ext_in. intros a ih _. cbn [fst snd].
  destruct (decide (np_mod (Z.of_nat ih) step = 0)) as [Hmod|Hmod].
  - apply scan_width_tiles; [lia|done].
  - induction (seq 0 (width varray)) as [|iw l IH]; [done|].
    cbn [mbind list_bind]. rewrite decide_False by tauto. apply IH.
Qed.

Lemma add_tile_pixel spots t h wd :
  (w ≤ t.1 + 1)%nat → (w ≤ t.2 + 1)%nat →
  add_tile varray thres window spots t [h; wd] =
  spots [h; wd] + (if flagged_in varray thres w t h wd then 1 else 0).
Proof.
  intros Hf1 Hf2. unfold add_tile, iadd_loc, flagged_in, covers. fold w.
  pose proof (eq_refl : w = Z.to_nat window) as Hw.
  rewrite (bool_decide_ext (Z.of_nat t.1 - window + 1 ≤ Z.of_nat h ≤ Z.of_nat t.1)
             (t.1 + 1 - w ≤ h ≤ t.1)%nat) by lia.
  rewrite (bool_decide_ext (Z.of_nat t.2 - window + 1 ≤ Z.of_nat wd ≤ Z.of_nat t.2)
             (t.2 + 1 - w ≤ wd ≤ t.2)%nat) by lia.
  destruct (bool_decide (t.1 + 1 - w ≤ h ≤ t.1)%nat) eqn:H1; [|cbn [andb]; lia].
  destruct (bool_decide (t.2 + 1 - w ≤ wd ≤ t.2)%nat) eqn:H2; [|cbn [andb]; lia].
  apply bool_decide_eq_true in H1. apply bool_decide_eq_true in H2. cbn [andb].
  replace (Z.to_nat (Z.of_nat h - (Z.of_nat t.1 - window + 1)))
    with (h - (t.1 + 1 - w))%nat by lia.
  replace (Z.to_nat (Z.of_nat wd - (Z.of_nat t.2 - window + 1)))
    with (wd - (t.2 + 1 - w))%nat by lia.
  done.
Qed.

Lemma foldl_add_tile_count tiles spots h wd :
  Forall (λ t, (w ≤ t.1 + 1)%nat ∧ (w ≤ t.2 + 1)%nat) tiles →
  foldl (add_tile varray thres window) spots tiles [h; wd] =
  spots [h; wd] +
  Z.of_nat (length (filter (λ t, flagged_in varray thres w t h wd = true) tiles)).
Proof.
  intros Hfull. revert spots.
  induction Hfull as [|t tiles [Hf1 Hf2] _ IH]; intros spots; simpl; [lia|].
  rewrite IH, add_tile_pixel by done.
  destruct (flagged_in varray thres w t h wd) eqn:E.
  - rewrite filter_cons_True by done. simpl length. lia.
  - rewrite filter_cons_False by (by rewrite E). lia.
Qed.

End detect_brightspot.

Lemma elem_of_full_tiles varray w step t :
  t ∈ full_tiles varray w step ↔
  (t.1 < height varray)%nat ∧ (t.2 < width varray)%nat ∧
  np_mod (Z.of_nat t.1) step = 0 ∧ np_mod (Z.of_nat t.2) step = 0 ∧
  (w ≤ t.1 + 1)%nat ∧ (w ≤ t.2 + 1)%nat.
Proof.
  unfold full_tiles. rewrite list_elem_of_bind. split.
  - intros (ih & (iw & Ht & Hiw%elem_of_seq)%list_elem_of_bind & Hih%elem_of_seq).
    destruct (decide _) as [(? & ? & ? & ?)|]; [|by apply elem_of_nil in Ht].
    apply list_elem_of_singleton in Ht as ->. simpl. repeat split; (done || lia).
  - destruct t as [ih iw]. simpl. intros (? & ? & ? & ? & ? & ?).
    exists ih. split; [|apply elem_of_seq; lia].
    apply list_elem_of_bind. exists iw. split; [|apply elem_of_seq; lia].
    rewrite decide_True by done. left.
Qed.


(** *** Ratios as real numbers *)






Lemma Qsquare_nonneg (u : Q) : (0 <= u * u)%Q.
Proof.
  destruct (Qlt_le_dec u 0) as [H|H].
  - assert (u * u == (- u) * (- u))%Q as -> by ring.
    apply Qmult_le_0_compat; lra.
  - by apply Qmult_le_0_compat.
Qed.





(** *** The code's comparisons are comparisons of real z-scores *)














(** *** Zero variance *)

Lemma Qsum_const c xs :
  Forall (λ x, x == c)%Q xs → (Qsum xs == c * inject_Z (Z.of_nat (length xs)))%Q.
Proof.
  induction 1 as [|x xs Hx _ IH].
  - simpl. ring.
  - cbn [Qsum foldr length]. fold (Qsum xs). rewrite IH, Hx.
    rewrite Nat2Z.inj_succ, <-Z.add_1_r, inject_Z_plus. ring.
Qed.

Lemma Qmean_const c xs :
  xs ≠ [] → Forall (λ x, x == c)%Q xs → (Qmean xs == c)%Q.
Proof.
  intros Hne Hc. unfold Qmean. rewrite Qred_correct, (Qsum_const c) by done.
  field. destruct xs; [done|]. simpl length.
  change 0%Q with (inject_Z 0). rewrite inject_Z_injective. lia.
Qed.

Lemma variance_const c xs :
  Forall (λ x, x == c)%Q xs → (variance xs == 0)%Q.
Proof.
  intros Hc. destruct (decide (xs = [])) as [->|Hne]; [done|].
  unfold variance. apply Qmean_const.
  - by destruct xs.
  - apply Forall_fmap, Forall_forall. intros x Hx. unfold compose.
    pose proof (proj1 (Forall_forall _ _) Hc x Hx) as Hxc. cbv beta in Hxc.
    rewrite (Qmean_const c xs Hne Hc), Hxc. ring.
Qed.

Section constant_frame.
Variables (varray : Video) (window step : Z) (c : Q).
Hypothesis Hwindow : 0 < window.
Hypothesis Hconst : ∀ h wd, (h < height varray)%nat → (wd < width varray)%nat →
                            (meanfm varray h wd == c)%Q.

Lemma tile_flags_constant thres t i j :
  t ∈ full_tiles varray (Z.to_nat window) step → (j < Z.to_nat window)%nat →
  tile_flags (meanfm varray) thres (Z.to_nat window) t.1 t.2 i j = false.
Proof.
  intros (? & ? & _ & _ & ? & ?)%elem_of_full_tiles Hj.
  unfold tile_flags, zscore.
  rewrite (proj2 (Qeq_bool_iff _ 0)); [done|].
  apply (variance_const c). unfold column.
  apply Forall_fmap, Forall_forall. intros i' Hi'%elem_of_seq. simpl.
  apply Hconst; lia.
Qed.

Lemma add_tile_constant thres spots t idx :
  t ∈ full_tiles varray (Z.to_nat window) step →
  add_tile varray thres window spots t idx = spots idx.
Proof.
  intros Ht. unfold add_tile, iadd_loc.
  destruct idx as [|h [|wd [|? ?]]]; try done.
  destruct (bool_decide (_ ≤ Z.of_nat h ≤ _)) eqn:H1; [|done].
  destruct (bool_decide (_ ≤ Z.of_nat wd ≤ _)) eqn:H2; [|done].
  cbn [andb]. apply bool_decide_eq_true in H2.
  rewrite tile_flags_constant; [lia|done|lia].
Qed.

Lemma foldl_add_tile_constant thres tiles spots idx :
  (∀ t, t ∈ tiles → t ∈ full_tiles varray (Z.to_nat window) step) →
  foldl (add_tile varray thres window) spots tiles idx = spots idx.
Proof.
  revert spots. induction tiles as [|t tiles IH]; intros spots Ht; [done|].
  simpl. rewrite IH by (intros; apply Ht; by right).
  apply add_tile_constant, Ht. left.
Qed.

End constant_frame.

(** C7.  When the time-mean frame is constant, [detect_brightspot] without
    a threshold returns a mask whose every entry is zero: each column of
    each tile has zero variance, its z-scores are NaN, and no comparison
    with NaN flags a pixel. *)
Theorem constant_frame_mask_is_zero varray window step c :
  nframe varray ≠ 0%nat → 0 < window →
  (∀ h wd, (h < height varray)%nat → (wd < width varray)%nat →
           (meanfm varray h wd == c)%Q) →
  ∃ mask,
    detect_brightspot varray None window step = inr mask ∧
    ∀ idx, xvalues mask idx = 0.
Proof.
  intros Hn Hwin Hconst. unfold detect_brightspot.
  rewrite decide_False by done. rewrite decide_False by lia.
  eexists. split; [reflexivity|]. intros idx. cbn [xvalues].
  rewrite scan_height_tiles by done.
  by apply (foldl_add_tile_constant varray window step c).
Qed.

(** C9.  A supplied threshold is the active threshold of every tile when
    it is not zero.  At a supplied threshold of zero the code departs from
    the claim: [not thres] holds for it, so every call with [thres = 0] is
    the call without threshold and uses the adaptive one.  On [ex_tile]
    with a window of 2 the tile ending at (1, 1) has the z-scores -1 and +1
    in each column; a threshold of 0 would flag its bottom row, and the
    call flags nothing. *)
Theorem zero_threshold_treated_as_absent :
  (∀ varray window step,
     detect_brightspot varray (Some 0%Q) window step =
     detect_brightspot varray None window step) ∧
  (∀ mean_z w, cur_thres (Some 0%Q) mean_z w = cur_thres None mean_z w) ∧
  (∀ t mean_z w, ¬ (t == 0)%Q → cur_thres (Some t) mean_z w = Some (t, 1%Q)) ∧
  values_at (detect_brightspot ex_tile (Some 0%Q) 2 1) (indices [3; 3]%nat)
    = Some [0; 0; 0; 0; 0; 0; 0; 0; 0] ∧
  values_at (detect_brightspot ex_tile None 2 1) (indices [3; 3]%nat)
    = Some [0; 0; 0; 0; 0; 0; 0; 0; 0] ∧
  (let mean_z := zscore (λ i j, meanfm ex_tile i j) 2 in
   zgt (mean_z 1%nat 0%nat) (Some (0%Q, 1%Q)) = true ∧
   zgt (mean_z 1%nat 0%nat) (cur_thres (Some 0%Q) mean_z 2) = false).
Proof.
  split; [reflexivity|]. split; [reflexivity|]. split.
  - intros t mean_z w Ht. unfold cur_thres.
    destruct (Qeq_bool t 0) eqn:E; [|done]. by apply Qeq_bool_iff in E.
  - repeat split; vm_compute; reflexivity.
Qed.

(** ** Claims on [detect_brightspot_perframe] *)

Lemma Qlt_bool_iff x y : Qlt_bool x y = true ↔ (x < y)%Q.
Proof.
  unfold Qlt_bool. rewrite negb_true_iff, <-not_true_iff_false, Qle_bool_iff.
  split; [apply Qnot_le_lt|apply Qlt_not_le].
Qed.

Lemma StronglySorted_lookup_le l i j x y :
  StronglySorted Qle l → (i ≤ j)%nat →
  l !! i = Some x → l !! j = Some y → (x <= y)%Q.
Proof.
  intros Hs. revert i j x y.
  induction Hs as [|a l Hs IH Ha]; intros i j x y Hij; [done|].
  destruct i as [|i], j as [|j]; simpl; try lia.
  - intros [= ->] [= ->]. apply Qle_refl.
  - intros [= ->] Hy. rewrite Forall_forall in Ha. apply Ha.
    by eapply list_elem_of_lookup_2.
  - apply IH. lia.
Qed.

#[local] Instance Qle_total : Total Qle.
Proof.
  intros x y. destruct (Qlt_le_dec x y) as [H|H]; [left; by apply Qlt_le_weak|by right].
Qed.

#[local] Instance Qle_transitive : Transitive Qle.
Proof. intros x y z. apply Qle_trans. Qed.

Lemma merge_sort_Qle_sorted xs : StronglySorted Qle (merge_sort Qle xs).
Proof. apply StronglySorted_merge_sort; apply _. Qed.

Lemma quantile_position q (n : nat) :
  (0 <= q <= 1)%Q → (0 < n)%nat →
  let pos := (q * inject_Z (Z.of_nat n - 1))%Q in
  0 ≤ Qfloor pos ∧ Qfloor pos ≤ Qceiling pos ∧ Qceiling pos ≤ Z.of_nat n - 1.
Proof.
  intros [Hq0 Hq1] Hn pos.
  assert (0 <= inject_Z (Z.of_nat n - 1))%Q as Hm.
  { change 0%Q with (inject_Z 0). rewrite <-Zle_Qle. lia. }
  assert (0 <= pos)%Q as Hp0 by (by apply Qmult_le_0_compat).
  assert (pos <= inject_Z (Z.of_nat n - 1))%Q as Hp1.
  { unfold pos. rewrite <-(Qmult_1_l (inject_Z (Z.of_nat n - 1))) at 2.
    by apply Qmult_le_compat_r. }
  split; [|split].
  - rewrite <-(Qfloor_Z 0). by apply Qfloor_resp_le.
  - rewrite Zle_Qle. apply Qle_floor_ceiling.
  - rewrite <-(Qceiling_Z (Z.of_nat n - 1)). by apply Qceiling_resp_le.
Qed.

Lemma quantile_lower_spec q xs :
  (0 <= q <= 1)%Q → xs ≠ [] →
  ∃ v, quantile_lower q xs = Some v ∧ is_lower_quantile q xs v ∧ v ∈ xs.
Proof.
  intros Hq Hne.
  pose proof (merge_sort_Permutation Qle xs) as Hperm.
  assert (length (merge_sort Qle xs) = length xs) as Hlen
    by (by apply Permutation_length).
  destruct (quantile_position q (length xs) Hq) as (H0 & H1 & H2).
  { destruct xs; [done|simpl; lia]. }
  unfold quantile_lower, is_lower_quantile.
  destruct (lookup_lt_is_Some_2 (merge_sort Qle xs)
              (Z.to_nat (Qfloor (q * inject_Z (Z.of_nat (length xs) - 1))))) as [v Hv];
    [lia|].
  destruct (lookup_lt_is_Some_2 (merge_sort Qle xs)
              (Z.to_nat (Qceiling (q * inject_Z (Z.of_nat (length xs) - 1))))) as [u Hu];
    [lia|].
  exists v. split; [done|]. split.
  - exists (merge_sort Qle xs). split; [done|]. split; [apply merge_sort_Qle_sorted|].
    split; [done|]. exists u. split; [done|].
    eapply StronglySorted_lookup_le; [apply merge_sort_Qle_sorted| |done..]. lia.
  - rewrite <-Hperm. by eapply list_elem_of_lookup_2.
Qed.

Lemma elem_of_frame_samples varray f h w :
  (h < height varray)%nat → (w < width varray)%nat →
  pix varray f h w ∈ frame_samples varray f.
Proof.
  intros Hh Hw. unfold frame_samples. apply list_elem_of_bind.
  exists h. split; [|apply elem_of_seq; lia].
  apply list_elem_of_fmap. exists w. split; [done|apply elem_of_seq; lia].
Qed.

Lemma list_bind_ext_in {A B} (f g : A → list B) (l : list A) :
  (∀ x, x ∈ l → f x = g x) → l ≫= f = l ≫= g.
Proof.
  induction l as [|x l IH]; intros H; [done|].
  cbn [mbind list_bind]. rewrite H by left. f_equal. apply IH.
  intros y Hy. apply H. by right.
Qed.

Lemma frame_samples_ext varray varray' f :
  height varray' = height varray → width varray' = width varray →
  (∀ h w, (h < height varray)%nat → (w < width varray)%nat →
          pix varray' f h w = pix varray f h w) →
  frame_samples varray' f = frame_samples varray f.
Proof.
  intros Hh Hw Hpix. unfold frame_samples. rewrite Hh, Hw.
  apply list_bind_ext_in. intros h Hhr%elem_of_seq.
  apply list_fmap_ext. intros i w Hwr%lookup_seq. apply Hpix; lia.
Qed.

Lemma mapM_perframe_task varray thres (l : list nat) :
  (0 <= thres <= 1)%Q →
  mapM (perframe_task varray thres) l =
  Some ((λ f h w, match quantile_lower thres (frame_samples varray f) with
                  | Some qt => Qlt_bool qt (pix varray f h w)
                  | None => false
                  end) <$> l).
Proof.
  intros [H0 H1]. apply mapM_Some, Forall2_fmap_r, Forall_Forall2_diag, Forall_forall.
  intros f _. unfold perframe_task.
  by rewrite (proj2 (Qle_bool_iff 0 thres)), (proj2 (Qle_bool_iff thres 1)) by done.
Qed.

Lemma detect_brightspot_perframe_run varray thres :
  (0 <= thres <= 1)%Q → nframe varray ≠ 0%nat →
  ∃ mask,
    detect_brightspot_perframe varray thres = inr mask ∧
    xdims mask = ["frame"; "height"; "width"] ∧
    xcoords mask = [seqZ 0 (Z.of_nat (nframe varray));
                    seqZ 0 (Z.of_nat (height varray));
                    seqZ 0 (Z.of_nat (width varray))] ∧
    ∀ f h w, (f < nframe varray)%nat →
      xvalues mask [f; h; w] =
      match quantile_lower thres (frame_samples varray f) with
      | Some qt => if Qlt_bool qt (pix varray f h w) then 1 else 0
      | None => 0
      end.
Proof.
  intros Hq Hn. unfold detect_brightspot_perframe.
  rewrite (mapM_perframe_task _ _ _ Hq).
  destruct (nframe varray) as [|n] eqn:En; [done|].
  rewrite <-En. remember (_ <$> seq 0 (nframe varray)) as spots eqn:Hspots.
  destruct spots as [|sp spots]; [by rewrite En in Hspots|].
  eexists. split; [reflexivity|]. split; [done|]. split; [done|].
  intros f h w Hf. cbn [xvalues]. rewrite Hspots, list_lookup_fmap.
  rewrite (proj2 (lookup_seq 0 (nframe varray) f f)) by (split; [done|lia]).
  simpl. by destruct (quantile_lower _ _).
Qed.

(** C5.  For a quantile in [0, 1] and a video with at least one frame,
    [detect_brightspot_perframe] returns a mask over (frame, height, width)
    in which a pixel is flagged exactly when its value is strictly above
    the quantile of its own frame under the lower rule: the lower of the
    two sorted samples that bracket the quantile, hence one of the frame's
    samples.  The flags of a frame depend on that frame's samples only.  On
    the samples 1, 2, 3, 4 with quantile 1/2 the threshold is 2 and the
    pixels valued 3 and 4 are the flagged ones. *)
Theorem perframe_flags_above_lower_quantile varray thres :
  (0 <= thres <= 1)%Q → nframe varray ≠ 0%nat →
  (∃ mask,
    detect_brightspot_perframe varray thres = inr mask ∧
    xdims mask = ["frame"; "height"; "width"] ∧
    (∀ f,
       (f < nframe varray)%nat → (0 < height varray)%nat → (0 < width varray)%nat →
       ∃ qt, quantile_lower thres (frame_samples varray f) = Some qt ∧
             is_lower_quantile thres (frame_samples varray f) qt ∧
             qt ∈ frame_samples varray f ∧
             ∀ h w, (h < height varray)%nat → (w < width varray)%nat →
               (xvalues mask [f; h; w] = 1 ∧ (qt < pix varray f h w)%Q) ∨
               (xvalues mask [f; h; w] = 0 ∧ (pix varray f h w <= qt)%Q)) ∧
    (∀ varray' mask' f,
       (f < nframe varray)%nat → (f < nframe varray')%nat →
       height varray' = height varray → width varray' = width varray →
       (∀ h w, (h < height varray)%nat → (w < width varray)%nat →
               pix varray' f h w = pix varray f h w) →
       detect_brightspot_perframe varray' thres = inr mask' →
       ∀ h w, (h < height varray)%nat → (w < width varray)%nat →
              xvalues mask' [f; h; w] = xvalues mask [f; h; w])) ∧
  quantile_lower (1 # 2) [1; 2; 3; 4]%Q = Some 2%Q ∧
  frame_samples ex_v1234 0 = [1; 2; 3; 4]%Q ∧
  values_at (detect_brightspot_perframe ex_v1234 (1 # 2)) (indices [1; 2; 2]%nat)
    = Some [0; 0; 1; 1].
Proof.
  intros Hq Hn. split; [|by vm_compute].
  destruct (detect_brightspot_perframe_run varray thres Hq Hn)
    as (mask & Hrun & Hdims & _ & Hval).
  exists mask. split; [done|]. split; [done|]. split.
  - intros f Hf Hh0 Hw0.
    destruct (quantile_lower_spec thres (frame_samples varray f) Hq)
      as (qt & Hqt & Hspec & Hin).
    { intros Hnil. pose proof (elem_of_frame_samples varray f 0 0 Hh0 Hw0) as Hp.
      rewrite Hnil in Hp. by apply elem_of_nil in Hp. }
    exists qt. split; [done|]. split; [done|]. split; [done|].
    intros h w Hh Hw. rewrite Hval, Hqt by done.
    destruct (Qlt_bool qt (pix varray f h w)) eqn:E.
    + left. split; [done|]. by apply Qlt_bool_iff.
    + right. split; [done|]. apply Qnot_lt_le. intros Hlt%Qlt_bool_iff. congruence.
  - intros varray' mask' f Hf Hf' Hh Hw Hpix Hrun' h w Hhr Hwr.
    destruct (detect_brightspot_perframe_run varray' thres Hq)
      as (mask'' & Hrun'' & _ & _ & Hval'); [lia|].
    assert (mask'' = mask') as -> by congruence.
    rewrite Hval, Hval' by done.
    by rewrite (frame_samples_ext varray varray' f Hh Hw Hpix), Hpix.
Qed.

(** * Further properties *)

(** ** [correct_brightspot]: buffers, names and errors *)

Lemma correct_brightspot_any_name s V M window spot_thres (inplace : bool) :
  wf_input s V M = true → 0 < sum M →
  ∃ buf0 s1 buf',
    heap s !! data V = Some buf0 ∧
    heap s1 = <[(if inplace then data V else length (heap s)) := buf']>
                (if inplace then heap s else heap s ++ [buf0]) ∧
    corrected V window (brt_list M spot_thres) (brt_list M spot_thres) buf0 buf' ∧
    ∀ o,
      correct_brightspot (MkDataArray o (dims V) (coords V) (dtype V) (data V))
        M window spot_thres inplace s =
      rename_suffix
        (MkDataArray o (dims V) (coords V) (dtype V)
           (if inplace then data V else length (heap s)))
        o "_DeSpotted" s1.
Proof.
  intros Hwf Hsum.
  pose proof (wf_input_unpack _ _ _ Hwf)
    as ([buf0 Hbuf0] & _ & HndV & HlenV & HndM & HlenM & Hsub).
  set (brt := brt_list M spot_thres).
  set (a := if inplace then data V else length (heap s)).
  assert (is_Some (mapM (surround V window brt) brt)) as [surs Hsurs].
  { apply mapM_is_Some, Forall_forall. intros q Hq. apply surround_is_Some.
    intros kv Hkv.
    pose proof (brt_list_valid _ _ _ _ _ Hwf Hq) as Hv.
    eapply Forall_forall in Hv as (cs & -> & _); [eauto|done]. }
  set (s1 := State (if inplace then heap s else heap s ++ [buf0])
                   (stdout s ++ [correcting_brightspot])).
  assert (heap s1 !! a = Some buf0) as Hbuf1.
  { subst s1 a. simpl. destruct inplace; [done|].
    rewrite lookup_app_r by lia. by rewrite Nat.sub_diag. }
  destruct (correct_loop (MkDataArray None (dims V) (coords V) (dtype V) a) window brt (xdims M)
              buf0 (length brt) HlenV HndV HndM)
    with (todo := brt) (surs := surs) (done := @nil HashableDict)
         (k := 0%nat) (s := s1) (buf := buf0)
    as (s2 & buf' & Hrun & Hheap & Hout & Hcor).
  { intros q Hq. by eapply brt_list_keys. }
  { intros q Hq. exact (brt_list_valid s V M spot_thres q Hwf Hq). }
  { done. }
  { by apply mapM_Some. }
  { done. }
  { apply corrected_nil. }
  exists buf0, (State (heap s2) (stdout s2 ++ [brightspot_correction_done])), buf'.
  split; [done|]. split; [simpl; by rewrite Hheap|]. split; [apply Hcor|].
  intros o. unfold correct_brightspot.
  erewrite bind_inr by reflexivity.
  rewrite bool_decide_eq_true_2 by done. cbn [negb].
  set (Vo := MkDataArray o (dims V) (coords V) (dtype V) (data V)).
  assert ((if negb inplace then copy Vo else mret Vo)
            (State (heap s) (stdout s ++ [correcting_brightspot]))
          = (s1, inr (MkDataArray o (dims V) (coords V) (dtype V) a))) as Hcopy.
  { subst s1 a Vo. destruct inplace; simpl.
    - done.
    - unfold copy. erewrite bind_inr by (unfold values; simpl; by rewrite Hbuf0).
      by erewrite bind_inr by reflexivity. }
  erewrite bind_inr by apply Hcopy.
  change (surround (MkDataArray o (dims V) (coords V) (dtype V) a)) with (surround V). fold brt.
  rewrite Hsurs. simpl lift_KeyError.
  erewrite bind_inr by reflexivity.
  erewrite bind_inr by exact Hrun.
  erewrite bind_inr by reflexivity.
  reflexivity.
Qed.

(** X1.  On well-formed inputs past the empty-mask guard the returned
    object carries the input's name with the suffix, and the input's
    dimensions, coordinates and sample type.  With [inplace] it shares the input's
    buffer: no buffer is allocated and no other buffer is touched.
    Without it the result lies in a buffer allocated by the call and
    every buffer that existed before, the input's among them, is as it
    was. *)
Theorem inplace_decides_the_buffer_written s V M window spot_thres inplace :
  wf_input s V M = true → 0 < sum M →
  ∃ s' R nm,
    correct_brightspot V M window spot_thres inplace s = (s', inr R) ∧
    name V = Some nm ∧ name R = Some (nm +:+ "_DeSpotted") ∧
    dims R = dims V ∧ coords R = coords V ∧ dtype R = dtype V ∧
    (inplace = true →
       data R = data V ∧ length (heap s') = length (heap s) ∧
       ∀ a, a ≠ data V → heap s' !! a = heap s !! a) ∧
    (inplace = false →
       data R = length (heap s) ∧ length (heap s') = S (length (heap s)) ∧
       ∀ a, (a < length (heap s))%nat → heap s' !! a = heap s !! a).
Proof.
  intros Hwf Hsum.
  destruct (correct_brightspot_run s V M window spot_thres inplace Hwf Hsum)
    as (buf0 & nm & surs & s' & buf' & Hbuf0 & Hnm & _ & Hrun & Hheap & _).
  eexists s', _, nm. split; [exact Hrun|]. cbn [name dims coords dtype data].
  split; [done|]. split; [done|]. split; [done|]. split; [done|]. split; [done|]. split.
  - intros ->. rewrite Hheap. split; [done|]. split; [by rewrite length_insert|].
    intros a Ha. by rewrite list_lookup_insert_ne.
  - intros ->. rewrite Hheap. split; [done|]. split.
    + rewrite length_insert, length_app. simpl. lia.
    + intros a Ha. rewrite list_lookup_insert_ne by lia. by rewrite lookup_app_l.
Qed.

(** X2.  A video without a name goes through the whole correction and
    fails at the very end, where the suffix is added to its name: the call
    raises TypeError in the state in which the call on the named video
    returns.  In place, the caller's buffer has been corrected by the
    time of the error. *)
Theorem unnamed_video_fails_after_the_corrections s V M window spot_thres (inplace : bool) :
  wf_input s V M = true → 0 < sum M →
  ∃ s' R,
    correct_brightspot V M window spot_thres inplace s = (s', inr R) ∧
    correct_brightspot (unnamed V) M window spot_thres inplace s = (s', inl TypeError).
Proof.
  intros Hwf Hsum.
  destruct (correct_brightspot_any_name s V M window spot_thres inplace Hwf Hsum)
    as (buf0 & s1 & buf' & _ & _ & _ & Hrun).
  pose proof (wf_input_unpack _ _ _ Hwf) as (_ & [nm Hnm] & _).
  exists s1, (MkDataArray (Some (nm +:+ "_DeSpotted")) (dims V) (coords V) (dtype V)
                (if inplace then data V else length (heap s))).
  split.
  - specialize (Hrun (name V)). destruct V as [o d c a]. simpl in *. subst o.
    rewrite Hrun. reflexivity.
  - unfold unnamed. by rewrite (Hrun None).
Qed.

Lemma coords_of_None dims coords d : d ∉ dims → coords_of dims coords d = None.
Proof.
  revert coords. induction dims as [|d' dims IH]; intros [|c coords] Hd; simpl; try done.
  apply not_elem_of_cons in Hd as [Hne Hd]. rewrite decide_False by done. by apply IH.
Qed.

Lemma mapM_None {A B} (f : A → option B) (l : list A) x :
  x ∈ l → f x = None → mapM f l = None.
Proof.
  intros Hx Hf. destruct (mapM f l) as [k|] eqn:E; [|done].
  assert (is_Some (mapM f l)) as Hs%mapM_is_Some by eauto.
  rewrite Forall_forall in Hs. destruct (Hs x Hx) as [y Hy]. congruence.
Qed.

(** X3.  A mask with a dimension that the video does not have is refused
    with a KeyError as soon as there is a flagged point to correct: the
    surrounding coordinates of the first point cannot be listed.  Nothing
    has been written by then; only the first line is printed, and without
    [inplace] the copy has been made. *)
Theorem mask_axis_unknown_to_the_video_is_a_KeyError
    s V M window spot_thres (inplace : bool) buf0 p d :
  heap s !! data V = Some buf0 →
  length (xcoords M) = length (xdims M) →
  0 < sum M →
  p ∈ brt_list M spot_thres →
  d ∈ xdims M → d ∉ dims V →
  correct_brightspot V M window spot_thres inplace s =
    (State (if inplace then heap s else heap s ++ [buf0])
           (stdout s ++ [correcting_brightspot]),
     inl KeyError).
Proof.
  intros Hbuf0 Hlen Hsum Hp Hd HdV. unfold correct_brightspot.
  erewrite bind_inr by reflexivity.
  rewrite bool_decide_eq_true_2 by done. cbn [negb].
  set (s1 := State (if inplace then heap s else heap s ++ [buf0])
                   (stdout s ++ [correcting_brightspot])).
  set (varr_ds := MkDataArray (name V) (dims V) (coords V) (dtype V)
                    (if inplace then data V else length (heap s))).
  assert ((if negb inplace then copy V else mret V)
            (State (heap s) (stdout s ++ [correcting_brightspot])) = (s1, inr varr_ds)) as Hcopy.
  { subst s1 varr_ds. destruct inplace; simpl.
    - unfold mret, M_ret. by destruct V.
    - unfold copy. erewrite bind_inr by (unfold values; simpl; by rewrite Hbuf0).
      by erewrite bind_inr by reflexivity. }
  erewrite bind_inr by apply Hcopy.
  rewrite (mapM_None _ _ p); [done|done|].
  unfold surround.
  assert (d ∈ p.*1) as ([d' x] & Hdx & Hin)%list_elem_of_fmap.
  { by rewrite (brt_list_keys M spot_thres p Hlen Hp). }
  simpl in Hdx. subst d'.
  rewrite (mapM_None _ _ (d, x)); [done|done|].
  simpl. by rewrite coords_of_None.
Qed.

Lemma in_box_nonpositive_window V window p c :
  window ≤ 0 → in_box V window p c → c = p.
Proof.
  intros Hw. induction 1 as [|[pd px] [cd cx] p' c' (Hk & Hr & _) _ IH]; [done|].
  simpl in *. subst. f_equal. f_equal. lia.
Qed.

Lemma surround_nonpositive_window V window brt p sur :
  window ≤ 0 → p ∈ brt → surround V window brt p = Some sur → sur = [].
Proof.
  intros Hw Hp [_ Hsur]%surround_spec. destruct sur as [|c sur]; [done|]. exfalso.
  destruct (proj1 (Hsur c)) as [Hbox Hn]; [left|].
  apply Hn. by rewrite (in_box_nonpositive_window _ _ _ _ Hw Hbox).
Qed.

(** X4.  With a window of zero or less the box around a flagged point
    holds at most the point itself, so no flagged point has a surrounding
    coordinate: the call returns normally, every cell of the result holds
    its entry value, and every flagged point is reported as impossible to
    correct. *)
Theorem nonpositive_window_corrects_nothing s V M window spot_thres inplace :
  wf_input s V M = true → 0 < sum M → window ≤ 0 →
  ∃ s' R buf0 buf',
    correct_brightspot V M window spot_thres inplace s = (s', inr R) ∧
    heap s !! data V = Some buf0 ∧
    heap s' !! data R = Some buf' ∧
    (∀ idx, buf' idx = buf0 idx) ∧
    (∀ ibrt p, brt_list M spot_thres !! ibrt = Some p →
               unable_to_correct ibrt p ∈ stdout s').
Proof.
  intros Hwf Hsum Hw.
  destruct (correct_brightspot_run s V M window spot_thres inplace Hwf Hsum)
    as (buf0 & nm & surs & s' & buf' & Hbuf0 & Hnm & Hsurs & Hrun & Hheap & Hout & Hi & _).
  eexists s', _, buf0, buf'. split; [exact Hrun|]. split; [done|].
  split; [rewrite Hheap; by apply correct_brightspot_result_buffer|]. split.
  - intros idx. apply Hi. intros q sur ixq Hq Hsur Hne.
    by rewrite (surround_nonpositive_window _ _ _ _ _ Hw Hq Hsur) in Hne.
  - intros ibrt p Hp. rewrite Hout.
    apply elem_of_app. right. apply elem_of_app. right. apply elem_of_app. left.
    apply mapM_Some in Hsurs.
    apply unable_msg_printed; [done| |by eapply Forall2_length].
    destruct (Forall2_lookup_l _ _ _ _ _ Hsurs Hp) as (sur & Hs & Hsur).
    rewrite Hs. f_equal.
    eapply surround_nonpositive_window; [done| |done]. by eapply list_elem_of_lookup_2.
Qed.

Lemma wf_input_handle s s' V M nm a :
  wf_input s V M = true → is_Some (heap s' !! a) →
  wf_input s' (MkDataArray (Some nm) (dims V) (coords V) (dtype V) a) M = true.
Proof.
  unfold wf_input. cbn [name dims coords data]. intros H Hlive.
  rewrite !andb_true_iff in *.
  destruct H as [[[[[[[_ _] H3] H4] H5] H6] H7] H8].
  repeat split; try done; apply bool_decide_eq_true; eauto.
Qed.

(** X5.  Correcting in place a second time with the same mask changes
    nothing more: the surrounding coordinates of a flagged point are never
    flagged themselves, so the first call left them as they were and the
    second call computes the same means. *)
Theorem correcting_twice_changes_nothing_more s V M window spot_thres :
  wf_input s V M = true → 0 < sum M →
  ∃ s1 R1 s2 R2 buf1 buf2,
    correct_brightspot V M window spot_thres true s = (s1, inr R1) ∧
    correct_brightspot R1 M window spot_thres true s1 = (s2, inr R2) ∧
    data R1 = data V ∧ data R2 = data V ∧
    heap s1 !! data V = Some buf1 ∧
    heap s2 !! data V = Some buf2 ∧
    ∀ idx, buf2 idx = buf1 idx.
Proof.
  intros Hwf Hsum.
  destruct (correct_brightspot_run s V M window spot_thres true Hwf Hsum)
    as (buf0 & nm & surs & s1 & buf1 & Hbuf0 & Hnm & Hsurs & Hrun1 & Hheap1 & _ & Hi1 & Hii1).
  set (R1 := MkDataArray (Some (nm +:+ "_DeSpotted")) (dims V) (coords V) (dtype V) (data V)) in *.
  assert (heap s1 !! data V = Some buf1) as Hbuf1.
  { rewrite Hheap1. by apply (correct_brightspot_result_buffer s V buf0 buf1 true). }
  assert (wf_input s1 R1 M = true) as Hwf1 by (eapply wf_input_handle; eauto).
  destruct (correct_brightspot_run s1 R1 M window spot_thres true Hwf1 Hsum)
    as (buf1' & nm' & surs' & s2 & buf2 & Hbuf1' & _ & _ & Hrun2 & Hheap2 & _ & Hi2 & Hii2).
  cbn [dims coords data R1] in Hrun2, Hheap2, Hbuf1'.
  assert (buf1' = buf1) as -> by congruence.
  pose proof (wf_input_unpack _ _ _ Hwf) as (_ & _ & HndV & HlenV & HndM & HlenM & _).
  eexists s1, R1, s2, _, buf1, buf2.
  split; [exact Hrun1|]. split; [exact Hrun2|]. split; [done|]. split; [done|].
  split; [done|]. split.
  { rewrite Hheap2. by apply (correct_brightspot_result_buffer s1 V buf1 buf2 true). }
  intros idx.
  assert (Decision (buf2 idx = buf1 idx)) as [|Hne]; [|done|].
  { destruct (buf2 idx) as [n2 d2], (buf1 idx) as [n1 d1].
    destruct (decide (n2 = n1)), (decide (d2 = d1));
      [left; congruence|right; congruence..]. }
  exfalso. apply Hne, Hi2. intros q sur ixq Hq Hsur Hnes Hix.
  destruct (matches ixq idx) eqn:Hm; [|done].
  exfalso. apply Hne.
  destruct (Hii2 q sur ixq idx Hq Hsur Hnes Hix Hm) as (stack2 & Hst2 & ->).
  destruct (Hii1 q sur ixq idx Hq Hsur Hnes Hix Hm) as (stack1 & Hst1 & ->).
  change (dtype R1) with (dtype V). f_equal. unfold mean_sample. f_equal.
  apply (mapM_loc_read_ext V buf1 buf0 sur); [exact Hst2|exact Hst1|].
  intros c ix Hc Hixc. apply Hi1. intros q' sur' ixq' Hq' _ _ Hix'.
  apply (sur_not_flagged V window (brt_list M spot_thres) (xdims M) HlenV HndM)
    with (p := q) (sur := sur) (c := c) (q := q'); try done.
  intros r Hr. by eapply brt_list_keys.
Qed.

(** ** [detect_brightspot]: windows, strides and frames *)

(** X6.  When the window is larger than the frame is high or wide, no
    position has a full tile: the mask is all zeros, whatever the
    threshold. *)
Theorem window_larger_than_the_frame_flags_nothing varray thres window step :
  nframe varray ≠ 0%nat →
  Z.of_nat (height varray) < window ∨ Z.of_nat (width varray) < window →
  ∃ mask,
    detect_brightspot varray thres window step = inr mask ∧
    ∀ idx, xvalues mask idx = 0.
Proof.
  intros Hn Hbig. unfold detect_brightspot.
  rewrite decide_False by done. rewrite decide_False by lia.
  eexists. split; [reflexivity|]. intros idx. cbn [xvalues].
  rewrite scan_height_tiles by lia.
  rewrite (elem_of_nil_inv (full_tiles varray (Z.to_nat window) step)); [done|].
  intros t Ht%elem_of_full_tiles. lia.
Qed.

Lemma add_tile_unflagged varray thres window spots t idx :
  (∀ i j, tile_flags (meanfm varray) thres (Z.to_nat window) t.1 t.2 i j = false) →
  add_tile varray thres window spots t idx = spots idx.
Proof.
  intros Hflags. unfold add_tile, iadd_loc.
  destruct idx as [|h [|wd [|? ?]]]; try done.
  destruct (bool_decide (_ ≤ Z.of_nat h ≤ _) && bool_decide (_ ≤ Z.of_nat wd ≤ _)); [|done].
  rewrite Hflags. lia.
Qed.

Lemma foldl_add_tile_unflagged varray thres window tiles spots idx :
  (∀ t i j, t ∈ tiles →
     tile_flags (meanfm varray) thres (Z.to_nat window) t.1 t.2 i j = false) →
  foldl (add_tile varray thres window) spots tiles idx = spots idx.
Proof.
  revert spots. induction tiles as [|t tiles IH]; intros spots Ht; [done|].
  simpl. rewrite IH by (intros; apply Ht; by right).
  apply add_tile_unflagged. intros i j. apply Ht. left.
Qed.

(** X7.  With a window of one pixel every tile is a single sample: its
    column has zero variance, the z-score is NaN, and nothing is flagged,
    with or without a threshold. *)
Theorem window_of_one_pixel_flags_nothing varray thres step :
  nframe varray ≠ 0%nat →
  ∃ mask,
    detect_brightspot varray thres 1 step = inr mask ∧
    ∀ idx, xvalues mask idx = 0.
Proof.
  intros Hn. unfold detect_brightspot.
  rewrite decide_False by done. rewrite decide_False by lia.
  eexists. split; [reflexivity|]. intros idx. cbn [xvalues].
  rewrite scan_height_tiles by lia.
  apply foldl_add_tile_unflagged. intros t i j _.
  unfold tile_flags, zscore. change (Z.to_nat 1) with 1%nat.
  rewrite (proj2 (Qeq_bool_iff _ 0)); [done|].
  unfold column. cbn [seq fmap list_fmap].
  apply (variance_const (meanfm varray (t.1 + 1 - 1 + 0) (t.2 + 1 - 1 + j))).
  by repeat constructor.
Qed.

Lemma np_mod_multiple x k step :
  k ≠ 0 → np_mod x (k * step) = 0 → np_mod x step = 0.
Proof.
  intros Hk. unfold np_mod.
  destruct (decide (step = 0)) as [->|Hs]; [done|].
  rewrite decide_False by lia.
  intros [c Hc]%Z.mod_divide; [|lia].
  apply Z.mod_divide; [done|]. exists (c * k). lia.
Qed.

Lemma bind_filter_length_le {A B} (P : B → Prop) `{∀ x, Decision (P x)}
    (f g : A → list B) (l : list A) :
  (∀ x, x ∈ l → (length (filter P (f x)) ≤ length (filter P (g x)))%nat) →
  (length (filter P (l ≫= f)) ≤ length (filter P (l ≫= g)))%nat.
Proof.
  induction l as [|x l IH]; intros Hfg; [done|].
  cbn [mbind list_bind]. rewrite !filter_app, !length_app.
  assert (length (filter P (f x)) ≤ length (filter P (g x)))%nat by (apply Hfg; left).
  assert (length (filter P (l ≫= f)) ≤ length (filter P (l ≫= g)))%nat; [|lia].
  apply IH. intros y Hy. apply Hfg. by right.
Qed.

(** X8.  A stride that is a multiple of another processes a part of the
    other's tiles: with the threshold given, no pixel has more votes under
    the coarser stride [k * step] than under [step]. *)
Theorem coarser_stride_never_adds_votes varray thres window step k :
  nframe varray ≠ 0%nat → 0 < window → k ≠ 0 →
  ∃ fine coarse,
    detect_brightspot varray thres window step = inr fine ∧
    detect_brightspot varray thres window (k * step) = inr coarse ∧
    ∀ h wd, 0 ≤ xvalues coarse [h; wd] ≤ xvalues fine [h; wd].
Proof.
  intros Hn Hwin Hk. unfold detect_brightspot.
  rewrite !decide_False by (done || lia).
  eexists _, _. split; [reflexivity|]. split; [reflexivity|].
  intros h wd. cbn [xvalues]. rewrite !scan_height_tiles by done.
  assert (∀ st, Forall (λ t, (Z.to_nat window ≤ t.1 + 1)%nat ∧ (Z.to_nat window ≤ t.2 + 1)%nat)
                       (full_tiles varray (Z.to_nat window) st)) as Hfull.
  { intros st. apply Forall_forall. intros t Ht%elem_of_full_tiles. tauto. }
  rewrite !(foldl_add_tile_count _ _ _ Hwin) by apply Hfull.
  split; [lia|]. apply inj_le.
  unfold full_tiles. apply bind_filter_length_le. intros ih _.
  apply bind_filter_length_le. intros iw _.
  destruct (decide (np_mod (Z.of_nat ih) (k * step) = 0 ∧ _)) as [(H1 & H2 & H3 & H4)|];
    [|simpl; lia].
  rewrite decide_True; [done|].
  split; [by eapply np_mod_multiple|]. split; [by eapply np_mod_multiple|done].
Qed.





Lemma add_tile_ext varray varray' thres window spots spots' t idx :
  0 < window →
  (Z.to_nat window ≤ t.1 + 1)%nat → (Z.to_nat window ≤ t.2 + 1)%nat →
  (∀ i j, (i < Z.to_nat window)%nat → (j < Z.to_nat window)%nat →
     tile_flags (meanfm varray') thres (Z.to_nat window) t.1 t.2 i j =
     tile_flags (meanfm varray) thres (Z.to_nat window) t.1 t.2 i j) →
  spots' idx = spots idx →
  add_tile varray' thres window spots' t idx = add_tile varray thres window spots t idx.
Proof.
  intros Hwin Hf1 Hf2 Hflags Hspots. unfold add_tile, iadd_loc.
  destruct idx as [|h [|wd [|? ?]]]; try done.
  destruct (bool_decide (_ ≤ Z.of_nat h ≤ _)) eqn:H1; [|done].
  destruct (bool_decide (_ ≤ Z.of_nat wd ≤ _)) eqn:H2; [|done].
  cbn [andb]. apply bool_decide_eq_true in H1. apply bool_decide_eq_true in H2.
  rewrite Hspots, Hflags by lia. done.
Qed.

Lemma foldl_add_tile_ext varray varray' thres window tiles :
  0 < window →
  Forall (λ t, (Z.to_nat window ≤ t.1 + 1)%nat ∧ (Z.to_nat window ≤ t.2 + 1)%nat ∧
               ∀ i j, (i < Z.to_nat window)%nat → (j < Z.to_nat window)%nat →
                 tile_flags (meanfm varray') thres (Z.to_nat window) t.1 t.2 i j =
                 tile_flags (meanfm varray) thres (Z.to_nat window) t.1 t.2 i j) tiles →
  ∀ spots spots' idx,
    (∀ idx, spots' idx = spots idx) →
    foldl (add_tile varray' thres window) spots' tiles idx =
    foldl (add_tile varray thres window) spots tiles idx.
Proof.
  intros Hwin Htiles.
  induction Htiles as [|t tiles (Hf1 & Hf2 & Hflags) _ IH]; intros spots spots' idx Hs;
    [apply Hs|].
  simpl. apply IH. intros idx'. by apply add_tile_ext.
Qed.


(** ** [detect_brightspot_perframe]: what a frame can flag *)

Lemma Qlt_bool_false x y : Qlt_bool x y = false ↔ (y <= x)%Q.
Proof. unfold Qlt_bool. by rewrite negb_false_iff, Qle_bool_iff. Qed.

Lemma elem_of_frame_samples_inv varray f x :
  x ∈ frame_samples varray f →
  ∃ h w, (h < height varray)%nat ∧ (w < width varray)%nat ∧ x = pix varray f h w.
Proof.
  unfold frame_samples.
  intros (h & (w & -> & Hw%elem_of_seq)%list_elem_of_fmap & Hh%elem_of_seq)%list_elem_of_bind.
  exists h, w. repeat split; lia.
Qed.

Lemma length_frame_samples varray f :
  length (frame_samples varray f) = (height varray * width varray)%nat.
Proof.
  unfold frame_samples.
  assert (∀ l : list nat,
            length (h ← l; (λ w, pix varray f h w) <$> seq 0 (width varray))
            = (length l * width varray)%nat) as Hgen.
  { induction l as [|h l IH]; [done|].
    cbn [mbind list_bind]. rewrite length_app, length_fmap, length_seq, IH. simpl. lia. }
  by rewrite Hgen, length_seq.
Qed.

(** A pixel that is not above the quantile of its frame is not flagged. *)
Lemma perframe_unflagged varray thres mask f h w qt :
  (0 <= thres <= 1)%Q →
  detect_brightspot_perframe varray thres = inr mask →
  (f < nframe varray)%nat →
  quantile_lower thres (frame_samples varray f) = Some qt →
  (pix varray f h w <= qt)%Q →
  xvalues mask [f; h; w] = 0.
Proof.
  intros Hq Hrun Hf Hqt Hle.
  destruct (detect_brightspot_perframe_run varray thres Hq) as (mask' & Hrun' & _ & _ & Hval);
    [lia|].
  assert (mask' = mask) as -> by congruence.
  rewrite Hval, Hqt by done.
  destruct (Qlt_bool qt (pix varray f h w)) eqn:E; [|done].
  apply Qlt_bool_iff in E. by apply Qlt_not_le in E.
Qed.

(** X10.  At the quantile 1 the threshold of a frame is its largest
    sample, and nothing is strictly above it: the mask is zero on every
    pixel of every frame. *)
Theorem quantile_one_flags_nothing varray :
  nframe varray ≠ 0%nat →
  ∃ mask,
    detect_brightspot_perframe varray 1 = inr mask ∧
    ∀ f h w, (f < nframe varray)%nat → (h < height varray)%nat → (w < width varray)%nat →
             xvalues mask [f; h; w] = 0.
Proof.
  intros Hn.
  assert (0 <= 1 <= 1)%Q as Hq by (split; discriminate).
  destruct (detect_brightspot_perframe_run varray 1 Hq Hn) as (mask & Hrun & _ & _ & Hval).
  exists mask. split; [done|]. intros f h w Hf Hh Hw.
  pose proof (elem_of_frame_samples varray f h w Hh Hw) as Hin.
  set (xs := frame_samples varray f) in *.
  assert (xs ≠ []) as Hne by (intros E; rewrite E in Hin; by apply elem_of_nil in Hin).
  destruct (quantile_lower_spec 1 xs Hq Hne) as (qt & Hqt & _ & _).
  apply (perframe_unflagged varray 1 mask f h w qt); try done.
  unfold quantile_lower in Hqt.
  rewrite Qmult_1_l, Qfloor_Z in Hqt.
  rewrite <-(merge_sort_Permutation Qle xs) in Hin.
  apply list_elem_of_lookup in Hin as (i & Hi).
  eapply StronglySorted_lookup_le; [apply merge_sort_Qle_sorted| |done..].
  apply lookup_lt_Some in Hi.
  rewrite (Permutation_length (merge_sort_Permutation Qle xs)) in Hi. lia.
Qed.

(** X11.  Whatever the quantile, a pixel that holds the smallest value of
    its frame is never flagged: the threshold is one of the frame's
    samples.  So no frame is flagged entirely. *)
Theorem darkest_pixel_is_never_flagged varray thres f h w :
  (0 <= thres <= 1)%Q → (f < nframe varray)%nat →
  (h < height varray)%nat → (w < width varray)%nat →
  (∀ h' w', (h' < height varray)%nat → (w' < width varray)%nat →
            (pix varray f h w <= pix varray f h' w')%Q) →
  ∃ mask,
    detect_brightspot_perframe varray thres = inr mask ∧
    xvalues mask [f; h; w] = 0.
Proof.
  intros Hq Hf Hh Hw Hmin.
  destruct (detect_brightspot_perframe_run varray thres Hq) as (mask & Hrun & _); [lia|].
  exists mask. split; [done|].
  pose proof (elem_of_frame_samples varray f h w Hh Hw) as Hin.
  assert (frame_samples varray f ≠ []) as Hne
    by (intros E; rewrite E in Hin; by apply elem_of_nil in Hin).
  destruct (quantile_lower_spec thres _ Hq Hne) as (qt & Hqt & _ & Hqin).
  apply (perframe_unflagged varray thres mask f h w qt); try done.
  apply elem_of_frame_samples_inv in Hqin as (h' & w' & Hh' & Hw' & ->).
  by apply Hmin.
Qed.

Lemma fmap_bind_list {A B C} (g : B → C) (k : A → list B) (l : list A) :
  g <$> (l ≫= k) = l ≫= (λ x, g <$> k x).
Proof.
  induction l as [|x l IH]; [done|].
  cbn [mbind list_bind]. by rewrite fmap_app, IH.
Qed.

Lemma indices_2 (H W : nat) :
  indices [H; W] = h ← seq 0 H; (λ w, [h; w]) <$> seq 0 W.
Proof.
  cbn [indices]. apply list_bind_ext_in. intros h _.
  induction (seq 0 W) as [|w l IH]; [done|].
  cbn [mbind list_bind fmap list_fmap app]. f_equal. apply IH.
Qed.

Lemma sum_flags {A} (p : A → bool) (l : list A) :
  foldr Z.add 0 ((λ x, if p x then 1 else 0) <$> l)
  = Z.of_nat (length (filter (λ x, p x = true) l)).
Proof.
  induction l as [|x l IH]; [done|].
  rewrite fmap_cons. cbn [foldr]. rewrite IH. destruct (p x) eqn:E.
  - rewrite filter_cons_True by done. simpl length. lia.
  - rewrite filter_cons_False by (by rewrite E). lia.
Qed.

(** In a sorted list the samples strictly above the one at position [k]
    lie after it. *)
Lemma filter_above_sorted l k v :
  StronglySorted Qle l → l !! k = Some v →
  (length (filter (λ x, Qlt_bool v x = true) l) ≤ length l - S k)%nat.
Proof.
  intros Hs. revert k. induction Hs as [|a l Hs IH Ha]; intros k Hk; [done|].
  assert (Qlt_bool v a = false → 
          length (filter (λ x, Qlt_bool v x = true) (a :: l))
          = length (filter (λ x, Qlt_bool v x = true) l)) as Hskip.
  { intros E. rewrite filter_cons_False; [done|]. by rewrite E. }
  assert (Qlt_bool v a = false) as Hva.
  { destruct (Qlt_bool v a) eqn:E; [|done]. apply Qlt_bool_iff in E.
    exfalso. apply (Qlt_not_le _ _ E). destruct k as [|k]; simpl in Hk.
    - injection Hk as <-. apply Qle_refl.
    - rewrite Forall_forall in Ha. apply Ha. by eapply list_elem_of_lookup_2. }
  rewrite (Hskip Hva). destruct k as [|k]; simpl in *.
  - pose proof (length_filter (λ x, Qlt_bool v x = true) l). lia.
  - by apply IH.
Qed.

(** X12.  In every frame the number of flagged pixels is at most the
    number of samples that lie after position floor(q (n - 1)) once the
    [n] samples of the frame are sorted: at the quantile [q] no more than
    the upper [1 - q] share of a frame is flagged. *)
Theorem perframe_flags_at_most_the_upper_share varray thres f :
  (0 <= thres <= 1)%Q → (f < nframe varray)%nat →
  (0 < height varray)%nat → (0 < width varray)%nat →
  ∃ mask,
    detect_brightspot_perframe varray thres = inr mask ∧
    0 ≤ count_in_frame mask f
      ≤ Z.of_nat (height varray * width varray) - 1
        - Qfloor (thres * inject_Z (Z.of_nat (height varray * width varray) - 1)).
Proof.
  intros Hq Hf Hh0 Hw0.
  destruct (detect_brightspot_perframe_run varray thres Hq)
    as (mask & Hrun & _ & Hcoords & Hval); [lia|].
  exists mask. split; [done|].
  set (xs := frame_samples varray f).
  assert (xs ≠ []) as Hne.
  { intros E. pose proof (elem_of_frame_samples varray f 0 0 Hh0 Hw0) as Hin.
    fold xs in Hin. rewrite E in Hin. by apply elem_of_nil in Hin. }
  destruct (quantile_lower_spec thres xs Hq Hne) as (qt & Hqt & _ & _).
  assert (count_in_frame mask f
          = Z.of_nat (length (filter (λ x, Qlt_bool qt x = true) xs))) as ->.
  { subst xs. unfold count_in_frame. rewrite Hcoords. unfold shape.
    cbn [fmap list_fmap tail]. rewrite !length_seqZ, !Nat2Z.id, indices_2.
    rewrite <-sum_flags. f_equal. unfold frame_samples.
    rewrite !fmap_bind_list. apply list_bind_ext_in. intros h _.
    rewrite <-!list_fmap_compose. apply list_fmap_ext. intros i w _. simpl.
    by rewrite Hval, Hqt. }
  split; [lia|].
  pose proof (length_frame_samples varray f) as Hlen. fold xs in Hlen.
  unfold quantile_lower in Hqt. rewrite Hlen in Hqt.
  destruct (quantile_position thres (height varray * width varray) Hq) as (H0 & H1 & H2);
    [lia|].
  rewrite <-(filter_Permutation _ _ _ (merge_sort_Permutation Qle xs)).
  pose proof (filter_above_sorted _ _ _ (merge_sort_Qle_sorted xs) Hqt) as Hb.
  rewrite (Permutation_length (merge_sort_Permutation Qle xs)), Hlen in Hb. lia.
Qed.

(** X13.  At the quantile 0 the threshold of a frame is its smallest
    sample: a pixel is flagged exactly when some pixel of its frame holds
    a smaller value. *)
Theorem quantile_zero_flags_all_but_the_minimum varray f h w :
  (f < nframe varray)%nat → (h < height varray)%nat → (w < width varray)%nat →
  ∃ mask,
    detect_brightspot_perframe varray 0 = inr mask ∧
    (xvalues mask [f; h; w] = 0 ∨ xvalues mask [f; h; w] = 1) ∧
    (xvalues mask [f; h; w] = 1 ↔
     ∃ h' w', (h' < height varray)%nat ∧ (w' < width varray)%nat ∧
              (pix varray f h' w' < pix varray f h w)%Q).
Proof.
  intros Hf Hh Hw.
  assert (0 <= 0 <= 1)%Q as Hq by (split; discriminate).
  destruct (detect_brightspot_perframe_run varray 0 Hq) as (mask & Hrun & _ & _ & Hval);
    [lia|].
  exists mask. split; [done|]. rewrite Hval by done.
  pose proof (elem_of_frame_samples varray f h w Hh Hw) as Hin.
  set (xs := frame_samples varray f) in *.
  assert (xs ≠ []) as Hne by (intros E; rewrite E in Hin; by apply elem_of_nil in Hin).
  destruct (quantile_lower_spec 0 xs Hq Hne) as (qt & Hqt & _ & Hqin).
  rewrite Hqt. unfold quantile_lower in Hqt. rewrite Qmult_0_l in Hqt.
  change (Z.to_nat (Qfloor 0)) with 0%nat in Hqt.
  split; [destruct (Qlt_bool _ _); auto|].
  destruct (Qlt_bool qt (pix varray f h w)) eqn:E.
  - split; [intros _|done]. apply Qlt_bool_iff in E.
    apply elem_of_frame_samples_inv in Hqin as (h' & w' & Hh' & Hw' & ->).
    by exists h', w'.
  - split; [done|]. intros (h' & w' & Hh' & Hw' & Hlt). exfalso.
    apply Qlt_bool_false in E.
    pose proof (elem_of_frame_samples varray f h' w' Hh' Hw') as Hs. fold xs in Hs.
    rewrite <-(merge_sort_Permutation Qle xs) in Hs.
    apply list_elem_of_lookup in Hs as (i & Hi).
    pose proof (StronglySorted_lookup_le _ 0 i _ _ (merge_sort_Qle_sorted xs)
                  ltac:(lia) Hqt Hi) as Hle.
    apply (Qlt_not_le _ _ Hlt). by eapply Qle_trans.
Qed.

(** ** [corr_coeff_pixelwise] *)

(** The quadratic form of the deviation products is a sum of squares. *)
Lemma deviations_quadratic_form (mx my s t : Q) (x y : list Q) :
  length x = length y →
  (0 <= s * s * Qsum (zip_with (λ a b, (a - mx) * (b - mx)) x x)
        - 2 * s * t * Qsum (zip_with (λ a b, (a - mx) * (b - my)) x y)
        + t * t * Qsum (zip_with (λ a b, (a - my) * (b - my)) y y))%Q.
Proof.
  revert y. induction x as [|a x IH]; intros [|b y] Hlen; try done.
  - simpl. lra.
  - injection Hlen as Hlen. specialize (IH y Hlen).
    cbn [zip_with Qsum foldr].
    fold (Qsum (zip_with (λ a b, (a - mx) * (b - mx))%Q x x)).
    fold (Qsum (zip_with (λ a b, (a - mx) * (b - my))%Q x y)).
    fold (Qsum (zip_with (λ a b, (a - my) * (b - my))%Q y y)).
    pose proof (Qsquare_nonneg (s * (a - mx) - t * (b - my))) as Hsq.
    lra.
Qed.

Lemma cov_quadratic_form (s t : Q) (x y : list Q) :
  length x = length y → (2 ≤ length x)%nat →
  (0 <= s * s * cov x x - 2 * s * t * cov x y + t * t * cov y y)%Q.
Proof.
  intros Hlen Hn. unfold cov. rewrite <-Hlen.
  pose proof (deviations_quadratic_form (Qmean x) (Qmean y) s t x y Hlen) as Hq.
  assert (0 < inject_Z (Z.of_nat (length x) - 1))%Q as Hf.
  { change 0%Q with (inject_Z 0). rewrite <-Zlt_Qlt. lia. }
  apply Qinv_lt_0_compat in Hf. unfold Qdiv.
  set (i := (/ inject_Z (Z.of_nat (length x) - 1))%Q) in *.
  pose proof (Qmult_le_0_compat _ _ Hq (Qlt_le_weak _ _ Hf)) as Hp.
  lra.
Qed.

Lemma cov_self_nonneg x : (2 ≤ length x)%nat → (0 <= cov x x)%Q.
Proof.
  intros Hn. pose proof (cov_quadratic_form 1 0 x x eq_refl Hn). lra.
Qed.

(** The Cauchy-Schwarz inequality for [cov]. *)
Lemma cov_Cauchy_Schwarz x y :
  length x = length y → (2 ≤ length x)%nat → (0 < cov y y)%Q →
  (cov x y * cov x y <= cov x x * cov y y)%Q.
Proof.
  intros Hlen Hn Hy.
  pose proof (cov_quadratic_form (cov y y) (cov x y) x y Hlen Hn) as Hq.
  apply (Qmult_le_l _ _ (cov y y) Hy). lra.
Qed.

Lemma corrcoef_Some x y v :
  length x = length y → corrcoef x y = Some v →
  (2 ≤ length x)%nat ∧ (0 < cov x x)%Q ∧ (0 < cov y y)%Q ∧
  v = (cov x y, (cov x x * cov y y)%Q).
Proof.
  intros Hlen. unfold corrcoef. case_bool_decide as Hn; [done|].
  destruct (Qeq_bool (cov x x) 0) eqn:Ex; [done|].
  destruct (Qeq_bool (cov y y) 0) eqn:Ey; [done|].
  cbn [orb]. intros [= <-].
  apply Qeq_bool_neq in Ex. apply Qeq_bool_neq in Ey.
  assert (2 ≤ length x)%nat as Hn2 by lia.
  pose proof (cov_self_nonneg x Hn2) as Hx0.
  pose proof (cov_self_nonneg y ltac:(lia)) as Hy0.
  split; [done|]. split; [|split; [|done]].
  - apply Qle_lteq in Hx0 as [?|E]; [done|]. exfalso. apply Ex. by symmetry.
  - apply Qle_lteq in Hy0 as [?|E]; [done|]. exfalso. apply Ey. by symmetry.
Qed.

Lemma corrcoef_bounds x y v :
  length x = length y → corrcoef x y = Some v →
  (0 < v.2)%Q ∧
  zgt (Some v) (Some (1%Q, 1%Q)) = false ∧
  zgt (Some ((- 1)%Q, 1%Q)) (Some v) = false.
Proof.
  intros Hlen (Hn & Hx & Hy & ->)%corrcoef_Some; [|done].
  pose proof (cov_Cauchy_Schwarz x y Hlen Hn Hy) as Hcs.
  pose proof (Qmult_lt_0_compat _ _ Hx Hy) as Hpos.
  pose proof (Qsquare_nonneg (cov x y)) as Hsq.
  split; [done|]. cbn [zgt]. unfold ratio_lt. cbn [fst snd].
  assert (sgnsq 1 == 1)%Q as H1 by reflexivity.
  assert (sgnsq (- 1) == - 1)%Q as Hm1 by reflexivity.
  rewrite !Qlt_bool_false, H1, Hm1.
  unfold sgnsq. destruct (Qle_bool 0 (cov x y)); split; lra.
Qed.

Lemma length_trace varray n h w : length (trace varray n h w) = n.
Proof. unfold trace. by rewrite length_fmap, length_seq. Qed.

Lemma trace_halves_length varray m h w :
  length (take m (trace varray (2 * m) h w)) = m ∧
  length (drop m (trace varray (2 * m) h w)) = m.
Proof. rewrite length_take, length_drop, length_trace. lia. Qed.

(** The number of frames that are correlated is even, and half of it is
    half the number of frames. *)
Lemma frames_used (n : nat) :
  ∃ m, (if decide (Z.of_nat n `mod` 2 > 0) then (n - 1)%nat else n) = (2 * m)%nat ∧
       (m = n / 2)%nat.
Proof.
  exists (n / 2)%nat. split; [|done].
  pose proof (Nat.div_mod_eq n 2) as Hdm.
  pose proof (Nat.mod_upper_bound n 2) as Hub.
  destruct (decide _) as [Ho|He].
  - assert (n `mod` 2 = 1)%nat; [|lia].
    destruct (decide (n `mod` 2 = 0)%nat) as [E|]; [|lia].
    exfalso. assert (Z.of_nat n = 2 * Z.of_nat (n / 2)) as Hz by lia.
    rewrite Hz, Z.mul_comm, Z_mod_mult in Ho. lia.
  - assert (n `mod` 2 = 0)%nat; [|lia].
    destruct (decide (n `mod` 2 = 0)%nat) as [|E]; [done|].
    exfalso. apply He.
    assert (Z.of_nat n = 1 + Z.of_nat (n / 2) * 2) as -> by lia.
    by rewrite Z_mod_plus_full.
Qed.

Lemma corr_coeff_pixelwise_run varray :
  (0 < height varray)%nat → (0 < width varray)%nat →
  ∃ r,
    corr_coeff_pixelwise varray = inr r ∧
    xdims r = ["height"; "width"] ∧
    ∀ h w,
      xvalues r [h; w] =
      corrcoef (take (nframe varray / 2) (trace varray (2 * (nframe varray / 2)) h w))
               (drop (nframe varray / 2) (trace varray (2 * (nframe varray / 2)) h w)).
Proof.
  intros Hh Hw. unfold corr_coeff_pixelwise.
  rewrite (decide_False (P := height varray = 0%nat ∨ width varray = 0%nat)) by lia.
  eexists. split; [reflexivity|]. split; [done|]. intros h w. cbn [xvalues].
  destruct (frames_used (nframe varray)) as (m & -> & ->).
  by rewrite Nat.mul_comm, Nat.div_mul, Nat.mul_comm.
Qed.

(** X14.  With an odd number of frames the last frame has no influence
    on the result: two videos that differ in it only get the same
    coefficients. *)
Theorem last_frame_of_an_odd_video_is_ignored varray varray' k :
  nframe varray = (2 * k + 1)%nat → nframe varray' = (2 * k + 1)%nat →
  height varray' = height varray → width varray' = width varray →
  (0 < height varray)%nat → (0 < width varray)%nat →
  (∀ f h w, (f < 2 * k)%nat → (h < height varray)%nat → (w < width varray)%nat →
            pix varray' f h w = pix varray f h w) →
  ∃ r r',
    corr_coeff_pixelwise varray = inr r ∧
    corr_coeff_pixelwise varray' = inr r' ∧
    ∀ h w, (h < height varray)%nat → (w < width varray)%nat →
           xvalues r' [h; w] = xvalues r [h; w].
Proof.
  intros Hn Hn' Hh Hw Hh0 Hw0 Hpix.
  destruct (corr_coeff_pixelwise_run varray Hh0 Hw0) as (r & Hr & _ & Hval).
  destruct (corr_coeff_pixelwise_run varray') as (r' & Hr' & _ & Hval'); [lia..|].
  exists r, r'. split; [done|]. split; [done|]. intros h w Hhr Hwr.
  rewrite Hval, Hval', Hn, Hn'.
  assert ((2 * k + 1) / 2 = k)%nat as ->.
  { rewrite Nat.mul_comm, Nat.div_add_l by done. simpl. lia. }
  assert (trace varray' (2 * k) h w = trace varray (2 * k) h w) as ->; [|done].
  unfold trace. apply list_fmap_ext. intros i f Hf%lookup_seq. apply Hpix; lia.
Qed.

(** X15.  Every coefficient that is a number lies between -1 and 1: the
    covariance of the two halves is bounded by the product of their
    standard deviations (Cauchy-Schwarz), so the clipping numpy applies
    to the result never acts on exact values. *)
Theorem coefficient_lies_between_minus_one_and_one varray r h w v :
  corr_coeff_pixelwise varray = inr r →
  xvalues r [h; w] = Some v →
  (0 < v.2)%Q ∧
  zgt (Some v) (Some (1%Q, 1%Q)) = false ∧
  zgt (Some ((- 1)%Q, 1%Q)) (Some v) = false.
Proof.
  intros Hr Hv.
  assert (0 < height varray ∧ 0 < width varray)%nat as [Hh Hw].
  { unfold corr_coeff_pixelwise in Hr. destruct (decide (_ ∨ _)); [done|lia]. }
  destruct (corr_coeff_pixelwise_run varray Hh Hw) as (r' & Hr' & _ & Hval).
  assert (r' = r) as -> by congruence.
  rewrite Hval in Hv. apply corrcoef_bounds in Hv; [done|].
  destruct (trace_halves_length varray (nframe varray / 2) h w) as [-> ->]. done.
Qed.

(** X16.  A video of fewer than four frames leaves at most one sample in
    each half of a trace, and a covariance of one observation is
    undefined: every coefficient is NaN. *)
Theorem fewer_than_four_frames_give_NaN varray r :
  (nframe varray < 4)%nat →
  corr_coeff_pixelwise varray = inr r →
  ∀ h w, xvalues r [h; w] = None.
Proof.
  intros Hn Hr h w.
  assert (0 < height varray ∧ 0 < width varray)%nat as [Hh Hw].
  { unfold corr_coeff_pixelwise in Hr. destruct (decide (_ ∨ _)); [done|lia]. }
  destruct (corr_coeff_pixelwise_run varray Hh Hw) as (r' & Hr' & _ & Hval).
  assert (r' = r) as -> by congruence.
  rewrite Hval. unfold corrcoef.
  rewrite bool_decide_eq_true_2; [done|].
  destruct (trace_halves_length varray (nframe varray / 2) h w) as [-> _].
  assert (nframe varray < 2 * 2)%nat as Hlt%Nat.Div0.div_lt_upper_bound by lia. lia.
Qed.

Lemma Qsum_zero l : Forall (λ v, v == 0)%Q l → (Qsum l == 0)%Q.
Proof.
  induction 1 as [|v l Hv _ IH]; [reflexivity|].
  cbn [Qsum foldr]. fold (Qsum l). rewrite Hv, IH. ring.
Qed.

Lemma cov_constant c x : Forall (λ a, a == c)%Q x → (cov x x == 0)%Q.
Proof.
  intros Hc. unfold cov.
  destruct (decide (x = [])) as [->|Hne]; [reflexivity|].
  pose proof (Qmean_const c x Hne Hc) as Hm.
  rewrite Qsum_zero; [unfold Qdiv; ring|].
  assert (∀ y : list Q, Forall (λ v, v == 0)%Q
            (zip_with (λ a b, (a - Qmean x) * (b - Qmean x))%Q x y)) as Hall; [|apply Hall].
  clear Hne. revert Hm. generalize (Qmean x). intros m Hm.
  induction Hc as [|a l Ha _ IH]; intros [|b y]; simpl; try constructor; [|apply IH].
  rewrite Ha, Hm. ring.
Qed.

(** X17.  A pixel that holds one whole number over the first half of
    the frames has no coefficient: the mean of that half is the number
    itself, its standard deviation is zero and the ratio is 0/0.  (For a
    constant that is no whole number this holds in exact arithmetic; the
    floating-point mean of equal samples can differ from them.) *)
Theorem pixel_constant_over_a_half_gives_NaN varray r h w (k : Z) :
  corr_coeff_pixelwise varray = inr r →
  (∀ f, (f < nframe varray / 2)%nat → (pix varray f h w == inject_Z k)%Q) →
  xvalues r [h; w] = None.
Proof.
  intros Hr Hc.
  assert (0 < height varray ∧ 0 < width varray)%nat as [Hh Hw].
  { unfold corr_coeff_pixelwise in Hr. destruct (decide (_ ∨ _)); [done|lia]. }
  destruct (corr_coeff_pixelwise_run varray Hh Hw) as (r' & Hr' & _ & Hval).
  assert (r' = r) as -> by congruence.
  rewrite Hval. unfold corrcoef. case_bool_decide; [done|].
  rewrite (proj2 (Qeq_bool_iff (cov _ _) 0)); [done|].
  apply (cov_constant (inject_Z k)). apply Forall_forall. intros a Ha.
  apply list_elem_of_lookup in Ha as (i & Hi).
  apply lookup_take_Some in Hi as [Hi Hlt]. unfold trace in Hi.
  rewrite list_lookup_fmap in Hi.
  destruct (seq 0 (2 * (nframe varray / 2)) !! i) as [f|] eqn:Hf; [|done].
  apply lookup_seq in Hf as [-> _]. injection Hi as <-. by apply Hc.
Qed.

(** X18.  In exact arithmetic, a pixel whose second half of the trace
    repeats the first half has the coefficient 1, when it has one.  (In
    floating point the coefficient of such a pixel is 1 up to rounding
    only.) *)
Theorem repeated_half_correlates_perfectly varray r h w v :
  corr_coeff_pixelwise varray = inr r →
  (∀ f, (f < nframe varray / 2)%nat →
        pix varray (nframe varray / 2 + f) h w = pix varray f h w) →
  xvalues r [h; w] = Some v →
  zgt (Some v) (Some (1%Q, 1%Q)) = false ∧ zgt (Some (1%Q, 1%Q)) (Some v) = false.
Proof.
  intros Hr Hrep Hv.
  assert (0 < height varray ∧ 0 < width varray)%nat as [Hh Hw].
  { unfold corr_coeff_pixelwise in Hr. destruct (decide (_ ∨ _)); [done|lia]. }
  destruct (corr_coeff_pixelwise_run varray Hh Hw) as (r' & Hr' & _ & Hval).
  assert (r' = r) as -> by congruence.
  rewrite Hval in Hv. set (m := (nframe varray / 2)%nat) in *.
  assert (drop m (trace varray (2 * m) h w) = take m (trace varray (2 * m) h w)) as Hhalves.
  { unfold trace. rewrite <-fmap_drop, <-fmap_take, drop_seq, take_seq.
    replace (2 * m - m)%nat with m by lia. replace (m `min` (2 * m))%nat with m by lia.
    replace (0 + m)%nat with (m + 0)%nat by lia.
    rewrite <-fmap_add_seq, <-list_fmap_compose.
    apply list_fmap_ext. intros i f Hf%lookup_seq. simpl. apply Hrep. lia. }
  rewrite Hhalves in Hv.
  apply corrcoef_Some in Hv as (_ & Hx & _ & ->); [|done].
  set (c := cov _ _) in *. cbn [zgt]. unfold ratio_lt. cbn [fst snd].
  assert (sgnsq 1 == 1)%Q as H1 by reflexivity.
  assert (sgnsq c == c * c)%Q as Hc.
  { unfold sgnsq. rewrite (proj2 (Qle_bool_iff 0 c)); [reflexivity|lra]. }
  rewrite !Qlt_bool_false, H1, Hc. split; lra.
Qed.

(** ** From the detectors to the corrector *)

Lemma detect_brightspot_labels varray thres window step mask :
  detect_brightspot varray thres window step = inr mask →
  xdims mask = ["height"; "width"] ∧
  xcoords mask = [seqZ 0 (Z.of_nat (height varray)); seqZ 0 (Z.of_nat (width varray))].
Proof.
  unfold detect_brightspot. repeat case_decide; try done. by intros [= <-].
Qed.

Lemma detect_brightspot_perframe_labels varray thres mask :
  detect_brightspot_perframe varray thres = inr mask →
  xdims mask = ["frame"; "height"; "width"] ∧
  xcoords mask = [seqZ 0 (Z.of_nat (nframe varray));
                  seqZ 0 (Z.of_nat (height varray));
                  seqZ 0 (Z.of_nat (width varray))].
Proof.
  unfold detect_brightspot_perframe.
  destruct (mapM _ _) as [[|sp spots]|]; try done. by intros [= <-].
Qed.

Lemma wf_input_video_object s varray ty a nm (mask : xarray Z) :
  vname varray = Some nm → is_Some (heap s !! a) →
  (xdims mask = ["height"; "width"] ∧
   xcoords mask = [seqZ 0 (Z.of_nat (height varray)); seqZ 0 (Z.of_nat (width varray))])
  ∨ (xdims mask = ["frame"; "height"; "width"] ∧
     xcoords mask = [seqZ 0 (Z.of_nat (nframe varray));
                     seqZ 0 (Z.of_nat (height varray));
                     seqZ 0 (Z.of_nat (width varray))]) →
  wf_input s (video_object varray ty a) mask = true.
Proof.
  intros Hnm Hlive Hmask. unfold wf_input, video_object. cbn [name dims coords data].
  rewrite !andb_true_iff. repeat split.
  - by apply bool_decide_eq_true.
  - apply bool_decide_eq_true. rewrite Hnm. eauto.
  - cbn [forallb]. rewrite !bool_decide_eq_true_2 by apply NoDup_seqZ. done.
  - destruct Hmask as [[-> _]|[-> _]]; by vm_compute.
  - destruct Hmask as [[-> ->]|[-> ->]]; done.
  - destruct Hmask as [[-> ->]|[-> ->]]; cbn [zip zip_with forallb fst snd coords_of];
      repeat (rewrite decide_False by done);
      repeat (rewrite decide_True by done; repeat (rewrite decide_False by done));
      rewrite !bool_decide_eq_true_2 by done; done.
Qed.

(** X19.  The mask returned by either detector for a named video is a
    well-formed input of [correct_brightspot] for the same video: its
    dimensions and coordinates are among the video's, so the call raises
    nothing, whatever the window, the threshold and [inplace], and the
    result is the video under the suffixed name with the same dimensions
    and coordinates, or the input itself when nothing is flagged. *)
Theorem detector_masks_are_accepted_by_the_corrector
    s varray ty a nm mask window spot_thres inplace :
  vname varray = Some nm → is_Some (heap s !! a) →
  (∃ thres w step, detect_brightspot varray thres w step = inr mask)
  ∨ (∃ q, detect_brightspot_perframe varray q = inr mask) →
  wf_input s (video_object varray ty a) mask = true ∧
  ∃ s' R,
    correct_brightspot (video_object varray ty a) mask window spot_thres inplace s
      = (s', inr R) ∧
    dims R = ["frame"; "height"; "width"] ∧
    coords R = coords (video_object varray ty a) ∧
    dtype R = ty ∧
    (name R = Some (nm +:+ "_DeSpotted") ∨ R = video_object varray ty a).
Proof.
  intros Hnm Hlive Hmask.
  assert (wf_input s (video_object varray ty a) mask = true) as Hwf.
  { apply (wf_input_video_object s varray ty a nm); [done..|].
    destruct Hmask as [(thres & w & step & H)|(q & H)].
    - left. by eapply detect_brightspot_labels.
    - right. by eapply detect_brightspot_perframe_labels. }
  split; [done|].
  destruct (decide (0 < sum mask)) as [Hsum|Hsum].
  - destruct (correct_brightspot_run s _ mask window spot_thres inplace Hwf Hsum)
      as (buf0 & nm' & surs & s' & buf' & _ & Hnm' & _ & Hrun & _).
    eexists s', _. split; [exact Hrun|]. cbn [name dims coords dtype video_object].
    split; [done|]. split; [done|]. split; [done|]. left.
    cbn [name video_object] in Hnm'. congruence.
  - eexists _, (video_object varray ty a). split.
    + unfold correct_brightspot. erewrite bind_inr by reflexivity.
      rewrite bool_decide_eq_false_2 by done. cbn [negb].
      erewrite bind_inr by reflexivity. reflexivity.
    + split; [done|]. split; [done|]. split; [done|]. by right.
Qed.

(** ** [HashableDict] *)

Lemma elem_of_dict_get (d : HashableDict) k v :
  NoDup (d.*1) → (k, v) ∈ d ↔ dict_get k d = Some v.
Proof.
  intros Hnd. split; [|apply dict_get_Some_elem].
  induction d as [|[k' v'] d IH]; [by intros ?%elem_of_nil|].
  rewrite fmap_cons in Hnd. apply NoDup_cons in Hnd as [Hk Hnd]. simpl in *.
  intros [[= -> ->]|Hin]%elem_of_cons.
  - by rewrite decide_True.
  - rewrite decide_False; [by apply IH|].
    intros ->. apply Hk. apply list_elem_of_fmap. by exists (k, v).
Qed.

(** X20.  The hash of a coordinate dict depends on its items only, not on
    the order in which they were inserted: two dicts that are equal as
    dicts (the same keys with the same values) have the same hash, as
    membership in a Python set requires. *)
Theorem equal_dicts_have_equal_hashes hash (d1 d2 : HashableDict) :
  NoDup (d1.*1) → NoDup (d2.*1) →
  (∀ k, dict_get k d1 = dict_get k d2) →
  HashableDict_hash hash d1 = HashableDict_hash hash d2.
Proof.
  intros H1 H2 Heq. unfold HashableDict_hash. f_equal.
  apply set_eq. intros [k v].
  by rewrite !elem_of_list_to_set, !elem_of_dict_get, Heq.
Qed.

(** ** Ranges and units *)

Lemma Qsum_bounds lo hi l :
  Forall (λ x, lo <= x <= hi)%Q l →
  (lo * inject_Z (Z.of_nat (length l)) <= Qsum l
   <= hi * inject_Z (Z.of_nat (length l)))%Q.
Proof.
  induction 1 as [|x l [Hlo Hhi] _ [IHlo IHhi]].
  - cbn [Qsum foldr length]. change (inject_Z (Z.of_nat 0)) with 0%Q. lra.
  - cbn [Qsum foldr length]. fold (Qsum l).
    rewrite Nat2Z.inj_succ, <-Z.add_1_r, inject_Z_plus.
    change (inject_Z 1) with 1%Q. lra.
Qed.

Lemma Qmean_bounds lo hi l :
  l ≠ [] → Forall (λ x, lo <= x <= hi)%Q l → (lo <= Qmean l <= hi)%Q.
Proof.
  intros Hne Hl. destruct (Qsum_bounds lo hi l Hl) as [H1 H2].
  unfold Qmean. rewrite Qred_correct.
  assert (0 < inject_Z (Z.of_nat (length l)))%Q as Hn.
  { destruct l; [done|]. change 0%Q with (inject_Z 0). rewrite <-Zlt_Qlt.
    simpl length. lia. }
  split; [by apply Qle_shift_div_l|by apply Qle_shift_div_r].
Qed.

Lemma mapM_loc_read_values V buf sur stack v :
  mapM (loc_read V buf) sur = Some stack → v ∈ stack →
  ∃ ix, v = getitem ix buf.
Proof.
  intros Hs%mapM_Some Hv. induction Hs as [|c v' sur stack Hc _ IH].
  - by apply elem_of_nil in Hv.
  - apply elem_of_cons in Hv as [->|Hv]; [|by apply IH].
    unfold loc_read in Hc.
    destruct (loc_indexer (dims V) (coords V) c) as [ix|]; simpl in Hc; [|done].
    injection Hc as <-. by exists ix.
Qed.

Lemma astype_idempotent t x : astype t (astype t x) = astype t x.
Proof.
  destruct t; [done|]. unfold astype at 2 3.
  pose proof (Z.mod_pos_bound (Qnum x ÷ Z.pos (Qden x)) 256 ltac:(lia)) as Hb.
  set (k := (Qnum x ÷ Z.pos (Qden x)) `mod` 256) in *.
  unfold astype, inject_Z. cbn [Qnum Qden]. f_equal.
  rewrite Z.quot_1_r. by apply Z.mod_small.
Qed.

(** The conversion of a mean of samples of the type stays between any
    two bounds of the samples: an 8-bit mean loses its fraction, and the
    integer part of a mean of integers is not below the smallest of
    them. *)
Lemma astype_mean_bounds t lo hi l :
  l ≠ [] → Forall (λ x, astype t x = x ∧ lo <= x <= hi)%Q l →
  (lo <= astype t (Qmean l) <= hi)%Q.
Proof.
  intros Hne Hl.
  assert (Forall (λ x, lo <= x <= hi)%Q l) as Hrange.
  { eapply Forall_impl; [exact Hl|]. by intros x [_ ?]. }
  destruct t; [by apply Qmean_bounds|].
  assert (Forall (λ x, 0 <= x <= 255)%Q l) as Hbyte.
  { eapply Forall_impl; [exact Hl|]. intros x [<- _]. unfold astype.
    pose proof (Z.mod_pos_bound (Qnum x ÷ Z.pos (Qden x)) 256 ltac:(lia)).
    change 0%Q with (inject_Z 0). change 255%Q with (inject_Z 255).
    rewrite <-!Zle_Qle. lia. }
  assert (Forall (λ x, inject_Z (Qceiling lo) <= x <= hi)%Q l) as Hceil.
  { eapply Forall_impl; [exact Hl|]. intros x [<- [Hlo Hhi]]. split; [|done].
    unfold astype in *. rewrite <-Zle_Qle.
    rewrite <-(Qceiling_Z (_ `mod` 256)). by apply Qceiling_resp_le. }
  destruct (Qmean_bounds _ _ _ Hne Hrange) as [_ Hhi].
  destruct (Qmean_bounds _ _ _ Hne Hbyte) as [H0 H255].
  destruct (Qmean_bounds _ _ _ Hne Hceil) as [Hc _].
  rewrite astype_uint8_floor by (split; [done|lra]).
  split.
  - eapply Qle_trans; [apply Qle_ceiling|]. rewrite <-Zle_Qle.
    rewrite <-(Qfloor_Z (Qceiling lo)). by apply Qfloor_resp_le.
  - eapply Qle_trans; [apply Qfloor_le|done].
Qed.

(** X21.  The correction of an 8-bit video never leaves the range of the
    input: when every sample of the video is an 8-bit value and lies
    between two bounds before the call, so does every sample of the
    result.  The corrected samples are the integer parts of means of
    original samples. *)
Theorem correction_keeps_the_range_of_the_input
    s V M window spot_thres inplace (lo hi : Q) :
  wf_input s V M = true → 0 < sum M → dtype V = uint8 →
  ∃ s' R buf0 buf',
    correct_brightspot V M window spot_thres inplace s = (s', inr R) ∧
    heap s !! data V = Some buf0 ∧
    heap s' !! data R = Some buf' ∧
    ((∀ idx, astype uint8 (buf0 idx) = buf0 idx) →
     (∀ idx, (lo <= buf0 idx <= hi)%Q) →
     ∀ idx, (lo <= buf' idx <= hi)%Q ∧ astype uint8 (buf' idx) = buf' idx).
Proof.
  intros Hwf Hsum Hty. rewrite <-Hty.
  destruct (correct_brightspot_run s V M window spot_thres inplace Hwf Hsum)
    as (buf0 & nm & surs & s' & buf' & Hbuf0 & Hnm & Hsurs & Hrun & Hheap & Hout & Hi & Hii).
  eexists s', _, buf0, buf'. split; [exact Hrun|]. split; [done|].
  split; [rewrite Hheap; by apply correct_brightspot_result_buffer|].
  intros Htype Hrange idx.
  assert (Decision ((lo <= buf' idx <= hi)%Q ∧ astype (dtype V) (buf' idx) = buf' idx))
    as [|Hn]; [|done|].
  { apply and_dec; [apply _|]. destruct (astype (dtype V) (buf' idx)) as [n1 d1].
    destruct (buf' idx) as [n2 d2].
    destruct (decide (n1 = n2)), (decide (d1 = d2));
      [left; congruence|right; congruence..]. }
  exfalso. apply Hn. rewrite Hi; [by split|].
  intros q sur ixq Hq Hsur Hne Hix.
  destruct (matches ixq idx) eqn:Hm; [|done].
  exfalso. apply Hn.
  destruct (Hii q sur ixq idx Hq Hsur Hne Hix Hm) as (stack & Hst & ->).
  split; [|apply astype_idempotent].
  unfold mean_sample. apply astype_mean_bounds.
  - apply mapM_Some, Forall2_length in Hst. destruct stack, sur; done.
  - apply Forall_fmap, Forall_forall. intros v Hv.
    destruct (mapM_loc_read_values _ _ _ _ _ Hst Hv) as (ix & ->). simpl.
    unfold getitem. split; [apply Htype|apply Hrange].
Qed.

Lemma Qsum_affine (c d : Q) l l' :
  Forall2 (λ x x', x' == c * x + d)%Q l l' →
  (Qsum l' == c * Qsum l + d * inject_Z (Z.of_nat (length l)))%Q.
Proof.
  induction 1 as [|x x' l l' Hx _ IH].
  - simpl. ring.
  - cbn [Qsum foldr length]. fold (Qsum l) (Qsum l').
    rewrite Nat2Z.inj_succ, <-Z.add_1_r, inject_Z_plus, Hx, IH.
    change (inject_Z 1) with 1%Q. ring.
Qed.

Lemma Qmean_affine (c d : Q) l l' :
  l ≠ [] → Forall2 (λ x x', x' == c * x + d)%Q l l' →
  (Qmean l' == c * Qmean l + d)%Q.
Proof.
  intros Hne Hl. unfold Qmean.
  rewrite !Qred_correct, (Qsum_affine c d l l' Hl), <-(Forall2_length _ _ _ Hl).
  field. destruct l; [done|]. simpl length.
  change 0%Q with (inject_Z 0). rewrite inject_Z_injective. lia.
Qed.

Lemma variance_affine (c d : Q) l l' :
  l ≠ [] → Forall2 (λ x x', x' == c * x + d)%Q l l' →
  (variance l' == c * c * variance l)%Q.
Proof.
  intros Hne Hl. unfold variance.
  pose proof (Qmean_affine c d l l' Hne Hl) as Hm.
  rewrite (Qmean_affine (c * c) 0
             ((λ x, (x - Qmean l) * (x - Qmean l))%Q <$> l)
             ((λ x, (x - Qmean l') * (x - Qmean l'))%Q <$> l')); [ring|by destruct l|].
  apply Forall2_fmap. eapply Forall2_impl; [exact Hl|].
  intros x x' Hx. simpl. rewrite Hx, Hm. ring.
Qed.

Lemma Qlt_bool_Qeq x x' y y' :
  (x == x')%Q → (y == y')%Q → Qlt_bool x y = Qlt_bool x' y'.
Proof. intros Hx Hy. unfold Qlt_bool. by rewrite Hx, Hy. Qed.

Lemma Qlt_bool_scale c u v : (0 < c)%Q → Qlt_bool (c * u) (c * v) = Qlt_bool u v.
Proof.
  intros Hc. unfold Qlt_bool. f_equal. apply eq_true_iff_eq.
  rewrite !Qle_bool_iff. by apply Qmult_le_l.
Qed.

Lemma sgnsq_Qeq x y : (x == y)%Q → (sgnsq x == sgnsq y)%Q.
Proof.
  intros H. unfold sgnsq.
  destruct (Qle_bool 0 x) eqn:E1, (Qle_bool 0 y) eqn:E2;
    try (by rewrite H); rewrite H in E1; congruence.
Qed.

Section gain_and_offset.
Variables (a b : Q).
Hypothesis Ha : (0 < a)%Q.

(** The same ratio with the numerator scaled by [a] and the squared
    denominator by [a * a]. *)
Let scaled (r r' : Q * Q) : Prop := (r'.1 == a * r.1 ∧ r'.2 == a * a * r.2)%Q.

Lemma sgnsq_scale n : (sgnsq (a * n) == a * a * sgnsq n)%Q.
Proof.
  unfold sgnsq. destruct (Qle_bool 0 n) eqn:E1, (Qle_bool 0 (a * n)) eqn:E2; try ring.
  - exfalso. apply Qle_bool_iff in E1.
    assert (0 <= a * n)%Q as H%Qle_bool_iff by (apply Qmult_le_0_compat; lra).
    congruence.
  - exfalso. apply Qle_bool_iff in E2.
    assert (0 <= n)%Q as H%Qle_bool_iff; [|congruence].
    apply (Qmult_le_l 0 n a Ha). lra.
Qed.

Lemma ratio_lt_scaled x x' y y' :
  scaled x x' → scaled y y' → ratio_lt x' y' = ratio_lt x y.
Proof.
  intros [Hx1 Hx2] [Hy1 Hy2]. unfold ratio_lt.
  rewrite <-(Qlt_bool_scale (a * a * (a * a)) (sgnsq x.1 * y.2) (sgnsq y.1 * x.2))
    by (repeat apply Qmult_lt_0_compat; done).
  apply Qlt_bool_Qeq.
  - rewrite (sgnsq_Qeq _ _ Hx1), sgnsq_scale, Hy2. ring.
  - rewrite (sgnsq_Qeq _ _ Hy1), sgnsq_scale, Hx2. ring.
Qed.

Lemma zgt_scaled x x' y y' :
  option_Forall2 scaled x x' → option_Forall2 scaled y y' → zgt x' y' = zgt x y.
Proof.
  intros [r r' Hr|] [q q' Hq|]; simpl; try done. by apply ratio_lt_scaled.
Qed.

(** A given threshold is a plain number: it is compared with the scaled
    ratio as with the original one. *)
Lemma zgt_given_threshold x x' t :
  option_Forall2 scaled x x' → zgt x' (Some (t, 1%Q)) = zgt x (Some (t, 1%Q)).
Proof.
  intros [r r' [Hr1 Hr2]|]; simpl; [|done]. unfold ratio_lt. cbn [fst snd].
  rewrite <-(Qlt_bool_scale (a * a) (sgnsq t * r.2) (sgnsq r.1 * 1))
    by (by apply Qmult_lt_0_compat).
  apply Qlt_bool_Qeq.
  - rewrite Hr2. ring.
  - rewrite (sgnsq_Qeq _ _ Hr1), sgnsq_scale. ring.
Qed.

Lemma zlt_given_threshold x x' t :
  option_Forall2 scaled x x' → zgt (Some (t, 1%Q)) x' = zgt (Some (t, 1%Q)) x.
Proof.
  intros [r r' [Hr1 Hr2]|]; simpl; [|done]. unfold ratio_lt. cbn [fst snd].
  rewrite <-(Qlt_bool_scale (a * a) (sgnsq r.1 * 1) (sgnsq t * r.2))
    by (by apply Qmult_lt_0_compat).
  apply Qlt_bool_Qeq.
  - rewrite (sgnsq_Qeq _ _ Hr1), sgnsq_scale. ring.
  - rewrite Hr2. ring.
Qed.

Lemma zneg_scaled x x' :
  option_Forall2 scaled x x' → option_Forall2 scaled (zneg x) (zneg x').
Proof.
  intros [r r' [Hr1 Hr2]|]; simpl; constructor. split; simpl; [|done].
  rewrite Hr1. ring.
Qed.

Lemma znanmin_scaled zs zs' :
  Forall2 (option_Forall2 scaled) zs zs' →
  option_Forall2 scaled (znanmin zs) (znanmin zs').
Proof.
  induction 1 as [|z z' zs zs' Hz _ IH]; [constructor|].
  cbn [znanmin foldr]. fold (znanmin zs) (znanmin zs').
  destruct Hz as [r r' Hr|]; [|done].
  destruct IH as [q q' Hq|]; [|by constructor].
  rewrite (ratio_lt_scaled q q' r r' Hq Hr).
  destruct (ratio_lt q r); by constructor.
Qed.

Lemma zscore_scaled (pw pw' : nat → nat → Q) (w i j : nat) :
  (∀ i j, (i < w)%nat → (j < w)%nat → (pw' i j == a * pw i j + b)%Q) →
  (i < w)%nat → (j < w)%nat →
  option_Forall2 scaled (zscore pw w i j) (zscore pw' w i j).
Proof.
  intros Hpw Hi Hj. unfold zscore.
  assert (Forall2 (λ x x', x' == a * x + b)%Q (column pw w j) (column pw' w j)) as Hcol.
  { unfold column. apply Forall2_fmap, Forall_Forall2_diag, Forall_forall.
    intros k Hk%elem_of_seq. apply Hpw; lia. }
  assert (column pw w j ≠ []) as Hne.
  { unfold column. destruct w; [lia|done]. }
  pose proof (Qmean_affine a b _ _ Hne Hcol) as Hm.
  pose proof (variance_affine a b _ _ Hne Hcol) as Hv.
  assert (Qeq_bool (variance (column pw' w j)) 0 = Qeq_bool (variance (column pw w j)) 0)
    as ->.
  { rewrite Hv. apply eq_true_iff_eq. rewrite !Qeq_bool_iff. split.
    - intros [H|H]%Qmult_integral; [|done].
      apply Qmult_integral in H. exfalso. destruct H; lra.
    - intros ->. ring. }
  destruct (Qeq_bool _ 0); constructor. split; simpl; [|done].
  rewrite Hpw, Hm by done. ring.
Qed.

Lemma tile_flags_scaled (m m' : nat → nat → Q) thres (w ih iw i j : nat) :
  (∀ i j, (i < w)%nat → (j < w)%nat →
     (m' (ih + 1 - w + i)%nat (iw + 1 - w + j)%nat
      == a * m (ih + 1 - w + i)%nat (iw + 1 - w + j)%nat + b)%Q) →
  (i < w)%nat → (j < w)%nat →
  tile_flags m' thres w ih iw i j = tile_flags m thres w ih iw i j.
Proof.
  intros Hm Hi Hj. unfold tile_flags.
  set (pw := λ i j, m (ih + 1 - w + i)%nat (iw + 1 - w + j)%nat).
  set (pw' := λ i j, m' (ih + 1 - w + i)%nat (iw + 1 - w + j)%nat).
  assert (∀ i j, (i < w)%nat → (j < w)%nat →
            option_Forall2 scaled (zscore pw w i j) (zscore pw' w i j)) as Hz.
  { intros i' j' Hi' Hj'. by apply zscore_scaled. }
  assert (option_Forall2 scaled
            (zneg (znanmin (i ← seq 0 w; zscore pw w i <$> seq 0 w)))
            (zneg (znanmin (i ← seq 0 w; zscore pw' w i <$> seq 0 w)))) as Hmin.
  { apply zneg_scaled, znanmin_scaled, Forall2_bind, Forall_Forall2_diag, Forall_forall.
    intros i' Hi'%elem_of_seq.
    apply Forall2_fmap, Forall_Forall2_diag, Forall_forall.
    intros j' Hj'%elem_of_seq. apply Hz; lia. }
  unfold cur_thres. destruct thres as [t|]; [destruct (Qeq_bool t 0)|].
  - by apply zgt_scaled; [apply Hz|].
  - by apply zgt_given_threshold, Hz.
  - by apply zgt_scaled; [apply Hz|].
Qed.

End gain_and_offset.

(** X22.  [detect_brightspot] does not depend on the unit of the samples:
    a video whose samples are those of another under a positive gain and
    an offset gets the same mask, with a given threshold as with the
    adaptive one, since z-scores are unchanged by such a map. *)
Theorem gain_and_offset_do_not_change_the_mask
    varray varray' thres window step (a b : Q) :
  (0 < a)%Q → nframe varray ≠ 0%nat → 0 < window →
  nframe varray' = nframe varray →
  height varray' = height varray → width varray' = width varray →
  (∀ f h wd, (f < nframe varray)%nat → (h < height varray)%nat → (wd < width varray)%nat →
     (pix varray' f h wd == a * pix varray f h wd + b)%Q) →
  ∃ mask mask',
    detect_brightspot varray thres window step = inr mask ∧
    detect_brightspot varray' thres window step = inr mask' ∧
    ∀ idx, xvalues mask' idx = xvalues mask idx.
Proof.
  intros Ha Hn Hwin Hn' Hh Hw Hpix. unfold detect_brightspot.
  rewrite !decide_False by (done || lia).
  eexists _, _. split; [reflexivity|]. split; [reflexivity|]. cbn [xvalues].
  intros idx. rewrite !scan_height_tiles by done.
  assert (full_tiles varray' (Z.to_nat window) step
          = full_tiles varray (Z.to_nat window) step) as ->.
  { unfold full_tiles. by rewrite Hh, Hw. }
  apply foldl_add_tile_ext; [done| |done].
  apply Forall_forall. intros t (Ht1 & Ht2 & _ & _ & Hf1 & Hf2)%elem_of_full_tiles.
  split; [done|]. split; [done|]. intros i j Hi Hj.
  apply (tile_flags_scaled a b Ha); [|done..]. intros i' j' Hi' Hj'.
  unfold meanfm. rewrite Hn'. apply Qmean_affine.
  - destruct (nframe varray); done.
  - apply Forall2_fmap, Forall_Forall2_diag, Forall_forall.
    intros f Hf%elem_of_seq. apply Hpix; lia.
Qed.

(** *** The per-frame detector under increasing maps *)

Lemma filter_length_related {A B} (p : A → bool) (p' : B → bool) l l' :
  Forall2 (λ x x', p' x' = p x) l l' →
  length (filter (λ x, p' x = true) l') = length (filter (λ x, p x = true) l).
Proof.
  induction 1 as [|x x' l l' Hx _ IH]; [done|].
  destruct (p x) eqn:E.
  - rewrite !filter_cons_True by congruence. simpl. by rewrite IH.
  - rewrite !filter_cons_False by congruence. done.
Qed.

Lemma filter_length_all {A} (P : A → Prop) `{∀ x, Decision (P x)} (l : list A) :
  Forall P l → length (filter P l) = length l.
Proof.
  induction 1 as [|x l Hx _ IH]; [done|].
  rewrite filter_cons_True by done. simpl. by rewrite IH.
Qed.

Lemma filter_length_none {A} (P : A → Prop) `{∀ x, Decision (P x)} (l : list A) :
  Forall (λ x, ¬ P x) l → length (filter P l) = 0%nat.
Proof.
  induction 1 as [|x l Hx _ IH]; [done|].
  by rewrite filter_cons_False by done.
Qed.

Lemma filter_length_cons_le {A} (P : A → Prop) `{∀ x, Decision (P x)} x (l : list A) :
  (length (filter P l) ≤ length (filter P (x :: l)) ≤ S (length (filter P l)))%nat.
Proof.
  destruct (decide (P x)).
  - rewrite filter_cons_True by done. simpl. lia.
  - rewrite filter_cons_False by done. lia.
Qed.

(** In a sorted list, fewer than [k + 1] samples are strictly below the
    one at position [k]. *)
Lemma filter_below_sorted l k v :
  StronglySorted Qle l → l !! k = Some v →
  (length (filter (λ x, Qlt_bool x v = true) l) ≤ k)%nat.
Proof.
  intros Hs. revert k. induction Hs as [|a l Hs IH Ha]; intros k Hk; [done|].
  destruct k as [|k]; simpl in Hk.
  - injection Hk as <-. rewrite filter_length_none; [done|].
    constructor.
    + rewrite Qlt_bool_iff. apply Qlt_irrefl.
    + eapply Forall_impl; [exact Ha|]. intros x Hx. rewrite Qlt_bool_iff.
      by apply Qle_not_lt.
  - pose proof (filter_length_cons_le (λ x, Qlt_bool x v = true) a l).
    specialize (IH k Hk). lia.
Qed.

(** When the sample at position [k] of a sorted list is below [u], at
    least [k + 1] samples are; when it is above [u], all the samples from
    position [k] on are. *)
Lemma filter_below_sorted_ge l k v u :
  StronglySorted Qle l → l !! k = Some v → (v < u)%Q →
  (S k ≤ length (filter (λ x, Qlt_bool x u = true) l))%nat.
Proof.
  intros Hs. revert k. induction Hs as [|a l Hs IH Ha]; intros k Hk Hvu; [done|].
  assert (Qlt_bool a u = true) as Hau.
  { apply Qlt_bool_iff. destruct k as [|k]; simpl in Hk.
    - by injection Hk as <-.
    - eapply Qle_lt_trans; [|exact Hvu].
      rewrite Forall_forall in Ha. apply Ha. by eapply list_elem_of_lookup_2. }
  rewrite filter_cons_True by done. simpl. destruct k as [|k]; simpl in Hk; [lia|].
  specialize (IH k Hk Hvu). lia.
Qed.

Lemma filter_above_sorted_ge l k v u :
  StronglySorted Qle l → l !! k = Some v → (u < v)%Q →
  (length l - k ≤ length (filter (λ x, Qlt_bool u x = true) l))%nat.
Proof.
  intros Hs. revert k. induction Hs as [|a l Hs IH Ha]; intros k Hk Huv; [done|].
  destruct k as [|k]; simpl in Hk.
  - injection Hk as <-. rewrite filter_length_all; [lia|].
    constructor; [by apply Qlt_bool_iff|].
    eapply Forall_impl; [exact Ha|]. intros x Hx. apply Qlt_bool_iff.
    by eapply Qlt_le_trans.
  - pose proof (filter_length_cons_le (λ x, Qlt_bool u x = true) a l).
    specialize (IH k Hk Huv). simpl length. lia.
Qed.

Section increasing_map.
Variable phi : Q → Q.
Hypothesis phi_increasing : ∀ x y, (x < y)%Q → (phi x < phi y)%Q.
Hypothesis phi_proper : ∀ x y, (x == y)%Q → (phi x == phi y)%Q.

Lemma Qlt_bool_increasing x y x' y' :
  (x' == phi x)%Q → (y' == phi y)%Q → Qlt_bool x' y' = Qlt_bool x y.
Proof.
  intros Hx Hy. rewrite (Qlt_bool_Qeq _ _ _ _ Hx Hy).
  destruct (Qlt_bool x y) eqn:E.
  - apply Qlt_bool_iff, phi_increasing. by apply Qlt_bool_iff.
  - apply Qlt_bool_false. apply Qlt_bool_false in E.
    apply Qle_lteq in E as [E|E].
    + by apply Qlt_le_weak, phi_increasing.
    + rewrite (phi_proper _ _ E). apply Qle_refl.
Qed.

(** The sample at a given position of the sorted samples is carried
    along by an increasing map. *)
Lemma sorted_position_increasing xs xs' k v v' :
  Forall2 (λ x x', x' == phi x)%Q xs xs' →
  merge_sort Qle xs !! k = Some v →
  merge_sort Qle xs' !! k = Some v' →
  (v' == phi v)%Q.
Proof.
  intros Hxs Hv Hv'.
  pose proof (merge_sort_Qle_sorted xs) as Hs.
  pose proof (merge_sort_Qle_sorted xs') as Hs'.
  pose proof (Permutation_length (merge_sort_Permutation Qle xs)) as Hn.
  pose proof (Permutation_length (merge_sort_Permutation Qle xs')) as Hn'.
  pose proof (Forall2_length _ _ _ Hxs) as Hlen.
  assert (∀ (P : Q → Prop) `{∀ x, Decision (P x)} l,
            length (filter P (merge_sort Qle l)) = length (filter P l)) as Hcount.
  { intros P ? l. apply Permutation_length, filter_Permutation, merge_sort_Permutation. }
  pose proof (filter_below_sorted _ _ _ Hs Hv) as Hlo.
  pose proof (filter_above_sorted _ _ _ Hs Hv) as Hhi.
  rewrite Hcount in Hlo. rewrite Hcount in Hhi.
  rewrite <-(filter_length_related (λ x, Qlt_bool x v) (λ x, Qlt_bool x (phi v)) xs xs')
    in Hlo.
  2:{ eapply Forall2_impl; [exact Hxs|]. intros x x' Hx. simpl.
      by apply Qlt_bool_increasing. }
  rewrite <-(filter_length_related (λ x, Qlt_bool v x) (λ x, Qlt_bool (phi v) x) xs xs')
    in Hhi.
  2:{ eapply Forall2_impl; [exact Hxs|]. intros x x' Hx. simpl.
      by apply Qlt_bool_increasing. }
  rewrite <-(Hcount _ _ xs') in Hlo. rewrite <-(Hcount _ _ xs') in Hhi.
  destruct (Q_dec v' (phi v)) as [[Hlt|Hgt]|Heq]; [| |done]; exfalso.
  - pose proof (filter_below_sorted_ge _ _ _ _ Hs' Hv' Hlt). lia.
  - pose proof (filter_above_sorted_ge _ _ _ _ Hs' Hv' Hgt) as Hge.
    apply lookup_lt_Some in Hv'. lia.
Qed.

End increasing_map.

(** X23.  The flags of [detect_brightspot_perframe] depend on the order
    of the samples within a frame only: a video whose samples are those of
    another under a strictly increasing map (a gain and an offset, a gamma
    curve) gets the same mask. *)
Theorem perframe_mask_is_unchanged_by_increasing_maps
    varray varray' thres (phi : Q → Q) :
  (0 <= thres <= 1)%Q → nframe varray ≠ 0%nat →
  nframe varray' = nframe varray →
  height varray' = height varray → width varray' = width varray →
  (∀ x y, (x < y)%Q → (phi x < phi y)%Q) →
  (∀ x y, (x == y)%Q → (phi x == phi y)%Q) →
  (∀ f h w, (f < nframe varray)%nat → (h < height varray)%nat → (w < width varray)%nat →
     (pix varray' f h w == phi (pix varray f h w))%Q) →
  ∃ mask mask',
    detect_brightspot_perframe varray thres = inr mask ∧
    detect_brightspot_perframe varray' thres = inr mask' ∧
    ∀ f h w, (f < nframe varray)%nat → (h < height varray)%nat → (w < width varray)%nat →
             xvalues mask' [f; h; w] = xvalues mask [f; h; w].
Proof.
  intros Hq Hn Hn' Hh Hw Hinc Hprop Hpix.
  destruct (detect_brightspot_perframe_run varray thres Hq Hn)
    as (mask & Hrun & _ & _ & Hval).
  destruct (detect_brightspot_perframe_run varray' thres Hq)
    as (mask' & Hrun' & _ & _ & Hval'); [lia|].
  exists mask, mask'. split; [done|]. split; [done|].
  intros f h w Hf Hhr Hwr. rewrite Hval, Hval' by lia.
  assert (Forall2 (λ x x', x' == phi x)%Q
            (frame_samples varray f) (frame_samples varray' f)) as Hxs.
  { unfold frame_samples. rewrite Hh, Hw.
    apply Forall2_bind, Forall_Forall2_diag, Forall_forall. intros h' Hh'%elem_of_seq.
    apply Forall2_fmap, Forall_Forall2_diag, Forall_forall. intros w' Hw'%elem_of_seq.
    apply Hpix; lia. }
  unfold quantile_lower. rewrite <-(Forall2_length _ _ _ Hxs).
  set (k := Z.to_nat _).
  pose proof (Permutation_length (merge_sort_Permutation Qle (frame_samples varray f))) as Hl.
  pose proof (Permutation_length (merge_sort_Permutation Qle (frame_samples varray' f))) as Hl'.
  pose proof (Forall2_length _ _ _ Hxs) as Hlen.
  destruct (merge_sort Qle (frame_samples varray f) !! k) as [v|] eqn:Hv;
    destruct (merge_sort Qle (frame_samples varray' f) !! k) as [v'|] eqn:Hv'.
  - rewrite (Qlt_bool_increasing phi Hinc Hprop v (pix varray f h w)); [done|..].
    + by eapply sorted_position_increasing.
    + by apply Hpix.
  - apply lookup_lt_Some in Hv. apply lookup_ge_None in Hv'. lia.
  - apply lookup_lt_Some in Hv'. apply lookup_ge_None in Hv. lia.
  - done.
Qed.

(** *** The correlation under a change of unit *)

Lemma deviations_affine (a b mx my mx' my' : Q) (x y x' y' : list Q) :
  (mx' == a * mx + b)%Q → (my' == a * my + b)%Q →
  Forall2 (λ u u', u' == a * u + b)%Q x x' →
  Forall2 (λ u u', u' == a * u + b)%Q y y' →
  Forall2 (λ p p', p' == a * a * p + 0)%Q
    (zip_with (λ u v, (u - mx) * (v - my))%Q x y)
    (zip_with (λ u v, (u - mx') * (v - my'))%Q x' y').
Proof.
  intros Hmx Hmy Hx. revert y y'.
  induction Hx as [|u u' x x' Hu _ IH]; intros y y' Hy; [constructor|].
  destruct Hy as [|v v' y y' Hv Hy]; [constructor|].
  cbn [zip_with]. constructor; [|by apply IH].
  rewrite Hu, Hv, Hmx, Hmy. ring.
Qed.

Lemma cov_affine (a b : Q) (x y x' y' : list Q) :
  x ≠ [] → y ≠ [] →
  Forall2 (λ u u', u' == a * u + b)%Q x x' →
  Forall2 (λ u u', u' == a * u + b)%Q y y' →
  (cov x' y' == a * a * cov x y)%Q.
Proof.
  intros Hx0 Hy0 Hx Hy. unfold cov.
  rewrite (Qsum_affine (a * a) 0 _ _
             (deviations_affine a b _ _ _ _ x y x' y'
                (Qmean_affine a b x x' Hx0 Hx) (Qmean_affine a b y y' Hy0 Hy) Hx Hy)).
  rewrite <-(Forall2_length _ _ _ Hx). unfold Qdiv. ring.
Qed.

Lemma corrcoef_affine (a b : Q) (x y x' y' : list Q) :
  ¬ (a == 0)%Q → length x = length y →
  Forall2 (λ u u', u' == a * u + b)%Q x x' →
  Forall2 (λ u u', u' == a * u + b)%Q y y' →
  option_Forall2 (λ r r' : Q * Q,
                    r'.1 == a * a * r.1 ∧ r'.2 == a * a * (a * a) * r.2)%Q
    (corrcoef x y) (corrcoef x' y').
Proof.
  intros Ha Hlen Hx Hy. unfold corrcoef.
  rewrite <-(Forall2_length _ _ _ Hx).
  case_bool_decide as Hn; [constructor|].
  assert (x ≠ []) as Hx0 by (intros ->; simpl in Hn; lia).
  assert (y ≠ []) as Hy0 by (intros ->; rewrite Hlen in Hn; simpl in Hn; lia).
  pose proof (cov_affine a b x x x' x' Hx0 Hx0 Hx Hx) as Hxx.
  pose proof (cov_affine a b y y y' y' Hy0 Hy0 Hy Hy) as Hyy.
  pose proof (cov_affine a b x y x' y' Hx0 Hy0 Hx Hy) as Hxy.
  assert (∀ c c', (c' == a * a * c)%Q → Qeq_bool c' 0 = Qeq_bool c 0) as Hzero.
  { intros c c' Hc. rewrite Hc. apply eq_true_iff_eq. rewrite !Qeq_bool_iff. split.
    - intros [H|H]%Qmult_integral; [|done].
      apply Qmult_integral in H. exfalso. destruct H; by apply Ha.
    - intros ->. ring. }
  rewrite (Hzero _ _ Hxx), (Hzero _ _ Hyy).
  destruct (Qeq_bool (cov x x) 0 || Qeq_bool (cov y y) 0); constructor.
  split; simpl; [done|]. rewrite Hxx, Hyy. ring.
Qed.

(** X24.  The coefficients do not depend on the unit of the samples: for
    a video whose samples are [a x + b] of another's, with [a] not zero,
    [corr_coeff_pixelwise] gives at every pixel NaN where the other has
    NaN, and otherwise a coefficient that compares in the same way with
    every number, that is, the same coefficient. *)
Theorem coefficient_does_not_depend_on_the_unit varray varray' (a b : Q) :
  ¬ (a == 0)%Q →
  nframe varray' = nframe varray →
  height varray' = height varray → width varray' = width varray →
  (0 < height varray)%nat → (0 < width varray)%nat →
  (∀ f h w, (f < nframe varray)%nat → (h < height varray)%nat → (w < width varray)%nat →
     (pix varray' f h w == a * pix varray f h w + b)%Q) →
  ∃ r r',
    corr_coeff_pixelwise varray = inr r ∧
    corr_coeff_pixelwise varray' = inr r' ∧
    ∀ h w, (h < height varray)%nat → (w < width varray)%nat →
      (xvalues r' [h; w] = None ↔ xvalues r [h; w] = None) ∧
      ∀ t, zgt (xvalues r' [h; w]) (Some (t, 1%Q)) = zgt (xvalues r [h; w]) (Some (t, 1%Q)) ∧
           zgt (Some (t, 1%Q)) (xvalues r' [h; w]) = zgt (Some (t, 1%Q)) (xvalues r [h; w]).
Proof.
  intros Ha Hn Hh Hw Hh0 Hw0 Hpix.
  destruct (corr_coeff_pixelwise_run varray Hh0 Hw0) as (r & Hr & _ & Hval).
  destruct (corr_coeff_pixelwise_run varray') as (r' & Hr' & _ & Hval'); [lia..|].
  exists r, r'. split; [done|]. split; [done|]. intros h w Hhr Hwr.
  rewrite Hval, Hval', Hn. set (m := (nframe varray / 2)%nat).
  assert (Forall2 (λ u u', u' == a * u + b)%Q
            (trace varray (2 * m) h w) (trace varray' (2 * m) h w)) as Ht.
  { unfold trace. apply Forall2_fmap, Forall_Forall2_diag, Forall_forall.
    intros f Hf%elem_of_seq. apply Hpix; [|done..].
    pose proof (Nat.Div0.mul_div_le (nframe varray) 2). lia. }
  assert (0 < a * a)%Q as Haa.
  { pose proof (Qsquare_nonneg a) as H0. apply Qle_lteq in H0 as [?|E]; [done|].
    symmetry in E. apply Qmult_integral in E. exfalso. destruct E; by apply Ha. }
  pose proof (corrcoef_affine a b _ _ _ _ Ha
                (eq_trans (proj1 (trace_halves_length varray m h w))
                   (eq_sym (proj2 (trace_halves_length varray m h w))))
                (Forall2_take _ _ _ m Ht) (Forall2_drop _ _ _ m Ht)) as Hc.
  split.
  - destruct Hc; split; done.
  - intros t. split.
    + by apply (zgt_given_threshold (a * a) Haa).
    + by apply (zlt_given_threshold (a * a) Haa).
Qed.

(** ** The claims at concrete inputs *)

Lemma corrected_value_is_the_mean_in_the_sample_type_witness :
  wf_input ex123_state ex123_video ex123_mask = true ∧ 0 < sum ex123_mask ∧
  ∃ s' R buf' vp,
    correct_brightspot ex123_video ex123_mask 1 10 true ex123_state = (s', inr R) ∧
    heap s' !! data R = Some buf' ∧
    loc_read R buf' [("height", 0); ("width", 0)] = Some vp ∧
    vp [0%nat] = 2%Q ∧ vp [1%nat] = 2%Q.
Proof.
  split; [reflexivity|]. split; [reflexivity|].
  destruct (corrected_value_is_the_mean_in_the_sample_type
              ex123_state ex123_video ex123_mask 1 10 true eq_refl eq_refl)
    as (s' & R & buf0 & buf' & Hrun & Hbuf0 & Hbuf' & Hmean).
  destruct (Hmean [("height", 0); ("width", 0)]
              [[("height", 1); ("width", 1)]; [("height", 0); ("width", 1)];
               [("height", 1); ("width", 0)]])
    as (vp & nb & Hvp & Hnb & _ & Hval).
  { vm_compute. left. }
  { vm_compute. reflexivity. }
  { discriminate. }
  exists s', R, buf', vp. split; [exact Hrun|]. split; [exact Hbuf'|].
  split; [exact Hvp|].
  injection Hbuf0 as <-. vm_compute in Hnb. injection Hnb as <-.
  split.
  - apply (Hval [0%nat] eq_refl). vm_compute.
    apply perm_trans with [1; 3; 2]%Q; [apply perm_swap|apply perm_skip, perm_swap].
  - apply (Hval [1%nat] eq_refl). vm_compute.
    apply perm_trans with [1; 3; 2]%Q; [apply perm_swap|apply perm_skip, perm_swap].
Defined.

(** On an 8-bit video the value stored at a flagged point is not the mean
    of its surrounding values when that mean is not an integer: around
    (0, 0) the values are 4, 1 and 2, their mean is 7/3, and the corrected
    value is 2. *)
Lemma uint8_video_stores_the_integer_part_of_the_mean :
  wf_input ex124_state ex123_video ex123_mask = true ∧ 0 < sum ex123_mask ∧
  [("height", 0); ("width", 0)] ∈ brt_list ex123_mask 10 ∧
  surround ex123_video 1 (brt_list ex123_mask 10) [("height", 0); ("width", 0)]
    = Some [[("height", 1); ("width", 1)]; [("height", 0); ("width", 1)];
            [("height", 1); ("width", 0)]] ∧
  ∃ s' R buf' vp nb,
    correct_brightspot ex123_video ex123_mask 1 10 true ex124_state = (s', inr R) ∧
    heap s' !! data R = Some buf' ∧
    loc_read R buf' [("height", 0); ("width", 0)] = Some vp ∧
    mapM (loc_read ex123_video ex124_frame)
      [[("height", 1); ("width", 1)]; [("height", 0); ("width", 1)];
       [("height", 1); ("width", 0)]] = Some nb ∧
    (λ v : ndarray Q, v [0%nat]) <$> nb = [4; 1; 2]%Q ∧
    Qmean ((λ v : ndarray Q, v [0%nat]) <$> nb) = (7 # 3)%Q ∧
    vp [0%nat] = 2%Q ∧
    ¬ (vp [0%nat] == Qmean ((λ v : ndarray Q, v [0%nat]) <$> nb))%Q.
Proof.
  split; [reflexivity|]. split; [reflexivity|]. split; [vm_compute; left|].
  split; [vm_compute; reflexivity|].
  eexists _, _, _, _, _. split; [vm_compute; reflexivity|].
  split; [reflexivity|]. split; [vm_compute; reflexivity|].
  split; [vm_compute; reflexivity|].
  split; [reflexivity|]. split; [reflexivity|]. split; [reflexivity|]. discriminate.
Qed.

Lemma flagged_points_are_the_labels_above_the_threshold_witness :
  length (xcoords ex_mask_labels) = length (xdims ex_mask_labels) ∧
  NoDup (xdims ex_mask_labels) ∧
  Forall (λ cs, NoDup cs) (xcoords ex_mask_labels) ∧
  [("height", 20); ("width", 9)] ∈ brt_list ex_mask_labels 10 ∧
  ([("height", 10); ("width", 7)] ∉ brt_list ex_mask_labels 10) ∧
  ([("height", 1); ("width", 2)] ∉ brt_list ex_mask_labels 10) ∧
  ([("height", 10); ("width", 5)] ∉ brt_list ex_mask_labels 10).
Proof.
  assert (length (xcoords ex_mask_labels) = length (xdims ex_mask_labels)) as Hlen
    by reflexivity.
  assert (NoDup (xdims ex_mask_labels)) as Hnd
    by (apply (bool_decide_unpack _); reflexivity).
  assert (Forall (λ cs, NoDup cs) (xcoords ex_mask_labels)) as Hcnd
    by (apply (bool_decide_unpack _); reflexivity).
  split; [exact Hlen|]. split; [exact Hnd|]. split; [exact Hcnd|].
  destruct (flagged_points_are_the_labels_above_the_threshold ex_mask_labels 10
              Hlen Hnd Hcnd) as (Hmem & _).
  split; [|split; [|split]].
  - apply Hmem. split; [reflexivity|]. exists 11. split; reflexivity.
  - intros (_ & v & [= <-] & Hv)%Hmem. discriminate Hv.
  - intros (_ & v & [=] & _)%Hmem.
  - intros (_ & v & [= <-] & Hv)%Hmem. discriminate Hv.
Defined.

Lemma surround_is_box_minus_flagged_witness :
  wf_input ex_state ex_video ex_mask = true ∧
  [("height", 0); ("width", 0)] ∈ brt_list ex_mask 10 ∧
  ∃ sur,
    surround ex_video 2 (brt_list ex_mask 10) [("height", 0); ("width", 0)] = Some sur ∧
    ([("height", 0); ("width", 0)] ∉ sur) ∧
    ([("height", 0); ("width", 1)] ∉ sur) ∧
    ∀ c d x, c ∈ sur → (d, x) ∈ c →
      ∃ cs, coords_of (dims ex_video) (coords ex_video) d = Some cs ∧ x ∈ cs.
Proof.
  assert ([("height", 0); ("width", 0)] ∈ brt_list ex_mask 10) as Hp
    by (vm_compute; left).
  split; [reflexivity|]. split; [exact Hp|].
  destruct (surround_is_box_minus_flagged ex_state ex_video ex_mask 2 10
              [("height", 0); ("width", 0)] eq_refl Hp)
    as (sur & Hsur & _ & _ & _ & Hself & Hflag & Hin).
  exists sur. split; [exact Hsur|]. split; [exact Hself|]. split; [|exact Hin].
  apply Hflag. vm_compute. right. left.
Defined.

Lemma correct_brightspot_empty_mask_witness :
  (∀ idx, idx ∈ indices (shape (xcoords ex_mask_zero)) → xvalues ex_mask_zero idx ≤ 0) ∧
  correct_brightspot ex_video ex_mask_zero 2 10 false ex_state =
    (State (heap ex_state) [correcting_brightspot; no_bright_spots_returning_input],
     inr ex_video).
Proof.
  assert (∀ idx, idx ∈ indices (shape (xcoords ex_mask_zero)) →
                 xvalues ex_mask_zero idx ≤ 0) as H0
    by (intros idx _; simpl; lia).
  split; [exact H0|].
  exact (correct_brightspot_empty_mask ex_state ex_video ex_mask_zero 2 10 false H0).
Defined.

Lemma isolated_point_left_unchanged_witness :
  wf_input ex_state ex_video ex_mask_iso = true ∧ 0 < sum ex_mask_iso ∧
  ∃ s' R buf0 buf' v0 v',
    correct_brightspot ex_video ex_mask_iso 1 10 true ex_state = (s', inr R) ∧
    unable_to_correct 0 [("height", 0); ("width", 0)] ∈ stdout s' ∧
    loc_read ex_video buf0 [("height", 0); ("width", 0)] = Some v0 ∧
    loc_read R buf' [("height", 0); ("width", 0)] = Some v' ∧
    ∀ ridx, v' ridx = v0 ridx.
Proof.
  split; [reflexivity|]. split; [reflexivity|].
  destruct (isolated_point_left_unchanged ex_state ex_video ex_mask_iso 1 10 true
              eq_refl eq_refl)
    as (s' & R & buf0 & buf' & Hrun & _ & _ & Hiso & _).
  destruct (Hiso 0%nat [("height", 0); ("width", 0)] eq_refl eq_refl)
    as (Hmsg & v0 & v' & Hv0 & Hv' & Heq).
  exists s', R, buf0, buf', v0, v'. repeat split; assumption.
Defined.

Lemma unflagged_cells_unchanged_witness :
  wf_input ex_state ex_video ex_mask = true ∧
  (∃ idx, idx ∈ indices (shape (xcoords ex_mask)) ∧ 0 < xvalues ex_mask idx) ∧
  ∃ s' R buf0 buf',
    correct_brightspot ex_video ex_mask 1 10 true ex_state = (s', inr R) ∧
    heap ex_state !! data ex_video = Some buf0 ∧
    heap s' !! data R = Some buf' ∧
    buf' [0; 2; 2]%nat = buf0 [0; 2; 2]%nat.
Proof.
  assert (∃ idx, idx ∈ indices (shape (xcoords ex_mask)) ∧ 0 < xvalues ex_mask idx) as Hpos.
  { exists [0; 0]%nat. split; [vm_compute; left|reflexivity]. }
  split; [reflexivity|]. split; [exact Hpos|].
  destruct (unflagged_cells_unchanged ex_state ex_video ex_mask 1 10 true eq_refl Hpos)
    as (s' & R & buf0 & buf' & Hrun & Hbuf0 & Hbuf' & _ & _ & Hsame).
  exists s', R, buf0, buf'. split; [exact Hrun|]. split; [exact Hbuf0|].
  split; [exact Hbuf'|]. apply Hsame. intros p Hp (ix & Hix & Hm).
  vm_compute in Hp.
  apply elem_of_cons in Hp as [->|Hp]; [vm_compute in Hix; injection Hix as <-; discriminate|].
  apply elem_of_cons in Hp as [->|Hp]; [vm_compute in Hix; injection Hix as <-; discriminate|].
  by apply elem_of_nil in Hp.
Defined.

Lemma perframe_flags_above_lower_quantile_witness :
  (0 <= 1 # 2 <= 1)%Q ∧ nframe ex_v1234 ≠ 0%nat ∧
  ∃ mask,
    detect_brightspot_perframe ex_v1234 (1 # 2) = inr mask ∧
    xdims mask = ["frame"; "height"; "width"].
Proof.
  assert (0 <= 1 # 2 <= 1)%Q as Hq by (split; discriminate).
  assert (nframe ex_v1234 ≠ 0%nat) as Hn by discriminate.
  split; [exact Hq|]. split; [exact Hn|].
  destruct (perframe_flags_above_lower_quantile ex_v1234 (1 # 2) Hq Hn)
    as [(mask & Hrun & Hdims & _) _].
  exists mask. split; assumption.
Defined.



Lemma constant_frame_mask_is_zero_witness :
  nframe ex_const ≠ 0%nat ∧ 0 < 2 ∧
  (∀ h wd, (h < height ex_const)%nat → (wd < width ex_const)%nat →
           (meanfm ex_const h wd == 5)%Q) ∧
  ∃ mask,
    detect_brightspot ex_const None 2 1 = inr mask ∧ ∀ idx, xvalues mask idx = 0.
Proof.
  assert (nframe ex_const ≠ 0%nat) as Hn by discriminate.
  assert (0 < 2) as Hw by reflexivity.
  assert (∀ h wd, (h < height ex_const)%nat → (wd < width ex_const)%nat →
                  (meanfm ex_const h wd == 5)%Q) as Hc
    by (intros h wd _ _; reflexivity).
  split; [exact Hn|]. split; [exact Hw|]. split; [exact Hc|].
  exact (constant_frame_mask_is_zero ex_const 2 1 5 Hn Hw Hc).
Defined.

(** ** The further properties at concrete inputs *)

Lemma inplace_decides_the_buffer_written_witness :
  wf_input ex123_state ex123_video ex123_mask = true ∧ 0 < sum ex123_mask ∧
  ∃ s' R,
    correct_brightspot ex123_video ex123_mask 1 10 false ex123_state = (s', inr R) ∧
    data R = 1%nat ∧ length (heap s') = 2%nat ∧
    heap s' !! 0%nat = heap ex123_state !! 0%nat.
Proof.
  split; [reflexivity|]. split; [reflexivity|].
  destruct (inplace_decides_the_buffer_written ex123_state ex123_video ex123_mask 1 10 false
              eq_refl eq_refl)
    as (s' & R & nm & Hrun & _ & _ & _ & _ & _ & _ & Hcopy).
  destruct (Hcopy eq_refl) as (Hd & Hl & Hsame).
  exists s', R. split; [exact Hrun|]. split; [exact Hd|]. split; [exact Hl|].
  apply Hsame. simpl. lia.
Defined.

Lemma unnamed_video_fails_after_the_corrections_witness :
  wf_input ex123_state ex123_video ex123_mask = true ∧ 0 < sum ex123_mask ∧
  ∃ s' buf',
    correct_brightspot (unnamed ex123_video) ex123_mask 1 10 true ex123_state
      = (s', inl TypeError) ∧
    heap s' !! 0%nat = Some buf' ∧ buf' [0; 0; 0]%nat = 2%Q.
Proof.
  split; [reflexivity|]. split; [reflexivity|].
  destruct (unnamed_video_fails_after_the_corrections ex123_state ex123_video ex123_mask
              1 10 true eq_refl eq_refl)
    as (s' & R & Hrun & Hfail).
  vm_compute in Hrun. injection Hrun as <- _.
  eexists _, _. split; [exact Hfail|]. split; [reflexivity|]. vm_compute. reflexivity.
Defined.

Lemma mask_axis_unknown_to_the_video_is_a_KeyError_witness :
  heap ex123_state !! data ex123_video = Some ex123_frame ∧
  0 < sum ex_mask_depth ∧
  [("height", 0); ("depth", 0)] ∈ brt_list ex_mask_depth 10 ∧
  "depth" ∈ xdims ex_mask_depth ∧ ("depth" ∉ dims ex123_video) ∧
  correct_brightspot ex123_video ex_mask_depth 1 10 true ex123_state =
    (State [ex123_frame] [correcting_brightspot], inl KeyError).
Proof.
  assert ([("height", 0); ("depth", 0)] ∈ brt_list ex_mask_depth 10) as Hp
    by (vm_compute; left).
  assert ("depth" ∈ xdims ex_mask_depth) as Hd by (right; left).
  assert ("depth" ∉ dims ex123_video) as HdV.
  { intros H. repeat (apply elem_of_cons in H as [H|H]; [discriminate|]).
    by apply elem_of_nil in H. }
  split; [reflexivity|]. split; [reflexivity|]. split; [exact Hp|].
  split; [exact Hd|]. split; [exact HdV|].
  exact (mask_axis_unknown_to_the_video_is_a_KeyError ex123_state ex123_video ex_mask_depth
           1 10 true ex123_frame _ "depth" eq_refl eq_refl eq_refl Hp Hd HdV).
Defined.

Lemma nonpositive_window_corrects_nothing_witness :
  wf_input ex123_state ex123_video ex123_mask = true ∧ 0 < sum ex123_mask ∧ 0 ≤ 0 ∧
  ∃ s' R buf',
    correct_brightspot ex123_video ex123_mask 0 10 true ex123_state = (s', inr R) ∧
    heap s' !! data R = Some buf' ∧
    buf' [0; 0; 0]%nat = 200%Q ∧
    unable_to_correct 0 [("height", 0); ("width", 0)] ∈ stdout s'.
Proof.
  split; [reflexivity|]. split; [reflexivity|]. split; [reflexivity|].
  destruct (nonpositive_window_corrects_nothing ex123_state ex123_video ex123_mask 0 10 true
              eq_refl eq_refl ltac:(reflexivity))
    as (s' & R & buf0 & buf' & Hrun & Hbuf0 & Hbuf' & Hsame & Hmsg).
  exists s', R, buf'. split; [exact Hrun|]. split; [exact Hbuf'|].
  injection Hbuf0 as <-. split; [apply Hsame|]. by apply Hmsg.
Defined.

Lemma correcting_twice_changes_nothing_more_witness :
  wf_input ex123_state ex123_video ex123_mask = true ∧ 0 < sum ex123_mask ∧
  ∃ s1 R1 s2 R2 buf1 buf2,
    correct_brightspot ex123_video ex123_mask 1 10 true ex123_state = (s1, inr R1) ∧
    correct_brightspot R1 ex123_mask 1 10 true s1 = (s2, inr R2) ∧
    heap s1 !! 0%nat = Some buf1 ∧ heap s2 !! 0%nat = Some buf2 ∧
    buf2 [0; 0; 0]%nat = buf1 [0; 0; 0]%nat.
Proof.
  split; [reflexivity|]. split; [reflexivity|].
  destruct (correcting_twice_changes_nothing_more ex123_state ex123_video ex123_mask 1 10
              eq_refl eq_refl)
    as (s1 & R1 & s2 & R2 & buf1 & buf2 & Hrun1 & Hrun2 & _ & _ & Hb1 & Hb2 & Hsame).
  exists s1, R1, s2, R2, buf1, buf2.
  split; [exact Hrun1|]. split; [exact Hrun2|]. split; [exact Hb1|]. split; [exact Hb2|].
  apply Hsame.
Defined.

Lemma window_larger_than_the_frame_flags_nothing_witness :
  nframe ex_tile ≠ 0%nat ∧
  (Z.of_nat (height ex_tile) < 5 ∨ Z.of_nat (width ex_tile) < 5) ∧
  ∃ mask,
    detect_brightspot ex_tile (Some (1 # 2)) 5 1 = inr mask ∧ ∀ idx, xvalues mask idx = 0.
Proof.
  assert (nframe ex_tile ≠ 0%nat) as Hn by discriminate.
  assert (Z.of_nat (height ex_tile) < 5 ∨ Z.of_nat (width ex_tile) < 5) as Hbig
    by (left; reflexivity).
  split; [exact Hn|]. split; [exact Hbig|].
  exact (window_larger_than_the_frame_flags_nothing ex_tile (Some (1 # 2)) 5 1 Hn Hbig).
Defined.

Lemma window_of_one_pixel_flags_nothing_witness :
  nframe ex_tile ≠ 0%nat ∧
  ∃ mask,
    detect_brightspot ex_tile (Some (1 # 2)) 1 1 = inr mask ∧ ∀ idx, xvalues mask idx = 0.
Proof.
  assert (nframe ex_tile ≠ 0%nat) as Hn by discriminate.
  split; [exact Hn|].
  exact (window_of_one_pixel_flags_nothing ex_tile (Some (1 # 2)) 1 Hn).
Defined.

Lemma coarser_stride_never_adds_votes_witness :
  nframe ex_tile ≠ 0%nat ∧ 0 < 2 ∧ 2 ≠ 0 ∧
  ∃ fine coarse,
    detect_brightspot ex_tile (Some (1 # 2)) 2 1 = inr fine ∧
    detect_brightspot ex_tile (Some (1 # 2)) 2 (2 * 1) = inr coarse ∧
    0 ≤ xvalues coarse [1; 1]%nat ≤ xvalues fine [1; 1]%nat.
Proof.
  assert (nframe ex_tile ≠ 0%nat) as Hn by discriminate.
  assert (0 < 2) as Hw by reflexivity.
  assert (2 ≠ 0) as Hk by discriminate.
  split; [exact Hn|]. split; [exact Hw|]. split; [exact Hk|].
  destruct (coarser_stride_never_adds_votes ex_tile (Some (1 # 2)) 2 1 2 Hn Hw Hk)
    as (fine & coarse & Hf & Hc & Hle).
  exists fine, coarse. split; [exact Hf|]. split; [exact Hc|]. apply Hle.
Defined.


Lemma quantile_one_flags_nothing_witness :
  nframe ex_v1234 ≠ 0%nat ∧
  ∃ mask,
    detect_brightspot_perframe ex_v1234 1 = inr mask ∧
    xvalues mask [0; 1; 1]%nat = 0.
Proof.
  assert (nframe ex_v1234 ≠ 0%nat) as Hn by discriminate.
  split; [exact Hn|].
  destruct (quantile_one_flags_nothing ex_v1234 Hn) as (mask & Hrun & Hzero).
  exists mask. split; [exact Hrun|]. apply Hzero; simpl; lia.
Defined.

Lemma darkest_pixel_is_never_flagged_witness :
  (0 <= 1 # 2 <= 1)%Q ∧
  (∀ h' w', (h' < height ex_v1234)%nat → (w' < width ex_v1234)%nat →
            (pix ex_v1234 0 0 0 <= pix ex_v1234 0 h' w')%Q) ∧
  ∃ mask,
    detect_brightspot_perframe ex_v1234 (1 # 2) = inr mask ∧
    xvalues mask [0; 0; 0]%nat = 0.
Proof.
  assert (0 <= 1 # 2 <= 1)%Q as Hq by (split; discriminate).
  assert (∀ h' w', (h' < height ex_v1234)%nat → (w' < width ex_v1234)%nat →
                   (pix ex_v1234 0 0 0 <= pix ex_v1234 0 h' w')%Q) as Hmin.
  { intros h' w' _ _. simpl. rewrite <-Zle_Qle. lia. }
  split; [exact Hq|]. split; [exact Hmin|].
  apply (darkest_pixel_is_never_flagged ex_v1234 (1 # 2) 0 0 0 Hq); simpl; try lia.
  exact Hmin.
Defined.

Lemma perframe_flags_at_most_the_upper_share_witness :
  (0 <= 1 # 2 <= 1)%Q ∧
  ∃ mask,
    detect_brightspot_perframe ex_v1234 (1 # 2) = inr mask ∧
    0 ≤ count_in_frame mask 0 ≤ 2.
Proof.
  assert (0 <= 1 # 2 <= 1)%Q as Hq by (split; discriminate).
  split; [exact Hq|].
  destruct (perframe_flags_at_most_the_upper_share ex_v1234 (1 # 2) 0 Hq)
    as (mask & Hrun & Hb); [simpl; lia..|].
  exists mask. split; [exact Hrun|exact Hb].
Defined.

Lemma quantile_zero_flags_all_but_the_minimum_witness :
  ∃ mask,
    detect_brightspot_perframe ex_v1234 0 = inr mask ∧
    (xvalues mask [0; 0; 1]%nat = 1 ↔
     ∃ h' w', (h' < 2)%nat ∧ (w' < 2)%nat ∧
              (pix ex_v1234 0 h' w' < pix ex_v1234 0 0 1)%Q).
Proof.
  destruct (quantile_zero_flags_all_but_the_minimum ex_v1234 0 0 1)
    as (mask & Hrun & _ & Hiff); [simpl; lia..|].
  exists mask. split; [exact Hrun|exact Hiff].
Defined.

Lemma last_frame_of_an_odd_video_is_ignored_witness :
  (∀ f h w, (f < 2 * 2)%nat → (h < height ex_odd)%nat → (w < width ex_odd)%nat →
            pix ex_odd_other f h w = pix ex_odd f h w) ∧
  ∃ r r',
    corr_coeff_pixelwise ex_odd = inr r ∧
    corr_coeff_pixelwise ex_odd_other = inr r' ∧
    xvalues r' [0; 0]%nat = xvalues r [0; 0]%nat.
Proof.
  assert (∀ f h w, (f < 2 * 2)%nat → (h < height ex_odd)%nat → (w < width ex_odd)%nat →
                   pix ex_odd_other f h w = pix ex_odd f h w) as Hpix.
  { intros f h w Hf _ _. simpl. rewrite decide_False; [done|lia]. }
  split; [exact Hpix|].
  destruct (last_frame_of_an_odd_video_is_ignored ex_odd ex_odd_other 2
              eq_refl eq_refl eq_refl eq_refl) as (r & r' & Hr & Hr' & Hsame);
    [simpl; lia..|exact Hpix|].
  exists r, r'. split; [exact Hr|]. split; [exact Hr'|]. apply Hsame; simpl; lia.
Defined.

Lemma coefficient_lies_between_minus_one_and_one_witness :
  ∃ r v,
    corr_coeff_pixelwise ex_corr = inr r ∧
    xvalues r [0; 1]%nat = Some v ∧
    (0 < v.2)%Q ∧
    zgt (Some v) (Some (1%Q, 1%Q)) = false ∧
    zgt (Some ((- 1)%Q, 1%Q)) (Some v) = false.
Proof.
  eexists _, _. split; [reflexivity|]. split; [vm_compute; reflexivity|].
  apply (coefficient_lies_between_minus_one_and_one ex_corr _ 0 1 _ eq_refl).
  vm_compute. reflexivity.
Defined.

Lemma fewer_than_four_frames_give_NaN_witness :
  (nframe ex_two < 4)%nat ∧
  ∃ r, corr_coeff_pixelwise ex_two = inr r ∧ ∀ h w, xvalues r [h; w] = None.
Proof.
  assert (nframe ex_two < 4)%nat as Hn by (simpl; lia).
  split; [exact Hn|]. eexists. split; [reflexivity|].
  exact (fewer_than_four_frames_give_NaN ex_two _ Hn eq_refl).
Defined.

Lemma pixel_constant_over_a_half_gives_NaN_witness :
  (∀ f, (f < nframe ex_half / 2)%nat → (pix ex_half f 0 0 == inject_Z 5)%Q) ∧
  ∃ r, corr_coeff_pixelwise ex_half = inr r ∧ xvalues r [0; 0]%nat = None.
Proof.
  assert (∀ f, (f < nframe ex_half / 2)%nat → (pix ex_half f 0 0 == inject_Z 5)%Q) as Hc.
  { intros f Hf. change (nframe ex_half / 2)%nat with 2%nat in Hf.
    destruct f as [|[|f]]; [reflexivity..|lia]. }
  split; [exact Hc|]. eexists. split; [reflexivity|].
  exact (pixel_constant_over_a_half_gives_NaN ex_half _ 0 0 5 eq_refl Hc).
Defined.

Lemma repeated_half_correlates_perfectly_witness :
  (∀ f, (f < nframe ex_corr / 2)%nat →
        pix ex_corr (nframe ex_corr / 2 + f) 0 0 = pix ex_corr f 0 0) ∧
  ∃ r v,
    corr_coeff_pixelwise ex_corr = inr r ∧
    xvalues r [0; 0]%nat = Some v ∧
    zgt (Some v) (Some (1%Q, 1%Q)) = false ∧ zgt (Some (1%Q, 1%Q)) (Some v) = false.
Proof.
  assert (∀ f, (f < nframe ex_corr / 2)%nat →
               pix ex_corr (nframe ex_corr / 2 + f) 0 0 = pix ex_corr f 0 0) as Hrep.
  { intros f Hf. change (nframe ex_corr / 2)%nat with 2%nat in *.
    destruct f as [|[|f]]; [reflexivity..|lia]. }
  split; [exact Hrep|].
  eexists _, _. split; [reflexivity|]. split; [vm_compute; reflexivity|].
  apply (repeated_half_correlates_perfectly ex_corr _ 0 0 _ eq_refl Hrep).
  vm_compute. reflexivity.
Defined.

Lemma detector_masks_are_accepted_by_the_corrector_witness :
  vname ex_tile = Some "v" ∧
  is_Some (heap (State [video_buffer ex_tile] []) !! 0%nat) ∧
  ∃ mask s' R,
    detect_brightspot ex_tile (Some (1 # 2)) 2 1 = inr mask ∧
    correct_brightspot (video_object ex_tile uint8 0) mask 1 1 true
      (State [video_buffer ex_tile] []) = (s', inr R) ∧
    dims R = ["frame"; "height"; "width"].
Proof.
  assert (is_Some (heap (State [video_buffer ex_tile] []) !! 0%nat)) as Hlive
    by (by eexists).
  split; [reflexivity|]. split; [exact Hlive|].
  eexists. 
  destruct (detector_masks_are_accepted_by_the_corrector
              (State [video_buffer ex_tile] []) ex_tile uint8 0 "v" _ 1 1 true eq_refl Hlive
              (or_introl (ex_intro _ (Some (1 # 2))
                            (ex_intro _ 2 (ex_intro _ 1 eq_refl)))))
    as (_ & s' & R & Hrun & Hdims & _).
  exists s', R. split; [reflexivity|]. split; [exact Hrun|exact Hdims].
Defined.

Lemma equal_dicts_have_equal_hashes_witness :
  NoDup ([("height", 1); ("width", 2)] : HashableDict).*1 ∧
  NoDup ([("width", 2); ("height", 1)] : HashableDict).*1 ∧
  ∀ hash,
    HashableDict_hash hash [("height", 1); ("width", 2)]
    = HashableDict_hash hash [("width", 2); ("height", 1)].
Proof.
  assert (NoDup ([("height", 1); ("width", 2)] : HashableDict).*1) as H1.
  { apply (bool_decide_unpack _). by vm_compute. }
  assert (NoDup ([("width", 2); ("height", 1)] : HashableDict).*1) as H2.
  { apply (bool_decide_unpack _). by vm_compute. }
  split; [exact H1|]. split; [exact H2|]. intros hash.
  apply (equal_dicts_have_equal_hashes hash _ _ H1 H2).
  intros k. simpl. repeat case_decide; congruence.
Defined.

Lemma correction_keeps_the_range_of_the_input_witness :
  wf_input ex124_state ex123_video ex123_mask = true ∧ 0 < sum ex123_mask ∧
  dtype ex123_video = uint8 ∧
  (∀ idx, astype uint8 (ex124_frame idx) = ex124_frame idx) ∧
  (∀ idx, (0 <= ex124_frame idx <= 200)%Q) ∧
  ∃ s' R buf',
    correct_brightspot ex123_video ex123_mask 1 10 true ex124_state = (s', inr R) ∧
    heap s' !! data R = Some buf' ∧
    ∀ idx, (0 <= buf' idx <= 200)%Q.
Proof.
  assert (∀ idx, astype uint8 (ex124_frame idx) = ex124_frame idx) as Htype.
  { intros idx. unfold ex124_frame. repeat case_match; reflexivity. }
  assert (∀ idx, (0 <= ex124_frame idx <= 200)%Q) as Hrange.
  { intros idx. unfold ex124_frame. repeat case_match; split; discriminate. }
  split; [reflexivity|]. split; [reflexivity|]. split; [reflexivity|].
  split; [exact Htype|]. split; [exact Hrange|].
  destruct (correction_keeps_the_range_of_the_input ex124_state ex123_video ex123_mask
              1 10 true 0 200 eq_refl eq_refl eq_refl)
    as (s' & R & buf0 & buf' & Hrun & Hbuf0 & Hbuf' & Hkeep).
  exists s', R, buf'. split; [exact Hrun|]. split; [exact Hbuf'|].
  injection Hbuf0 as <-. intros idx. exact (proj1 (Hkeep Htype Hrange idx)).
Defined.

Lemma gain_and_offset_do_not_change_the_mask_witness :
  (0 < 2)%Q ∧ nframe ex_tile ≠ 0%nat ∧ 0 < 2 ∧
  (∀ f h wd, (f < nframe ex_tile)%nat → (h < height ex_tile)%nat → (wd < width ex_tile)%nat →
     (pix ex_tile_scaled f h wd == 2 * pix ex_tile f h wd + 3)%Q) ∧
  ∃ mask mask',
    detect_brightspot ex_tile (Some (1 # 2)) 2 1 = inr mask ∧
    detect_brightspot ex_tile_scaled (Some (1 # 2)) 2 1 = inr mask' ∧
    ∀ idx, xvalues mask' idx = xvalues mask idx.
Proof.
  assert (0 < 2)%Q as Ha by reflexivity.
  assert (nframe ex_tile ≠ 0%nat) as Hn by discriminate.
  assert (0 < 2) as Hw by reflexivity.
  assert (∀ f h wd, (f < nframe ex_tile)%nat → (h < height ex_tile)%nat →
            (wd < width ex_tile)%nat →
            (pix ex_tile_scaled f h wd == 2 * pix ex_tile f h wd + 3)%Q) as Hpix
    by (intros f h wd _ _ _; reflexivity).
  split; [exact Ha|]. split; [exact Hn|]. split; [exact Hw|]. split; [exact Hpix|].
  exact (gain_and_offset_do_not_change_the_mask ex_tile ex_tile_scaled (Some (1 # 2)) 2 1
           2 3 Ha Hn Hw eq_refl eq_refl eq_refl Hpix).
Defined.

Lemma perframe_mask_is_unchanged_by_increasing_maps_witness :
  (0 <= 1 # 2 <= 1)%Q ∧ nframe ex_v1234 ≠ 0%nat ∧
  (∀ x y, (x < y)%Q → (2 * x + 3 < 2 * y + 3)%Q) ∧
  (∀ x y, (x == y)%Q → (2 * x + 3 == 2 * y + 3)%Q) ∧
  ∃ mask mask',
    detect_brightspot_perframe ex_v1234 (1 # 2) = inr mask ∧
    detect_brightspot_perframe ex_v1234_scaled (1 # 2) = inr mask' ∧
    xvalues mask' [0; 1; 0]%nat = xvalues mask [0; 1; 0]%nat.
Proof.
  assert (0 <= 1 # 2 <= 1)%Q as Hq by (split; discriminate).
  assert (nframe ex_v1234 ≠ 0%nat) as Hn by discriminate.
  assert (∀ x y, (x < y)%Q → (2 * x + 3 < 2 * y + 3)%Q) as Hinc by (intros x y H; lra).
  assert (∀ x y, (x == y)%Q → (2 * x + 3 == 2 * y + 3)%Q) as Hprop
    by (intros x y H; lra).
  split; [exact Hq|]. split; [exact Hn|]. split; [exact Hinc|]. split; [exact Hprop|].
  destruct (perframe_mask_is_unchanged_by_increasing_maps ex_v1234 ex_v1234_scaled (1 # 2)
              (λ x, 2 * x + 3)%Q Hq Hn eq_refl eq_refl eq_refl Hinc Hprop)
    as (mask & mask' & Hm & Hm' & Hsame).
  { intros f h w _ _ _. reflexivity. }
  exists mask, mask'. split; [exact Hm|]. split; [exact Hm'|].
  apply Hsame; simpl; lia.
Defined.

Lemma coefficient_does_not_depend_on_the_unit_witness :
  ¬ (- 2 == 0)%Q ∧
  ∃ r r',
    corr_coeff_pixelwise ex_corr = inr r ∧
    corr_coeff_pixelwise ex_corr_scaled = inr r' ∧
    zgt (xvalues r' [0; 1]%nat) (Some (0%Q, 1%Q))
    = zgt (xvalues r [0; 1]%nat) (Some (0%Q, 1%Q)).
Proof.
  assert (¬ (- 2 == 0)%Q) as Ha by discriminate.
  split; [exact Ha|].
  destruct (coefficient_does_not_depend_on_the_unit ex_corr ex_corr_scaled (- 2) 3 Ha
              eq_refl eq_refl eq_refl) as (r & r' & Hr & Hr' & Hsame).
  { simpl. lia. }
  { simpl. lia. }
  { intros f h w _ _ _. reflexivity. }
  exists r, r'. split; [exact Hr|]. split; [exact Hr'|].
  destruct (Hsame 0%nat 1%nat) as [_ Hcmp]; [simpl; lia..|].
  apply (Hcmp 0%Q).
Defined.
